(** * SwiftShaderGL-DirectFB: shader front end and Reactor builder

    A shallow embedding of five pieces of the code base and the
    properties established about them:

    - [Reactor]     : [src/Reactor/Reactor.cpp] (lazy materialisation of
                      [rr::Variable], 4-lane swizzles) and the block
                      terminators of the LLVM back end;
    - [Lowering]    : the integer vector operations the LLVM back end
                      lowers to plain instructions;
    - [Limitations] : [src/OpenGL/compiler/ValidateLimitations.cpp];
    - [PPInput]     : [src/OpenGL/compiler/preprocessor/Input.cpp];
    - [Directive]   : the preprocessor's [pp::DirectiveParser].

    C++ objects with mutable members become records threaded through the
    functions; pointers that may be null become [option]; [std::map] and
    [std::unordered_set] become [gmap] and [gset]. *)

From Stdlib Require Import ZArith Lia List Bool Ascii String.
From stdpp Require Import base gmap strings list fin_maps pretty.
Import ListNotations.

Local Open Scope Z_scope.

(* ===================================================================== *)
(** * Reactor: variables and swizzles                                     *)
(* ===================================================================== *)

Module Reactor.

(** SSA values are opaque handles; fresh ones are drawn from a counter. *)
Definition Value := nat.
Definition BasicBlock := nat.
(** A [Variable] is identified by its [this] pointer. *)
Definition Var := nat.

(** The instructions the modelled entry points hand to the IR builder. *)
Inductive Instr :=
| IAlloca (result : Value)
| IStore (value ptr : Value)
| ILoad (result ptr : Value)
| IGEP (result base index : Value)
| IBr (dest : BasicBlock)
| ICondBr (cond : Value) (ifTrue ifFalse : BasicBlock)
| IRet (v : option Value).

(** [rvalue] and [address] are the two mutable members of every
    [Variable]; a null pointer is an absent key.  [entryBlock] receives the
    allocas ([push_front]), [emitted] is what the builder appended at the
    insert point. *)
Record State := mkState {
  rvalue : gmap Var Value;
  address : gmap Var Value;
  unmaterializedVariables : gset Var;
  entryBlock : list Instr;
  emitted : list Instr;
  insertBlock : BasicBlock;
  nextValue : Value
}.

Definition emit (i : Instr) (st : State) : State :=
  mkState (rvalue st) (address st) (unmaterializedVariables st)
          (entryBlock st) (emitted st ++ [i]) (insertBlock st) (nextValue st).

Definition set_rvalue (f : gmap Var Value -> gmap Var Value) (st : State) : State :=
  mkState (f (rvalue st)) (address st) (unmaterializedVariables st)
          (entryBlock st) (emitted st) (insertBlock st) (nextValue st).

Definition set_address (f : gmap Var Value -> gmap Var Value) (st : State) : State :=
  mkState (rvalue st) (f (address st)) (unmaterializedVariables st)
          (entryBlock st) (emitted st) (insertBlock st) (nextValue st).

Definition set_unmaterialized (f : gset Var -> gset Var) (st : State) : State :=
  mkState (rvalue st) (address st) (f (unmaterializedVariables st))
          (entryBlock st) (emitted st) (insertBlock st) (nextValue st).

(** [Variable::Variable] and [Variable::~Variable]. *)
Definition Variable_ctor (this : Var) (st : State) : State :=
  set_unmaterialized (fun s => {[this]} ∪ s)
    (set_rvalue (delete this) (set_address (delete this) st)).

Definition Variable_dtor (this : Var) (st : State) : State :=
  set_unmaterialized (fun s => s ∖ {[this]}) st.

(** [Nucleus::allocateStackVariable]: a new alloca at the front of the
    entry block. *)
Definition allocateStackVariable (st : State) : Value * State :=
  let a := nextValue st in
  (a, mkState (rvalue st) (address st) (unmaterializedVariables st)
              (IAlloca a :: entryBlock st) (emitted st) (insertBlock st) (S a)).

(** [Nucleus::createStore] returns the stored value, [Nucleus::createLoad]
    a new one. *)
Definition createStore (value ptr : Value) (st : State) : Value * State :=
  (value, emit (IStore value ptr) st).

Definition createLoad (ptr : Value) (st : State) : Value * State :=
  let r := nextValue st in
  (r, mkState (rvalue st) (address st) (unmaterializedVariables st)
              (entryBlock st) (emitted st ++ [ILoad r ptr]) (insertBlock st) (S r)).

Definition createGEP (base index : Value) (st : State) : Value * State :=
  let r := nextValue st in
  (r, mkState (rvalue st) (address st) (unmaterializedVariables st)
              (entryBlock st) (emitted st ++ [IGEP r base index]) (insertBlock st) (S r)).

(** [Variable::storeValue]. *)
Definition storeValue (this : Var) (value : Value) (st : State) : Value * State :=
  match address st !! this with
  | Some a => createStore value a st
  | None => (value, set_rvalue (insert this value) st)
  end.

(** [Variable::materialize]. *)
Definition materialize (this : Var) (st : State) : State :=
  match address st !! this with
  | Some _ => st
  | None =>
      let '(a, st1) := allocateStackVariable st in
      let st2 := set_address (insert this a) st1 in
      match rvalue st2 !! this with
      | Some rv =>
          let '(_, st3) := storeValue this rv st2 in
          set_rvalue (delete this) st3
      | None => st2
      end
  end.

(** [Variable::loadValue]. *)
Definition loadValue (this : Var) (st : State) : option Value * State :=
  match rvalue st !! this with
  | Some rv => (Some rv, st)
  | None =>
      let st1 := match address st !! this with
                 | Some _ => st
                 | None => materialize this st
                 end in
      match address st1 !! this with
      | Some a => let '(r, st2) := createLoad a st1 in (Some r, st2)
      | None => (None, st1)
      end
  end.

(** [Variable::getBaseAddress] and [Variable::getElementPointer]. *)
Definition getBaseAddress (this : Var) (st : State) : option Value * State :=
  let st1 := materialize this st in
  (address st1 !! this, st1).

Definition getElementPointer (this : Var) (index : Value) (st : State)
  : option Value * State :=
  let '(base, st1) := getBaseAddress this st in
  match base with
  | Some b => let '(r, st2) := createGEP b index st1 in (Some r, st2)
  | None => (None, st1)
  end.

(** [Variable::materializeAll] and [Variable::killUnmaterialized]. *)
Definition materializeAll (st : State) : State :=
  set_unmaterialized (fun _ => ∅)
    (foldl (fun s var => materialize var s) st
           (elements (unmaterializedVariables st))).

Definition killUnmaterialized (st : State) : State :=
  set_unmaterialized (fun _ => ∅) st.

(** [Nucleus::setInsertBlock], [createBr], [createCondBr], [createRet],
    [createRetVoid]. *)
Definition setInsertBlock (basicBlock : BasicBlock) (st : State) : State :=
  let st1 := materializeAll st in
  mkState (rvalue st1) (address st1) (unmaterializedVariables st1)
          (entryBlock st1) (emitted st1) basicBlock (nextValue st1).

Definition createBr (dest : BasicBlock) (st : State) : State :=
  emit (IBr dest) (materializeAll st).

Definition createCondBr (cond : Value) (ifTrue ifFalse : BasicBlock) (st : State) : State :=
  emit (ICondBr cond ifTrue ifFalse) (materializeAll st).

Definition createRetVoid (st : State) : State :=
  emit (IRet None) (killUnmaterialized st).

Definition createRet (v : Value) (st : State) : State :=
  emit (IRet (Some v)) (killUnmaterialized st).

(** The entry points above as one alphabet, to quantify over "any
    operation of the builder". *)
Inductive Op :=
| OpCtor (x : Var)
| OpDtor (x : Var)
| OpStoreValue (x : Var) (v : Value)
| OpLoadValue (x : Var)
| OpMaterialize (x : Var)
| OpGetBaseAddress (x : Var)
| OpGetElementPointer (x : Var) (index : Value)
| OpKillUnmaterialized
| OpSetInsertBlock (b : BasicBlock)
| OpCreateBr (dest : BasicBlock)
| OpCreateCondBr (cond : Value) (ifTrue ifFalse : BasicBlock)
| OpCreateRetVoid
| OpCreateRet (v : Value).

Definition run (o : Op) (st : State) : State :=
  match o with
  | OpCtor x => Variable_ctor x st
  | OpDtor x => Variable_dtor x st
  | OpStoreValue x v => snd (storeValue x v st)
  | OpLoadValue x => snd (loadValue x st)
  | OpMaterialize x => materialize x st
  | OpGetBaseAddress x => snd (getBaseAddress x st)
  | OpGetElementPointer x i => snd (getElementPointer x i st)
  | OpKillUnmaterialized => killUnmaterialized st
  | OpSetInsertBlock b => setInsertBlock b st
  | OpCreateBr d => createBr d st
  | OpCreateCondBr c t f => createCondBr c t f st
  | OpCreateRetVoid => createRetVoid st
  | OpCreateRet v => createRet v st
  end.

(** Address-taking of [x], or a block boundary reached while [x] is in the
    set of unmaterialized variables. *)
Definition materializes (o : Op) (x : Var) (st : State) : bool :=
  match o with
  | OpMaterialize y | OpGetBaseAddress y | OpGetElementPointer y _ =>
      bool_decide (y = x)
  | OpSetInsertBlock _ | OpCreateBr _ | OpCreateCondBr _ _ _ =>
      bool_decide (x ∈ unmaterializedVariables st)
  | _ => false
  end.

(** [x] holds the pending value [v] and has no stack slot. *)
Definition pending (x : Var) (v : Value) (st : State) : Prop :=
  address st !! x = None /\ rvalue st !! x = Some v.

(** [x] lives in slot [a], and [v] was flushed into it. *)
Definition flushed (x : Var) (v a : Value) (st : State) : Prop :=
  address st !! x = Some a /\ rvalue st !! x = None /\
  In (IAlloca a) (entryBlock st) /\ In (IStore v a) (emitted st).

(** A state to try the entry points on: variable 1 was constructed and
    nothing else happened. *)
Definition fresh_variable_state : State :=
  mkState ∅ ∅ {[1%nat]} [] [] 0%nat 0%nat.

(** ** Swizzles *)

Section Swizzle.
Context {A : Type} (undef : A).

(** [Nucleus::createShuffleVector]: the mask has one entry per lane of
    [v1]; the value built is LLVM's [shufflevector], whose lane [i] is
    element [select[i]] of the concatenation of [v1] and [v2]. *)
Definition createShuffleVector (v1 v2 : list A) (select : list Z) : list A :=
  let size := length v1 in
  map (fun k => nth (Z.to_nat k) (v1 ++ v2) undef) (firstn size select).

(** [createSwizzle4]; [select] is a [uint16_t]. *)
Definition createSwizzle4 (val : list A) (select : Z) : list A :=
  let swizzle :=
    [ Z.land (Z.shiftr select 12) 3;
      Z.land (Z.shiftr select 8) 3;
      Z.land (Z.shiftr select 4) 3;
      Z.land (Z.shiftr select 0) 3 ] in
  createShuffleVector val val swizzle.

(** [Swizzle(RValue<Float4>, uint16_t)] and its [Int4] twin. *)
Definition Swizzle (x : list A) (select : Z) : list A :=
  createSwizzle4 x select.
End Swizzle.

(** Which lane of the input the selector [s] picks for output lane [i]. *)
Definition selected_lane (s : Z) (i : nat) : nat :=
  Z.to_nat (Z.land (Z.shiftr s (12 - 4 * Z.of_nat i)) 3).

(** ** Masks and two-operand shuffles *)

Section Shuffles.
Context {A : Type} (undef : A).

(** [createMask4]: [mask] is the local array of four flags. *)
Definition createMask4 (lhs rhs : list A) (select : Z) : list A :=
  let mask := [false; false; false; false] in
  let mask := <[Z.to_nat (Z.land (Z.shiftr select 12) 3) := true]> mask in
  let mask := <[Z.to_nat (Z.land (Z.shiftr select 8) 3) := true]> mask in
  let mask := <[Z.to_nat (Z.land (Z.shiftr select 4) 3) := true]> mask in
  let mask := <[Z.to_nat (Z.land (Z.shiftr select 0) 3) := true]> mask in
  let swizzle :=
    [ if nth 0 mask false then 4 else 0;
      if nth 1 mask false then 5 else 1;
      if nth 2 mask false then 6 else 2;
      if nth 3 mask false then 7 else 3 ] in
  createShuffleVector undef lhs rhs swizzle.

(** [ShuffleLowHigh(RValue<Float4>, RValue<Float4>, uint16_t)]. *)
Definition ShuffleLowHigh (x y : list A) (imm : Z) : list A :=
  let shuffle :=
    [ Z.land (Z.shiftr imm 12) 3 + 0;
      Z.land (Z.shiftr imm 8) 3 + 0;
      Z.land (Z.shiftr imm 4) 3 + 4;
      Z.land (Z.shiftr imm 0) 3 + 4 ] in
  createShuffleVector undef x y shuffle.

(** [UnpackLow] and [UnpackHigh] on [Float4]. *)
Definition UnpackLow (x y : list A) : list A :=
  createShuffleVector undef x y [0; 4; 1; 5].

Definition UnpackHigh (x y : list A) : list A :=
  createShuffleVector undef x y [2; 6; 3; 7].
End Shuffles.

(** Whether some nibble of the selector [s] names lane [i]. *)
Definition names_lane (s : Z) (i : nat) : bool :=
  existsb (fun k => Nat.eqb (selected_lane s k) i) [0; 1; 2; 3]%nat.

(** ** Edits of the configuration: [Config::Edit] *)

Inductive ListEdit := Add | Remove | Clear.

Section ConfigEdit.
Context {T : Type} `{EqDecision T}.

(** [Config::Edit::apply(edits, list)], one edit after the other. *)
Definition applyEdit (items : list T) (edit : ListEdit * T) : list T :=
  match fst edit with
  | Add => items ++ [snd edit]
  | Remove => List.filter (fun item => negb (bool_decide (item = snd edit))) items
  | Clear => []
  end.

Definition Edit_apply_list (edits : list (ListEdit * T)) (items : list T)
  : list T :=
  foldl applyEdit items edits.

(** Whether [x] is listed after the edits, told from whether it was listed
    before: the last edit that concerns [x] decides. *)
Definition listedAfter (x : T) (edits : list (ListEdit * T)) (before : bool)
  : bool :=
  foldl (fun listed edit =>
           match fst edit with
           | Add => listed || bool_decide (snd edit = x)
           | Remove => listed && negb (bool_decide (snd edit = x))
           | Clear => false
           end) before edits.
End ConfigEdit.

(** [Config] holds an [Optimization]: a level and a list of passes.
    [edit_isNone] tells whether the edit is the object [Edit::None]. *)
Record Optimization {Level Pass : Type} := mkOptimization {
  getLevel : Level;
  getPasses : list Pass
}.
Arguments Optimization : clear implicits.

Record Edit {Level Pass : Type} := mkEdit {
  edit_isNone : bool;
  optLevelChanged : bool;
  optLevel : Level;
  optPassEdits : list (ListEdit * Pass)
}.
Arguments Edit : clear implicits.

(** [Config::Edit::apply(cfg)]. *)
Definition Edit_apply {Level Pass : Type} `{EqDecision Pass}
  (this : Edit Level Pass) (cfg : Optimization Level Pass)
  : Optimization Level Pass :=
  if edit_isNone this then cfg
  else
    let level := if optLevelChanged this then optLevel this else getLevel cfg in
    let passes := Edit_apply_list (optPassEdits this) (getPasses cfg) in
    mkOptimization Level Pass level passes.

(** ** Sequences of operations *)

(** The state [Nucleus::Nucleus] sets up: no variable yet, and an empty
    set of unmaterialized variables. *)
Definition initialState : State := mkState ∅ ∅ ∅ [] [] 0%nat 0%nat.

Definition runAll (ops : list Op) (st : State) : State :=
  foldl (fun s o => run o s) st ops.

(** No variable has both a stack slot and a pending value. *)
Definition coherent (st : State) : Prop :=
  forall x a, address st !! x = Some a -> rvalue st !! x = None.

(** [x] lives in slot [a] and has no pending value. *)
Definition settled (x : Var) (a : Value) (st : State) : Prop :=
  address st !! x = Some a /\ rvalue st !! x = None.

End Reactor.

(* ===================================================================== *)
(** * LLVM back end of Reactor: lowering helpers                          *)
(* ===================================================================== *)

Module Lowering.

(** ** Integer vectors

    A vector of [w]-bit integers is the list of its lanes, each lane the
    unsigned value of its bits, in [[0, 2^w)].  The calls of the IR builder
    that the helpers make are given the meaning the LLVM language
    reference gives the instruction built. *)

Definition wrap (w x : Z) : Z := x mod 2 ^ w.

(** The two's complement reading of a lane. *)
Definition signed (w x : Z) : Z := if x <? 2 ^ (w - 1) then x else x - 2 ^ w.

Definition inRange (w : Z) (v : list Z) : Prop :=
  Forall (fun x => 0 <= x < 2 ^ w) v.

Definition CreateSExt (w w' : Z) (v : list Z) : list Z :=
  map (fun x => wrap w' (signed w x)) v.

Definition CreateZExt (w w' : Z) (v : list Z) : list Z :=
  map (fun x => wrap w' x) v.

Definition CreateTrunc (w' : Z) (v : list Z) : list Z := map (wrap w') v.

Definition CreateAdd (w : Z) (x y : list Z) : list Z :=
  zip_with (fun a b => wrap w (a + b)) x y.

Definition CreateSub (w : Z) (x y : list Z) : list Z :=
  zip_with (fun a b => wrap w (a - b)) x y.

Definition CreateMul (w : Z) (x y : list Z) : list Z :=
  zip_with (fun a b => wrap w (a * b)) x y.

Definition CreateAnd (x y : list Z) : list Z := zip_with Z.land x y.

Definition CreateNot (w : Z) (x : list Z) : list Z :=
  map (fun a => wrap w (Z.lnot a)) x.

(** [ashr] by the same amount in every lane. *)
Definition CreateAShr (w : Z) (x : list Z) (k : Z) : list Z :=
  map (fun a => wrap w (Z.shiftr (signed w a) k)) x.

Inductive Predicate := ICMP_EQ | ICMP_SGT | ICMP_SLT.

Definition icmp (w : Z) (pred : Predicate) (a b : Z) : bool :=
  match pred with
  | ICMP_EQ => a =? b
  | ICMP_SGT => signed w b <? signed w a
  | ICMP_SLT => signed w a <? signed w b
  end.

Definition CreateICmp (w : Z) (pred : Predicate) (x y : list Z) : list bool :=
  zip_with (icmp w pred) x y.

Definition CreateSelect (c : list bool) (x y : list Z) : list Z :=
  zip_with (fun (c : bool) (ab : Z * Z) => if c then fst ab else snd ab)
           c (zip x y).

(** [shufflevector]: one lane per entry of the mask, taken from the
    concatenation of the operands. *)
Definition CreateShuffleVector (undef : Z) (v1 v2 : list Z) (mask : list nat)
  : list Z :=
  map (fun k => nth k (v1 ++ v2) undef) mask.

(** A constant in every lane ([ConstantInt::get] on a vector type). *)
Definition splat (w : Z) (n : nat) (c : Z) : list Z := repeat (wrap w c) n.

(** ** The helpers *)

(** [lowerPMINMAX]. *)
Definition lowerPMINMAX (w : Z) (x y : list Z) (pred : Predicate) : list Z :=
  CreateSelect (CreateICmp w pred x y) x y.

(** [lowerPCMP]: the [i1] lanes of the comparison, sign extended. *)
Definition lowerPCMP (w : Z) (pred : Predicate) (x y : list Z) : list Z :=
  CreateSExt 1 w (map Z.b2z (CreateICmp w pred x y)).

(** [lowerPMOV]: the first lanes of [op], as many as the destination
    type has, extended to its width. *)
Definition lowerPMOV (undef : Z) (w : Z) (op : list Z) (dstLanes : nat) (w' : Z)
  (sext : bool) : list Z :=
  let mask := seq 0 dstLanes in
  let v := CreateShuffleVector undef op (repeat undef (length op)) mask in
  if sext then CreateSExt w w' v else CreateZExt w w' v.

(** [lowerVectorAShr]. *)
Definition lowerVectorAShr (w : Z) (x : list Z) (scalarY : Z) : list Z :=
  CreateAShr w x scalarY.

(** [lowerMulHigh] on lanes of [w] bits; the extended type has lanes of
    twice the width. *)
Definition lowerMulHigh (w : Z) (x y : list Z) (sext : bool) : list Z :=
  let extW := 2 * w in
  let '(extX, extY) :=
    if sext then (CreateSExt w extW x, CreateSExt w extW y)
    else (CreateZExt w extW x, CreateZExt w extW y) in
  let mult := CreateMul extW extX extY in
  let mulh := CreateAShr extW mult w in
  CreateTrunc w mulh.

(** [lowerMulAdd]: the loop collects the even and the odd lane numbers. *)
Fixpoint evenOdd (count : nat) (i : nat) : list nat * list nat :=
  match count with
  | O => ([], [])
  | S count' =>
    let '(evenIdx, oddIdx) := evenOdd count' (i + 2) in
    (i :: evenIdx, (i + 1)%nat :: oddIdx)
  end.

Definition lowerMulAdd (undef : Z) (w : Z) (x y : list Z) : list Z :=
  let extW := 2 * w in
  let extX := CreateSExt w extW x in
  let extY := CreateSExt w extW y in
  let mult := CreateMul extW extX extY in
  let n := length x in
  let '(evenIdx, oddIdx) := evenOdd (Nat.div2 (n + 1)) 0 in
  let undefV := repeat undef (length mult) in
  let lhs := CreateShuffleVector undef mult undefV evenIdx in
  let rhs := CreateShuffleVector undef mult undefV oddIdx in
  CreateAdd extW lhs rhs.

(** [lowerPack] on lanes of [w] bits; the truncated type has lanes of half
    the width.  The bounds are constants of the source type. *)
Definition lowerPack (undef : Z) (w : Z) (x y : list Z) (isSigned : bool)
  : list Z :=
  let truncNumBits := w / 2 in
  let n := length x in
  let '(max, min) :=
    if isSigned
    then (splat w n (Z.shiftl 1 (truncNumBits - 1) - 1),
          splat w n (Z.shiftl (-1) (truncNumBits - 1)))
    else (splat w n (Z.shiftl 1 truncNumBits - 1), splat w n 0) in
  let x := lowerPMINMAX w x min ICMP_SGT in
  let x := lowerPMINMAX w x max ICMP_SLT in
  let y := lowerPMINMAX w y min ICMP_SGT in
  let y := lowerPMINMAX w y max ICMP_SLT in
  let x := CreateTrunc truncNumBits x in
  let y := CreateTrunc truncNumBits y in
  let index := seq 0 (n * 2) in
  CreateShuffleVector undef x y index.

(** [lowerSignMask]; [retW] is the width of the integer returned. *)
Definition lowerSignMask (w : Z) (x : list Z) (retW : Z) : Z :=
  let zero := splat w (length x) 0 in
  let cmp := CreateICmp w ICMP_SLT x zero in
  let ret := wrap retW (Z.b2z (nth 0 cmp false)) in
  foldl (fun ret i =>
           let elem := wrap retW (Z.b2z (nth i cmp false)) in
           Z.lor ret (wrap retW (Z.shiftl elem (Z.of_nat i))))
        ret (seq 1 (length x - 1)).

(** ** Saturation, after its usual definition *)

Definition clamp (lo hi x : Z) : Z := Z.max lo (Z.min hi x).

(** The sums of the lanes taken two by two. *)
Fixpoint sumPairs (l : list Z) : list Z :=
  match l with
  | a :: b :: rest => (a + b) :: sumPairs rest
  | _ => []
  end.

(** ** Packing two [Short4] *)

(** A bit cast of byte lanes to lanes of four bytes keeps the bytes in
    their order: lane [k] is made of the bytes [4k .. 4k+3]. *)
Fixpoint chunks4 {A : Type} (l : list A) : list (list A) :=
  match l with
  | a :: b :: c :: d :: rest => [a; b; c; d] :: chunks4 rest
  | _ => []
  end.

(** [PackSigned(RValue<Short4>, RValue<Short4>)] and [PackUnsigned], on
    the path through [lowerPack]: the result is viewed as an [Int4],
    swizzled, and viewed as bytes again. *)
Definition Pack_Short4 (undef : Z) (x y : list Z) (isSigned : bool) : list Z :=
  let result := lowerPack undef 16 x y isSigned in
  concat (Reactor.Swizzle [] (chunks4 result) 0x0202).

(** ** Widening constructors and the x86 pack instructions *)

(** A bit cast to lanes of twice the width, on the little-endian targets
    the back end supports: the lane with the lower number holds the low
    half. *)
Fixpoint bitcastPairs (w : Z) (l : list Z) : list Z :=
  match l with
  | lo :: hi :: rest => (lo + 2 ^ w * hi) :: bitcastPairs w rest
  | _ => []
  end.

(** [x86::pmovsxwd] and [x86::pmovzxwd]. *)
Definition pmovsxwd (undef : Z) (x : list Z) : list Z :=
  lowerPMOV undef 16 x 4 32 true.

Definition pmovzxwd (undef : Z) (x : list Z) : list Z :=
  lowerPMOV undef 16 x 4 32 false.

(** [Int4::Int4(RValue<Short4>)]; a [Short4] lives in the low four lanes
    of eight.  [>>] on [Int4] is an arithmetic shift ([psrad] or
    [lowerVectorAShr]). *)
Definition Int4_of_Short4 (undef : Z) (hasSSE41 : bool) (cast : list Z)
  : list Z :=
  if hasSSE41 then pmovsxwd undef cast
  else
    let swizzle := [0; 0; 1; 1; 2; 2; 3; 3] in
    let c := Reactor.createShuffleVector undef cast cast swizzle in
    lowerVectorAShr 32 (bitcastPairs 16 c) 16.

(** [Int4::Int4(RValue<UShort4>)]. *)
Definition Int4_of_UShort4 (undef : Z) (hasSSE41 : bool) (cast : list Z)
  : list Z :=
  if hasSSE41 then pmovzxwd undef cast
  else
    let swizzle := [0; 8; 1; 9; 2; 10; 3; 11] in
    let c := Reactor.createShuffleVector undef cast (splat 16 8 0) swizzle in
    bitcastPairs 16 c.

(** The instructions behind [x86_sse2_packssdw_128] and
    [x86_sse41_packusdw], as the instruction set reference defines them:
    the lanes of both operands, read as signed, saturated to the signed,
    respectively unsigned, 16-bit range. *)
Definition x86_sse2_packssdw_128 (x y : list Z) : list Z :=
  map (fun a => wrap 16 (clamp (-32768) 32767 (signed 32 a))) (x ++ y).

Definition x86_sse41_packusdw (x y : list Z) : list Z :=
  map (fun a => clamp 0 65535 (signed 32 a)) (x ++ y).

(** [x86::packssdw] and [x86::packusdw]. *)
Definition packssdw (x y : list Z) : list Z := x86_sse2_packssdw_128 x y.

Definition packusdw (hasSSE41 : bool) (x y : list Z) : list Z :=
  if hasSSE41 then x86_sse41_packusdw x y
  else
    let bx := CreateSub 32 (CreateAnd x (CreateNot 32 (CreateAShr 32 x 31)))
                (splat 32 4 0x8000) in
    let by' := CreateSub 32 (CreateAnd y (CreateNot 32 (CreateAShr 32 y 31)))
                 (splat 32 4 0x8000) in
    CreateAdd 16 (packssdw bx by') (splat 16 8 0x8000).

End Lowering.

(* ===================================================================== *)
(** * ValidateLimitations: loops and indexing                             *)
(* ===================================================================== *)

Module Limitations.

(** The members of [TBasicType], [TQualifier] and [TOperator] that the
    validator tells apart; the remaining members are numbered. *)
Inductive TBasicType :=
| EbtVoid | EbtFloat | EbtInt | EbtUInt | EbtBool | EbtOtherType (n : nat).

Inductive TQualifier :=
| EvqTemporary | EvqGlobal | EvqConstExpr | EvqAttribute | EvqUniform
| EvqIn | EvqOut | EvqInOut | EvqOtherQualifier (n : nat).

Inductive TOperator :=
| EOpNull | EOpFunctionCall | EOpDeclaration | EOpInitialize
| EOpIndexDirect | EOpIndexIndirect
| EOpEqual | EOpNotEqual | EOpLessThan | EOpGreaterThan
| EOpLessThanEqual | EOpGreaterThanEqual
| EOpPostIncrement | EOpPostDecrement | EOpPreIncrement | EOpPreDecrement
| EOpAddAssign | EOpSubAssign
| EOpOtherOperator (n : nat).

Inductive TLoopType := ELoopFor | ELoopWhile | ELoopDoWhile.

Definition TSourceLoc := Z.

(** What a typed node knows of its [TType]: basic type, qualifier, and
    whether it is a scalar. *)
Record TType := mkType {
  basicType : TBasicType;
  qualifier : TQualifier;
  scalar : bool
}.

(** The intermediate tree.  A child pointer that may be null is an
    [option]. *)
#[local] Unset Elimination Schemes.
Inductive TIntermNode :=
| TIntermSymbol (line : TSourceLoc) (id : Z) (symbol : string) (type : TType)
| TIntermConstantUnion (line : TSourceLoc) (type : TType)
| TIntermUnary (line : TSourceLoc) (op : TOperator) (type : TType)
               (operand : TIntermNode)
| TIntermBinary (line : TSourceLoc) (op : TOperator) (type : TType)
                (left right : TIntermNode)
| TIntermSelection (line : TSourceLoc) (type : TType) (condition : TIntermNode)
                   (trueBlock falseBlock : option TIntermNode)
| TIntermAggregate (line : TSourceLoc) (op : TOperator) (type : TType)
                   (name : string) (sequence : list TIntermNode)
| TIntermLoop (line : TSourceLoc) (type : TLoopType)
              (init cond expr body : option TIntermNode)
| TIntermBranch (line : TSourceLoc) (expression : option TIntermNode).
#[local] Set Elimination Schemes.

Definition getLine (n : TIntermNode) : TSourceLoc :=
  match n with
  | TIntermSymbol l _ _ _ | TIntermConstantUnion l _ | TIntermUnary l _ _ _
  | TIntermBinary l _ _ _ _ | TIntermSelection l _ _ _ _
  | TIntermAggregate l _ _ _ _ | TIntermLoop l _ _ _ _ _ | TIntermBranch l _ => l
  end.

Definition voidType : TType := mkType EbtVoid EvqTemporary false.

(** [TIntermTyped::getType]; loops and branches are not typed nodes. *)
Definition getType (n : TIntermNode) : TType :=
  match n with
  | TIntermSymbol _ _ _ t | TIntermConstantUnion _ t | TIntermUnary _ _ t _
  | TIntermBinary _ _ t _ _ | TIntermSelection _ t _ _ _
  | TIntermAggregate _ _ t _ _ => t
  | TIntermLoop _ _ _ _ _ _ | TIntermBranch _ _ => voidType
  end.

Definition getQualifier (n : TIntermNode) : TQualifier := qualifier (getType n).

(** [IsInteger] of BaseTypes.h. *)
Definition IsInteger (t : TBasicType) : bool :=
  match t with EbtInt | EbtUInt => true | _ => false end.

Definition isFloat (t : TBasicType) : bool :=
  match t with EbtFloat => true | _ => false end.

(** Modelled from the spec: [TType::isScalarInt], declared in a header that
    is not at hand; a scalar of integral basic type. *)
Definition isScalarInt (n : TIntermNode) : bool :=
  scalar (getType n) && IsInteger (basicType (getType n)).

(** What [error] prints as the offending token. *)
Inductive ErrToken :=
| TokText (s : string)
| TokBasicString (t : TBasicType)
| TokOperatorString (op : TOperator)
| TokCompleteString (t : TType).

Record ErrorMsg := mkError {
  errLoc : TSourceLoc;
  errReason : string;
  errToken : ErrToken
}.

(** [ValidateLimitations::error] appends one message to the sink and
    increments [mNumErrors]; a function below returns the messages it
    reported, in order. *)
Definition error (loc : TSourceLoc) (reason : string) (token : ErrToken)
  : list ErrorMsg := [mkError loc reason token].

Record TLoopInfo := mkLoopInfo { index_id : Z }.
Definition TLoopStack := list TLoopInfo.

Definition GL_VERTEX_SHADER : Z := 0x8B31.
Definition GL_FRAGMENT_SHADER : Z := 0x8B30.

(** [IsLoopIndex] on the id of the symbol. *)
Fixpoint IsLoopIndex (symbolId : Z) (stack : TLoopStack) : bool :=
  match stack with
  | [] => false
  | i :: rest => if Z.eqb (index_id i) symbolId then true
                 else IsLoopIndex symbolId rest
  end.

(** [ValidateLimitations::isConstExpr]. *)
Definition isConstExpr (node : TIntermNode) : bool :=
  match node with TIntermConstantUnion _ _ => true | _ => false end.

(** [validateLoopType]. *)
Definition validateLoopType (line : TSourceLoc) (type : TLoopType)
  : bool * list ErrorMsg :=
  match type with
  | ELoopFor => (true, [])
  | _ => (false, error line "This type of loop is not allowed"
                   (TokText (match type with ELoopWhile => "while" | _ => "do" end)))
  end.

(** [validateForLoopInit]; [Some id] is a [true] result with
    [info->index.id] set to [id]. *)
Definition validateForLoopInit (line : TSourceLoc) (init : option TIntermNode)
  : option Z * list ErrorMsg :=
  match init with
  | None => (None, error line "Missing init declaration" (TokText "for"))
  | Some init =>
    match init with
    | TIntermAggregate declLine EOpDeclaration _ _ declSeq =>
      match declSeq with
      | [declInit] =>
        match declInit with
        | TIntermBinary initLine EOpInitialize _ lhs rhs =>
          match lhs with
          | TIntermSymbol symLine id name ty =>
            let type := basicType ty in
            if negb (IsInteger type) && negb (isFloat type) then
              (None, error symLine "Invalid type for loop index" (TokBasicString type))
            else if negb (isConstExpr rhs) then
              (None, error initLine
                 "Loop index cannot be initialized with non-constant expression"
                 (TokText name))
            else (Some id, [])
          | _ => (None, error initLine "Invalid init declaration" (TokText "for"))
          end
        | _ => (None, error declLine "Invalid init declaration" (TokText "for"))
        end
      | _ => (None, error declLine "Invalid init declaration" (TokText "for"))
      end
    | _ => (None, error (getLine init) "Invalid init declaration" (TokText "for"))
    end
  end.

Definition isRelational (op : TOperator) : bool :=
  match op with
  | EOpEqual | EOpNotEqual | EOpLessThan | EOpGreaterThan
  | EOpLessThanEqual | EOpGreaterThanEqual => true
  | _ => false
  end.

(** [validateForLoopCond]. *)
Definition validateForLoopCond (line : TSourceLoc) (cond : option TIntermNode)
  (info : TLoopInfo) : bool * list ErrorMsg :=
  match cond with
  | None => (false, error line "Missing condition" (TokText "for"))
  | Some cond =>
    match cond with
    | TIntermBinary binLine op _ lhs rhs =>
      match lhs with
      | TIntermSymbol symLine id name _ =>
        if negb (Z.eqb id (index_id info)) then
          (false, error symLine "Expected loop index" (TokText name))
        else
          let e1 := if isRelational op then []
                    else error binLine "Invalid relational operator"
                           (TokOperatorString op) in
          if negb (isConstExpr rhs) then
            (false, e1 ++ error binLine
               "Loop index cannot be compared with non-constant expression"
               (TokText name))
          else (true, e1)
      | _ => (false, error binLine "Invalid condition" (TokText "for"))
      end
    | _ => (false, error line "Invalid condition" (TokText "for"))
    end
  end.

Definition isIncDec (op : TOperator) : bool :=
  match op with
  | EOpPostIncrement | EOpPostDecrement | EOpPreIncrement | EOpPreDecrement => true
  | _ => false
  end.

Definition isAddSubAssign (op : TOperator) : bool :=
  match op with EOpAddAssign | EOpSubAssign => true | _ => false end.

(** [validateForLoopExpr].  [unOp], [binOp], [op] and [symbol] are the
    locals of the source; a node that is neither unary nor binary leaves
    [symbol] null. *)
Definition validateForLoopExpr (line : TSourceLoc) (expr : option TIntermNode)
  (info : TLoopInfo) : bool * list ErrorMsg :=
  match expr with
  | None => (false, error line "Missing expression" (TokText "for"))
  | Some expr =>
    let unOp := match expr with TIntermUnary _ _ _ _ => Some expr | _ => None end in
    let binOp := match unOp with
                 | Some _ => None
                 | None => match expr with
                           | TIntermBinary _ _ _ _ _ => Some expr
                           | _ => None
                           end
                 end in
    let '(op, symbol) :=
      match expr with
      | TIntermUnary _ o _ operand => (o, Some operand)
      | TIntermBinary _ o _ lhs _ => (o, Some lhs)
      | _ => (EOpNull, None)
      end in
    match symbol with
    | Some (TIntermSymbol symLine id name _) =>
      if negb (Z.eqb id (index_id info)) then
        (false, error symLine "Expected loop index" (TokText name))
      else if negb (isIncDec op || isAddSubAssign op) then
        (false, error (getLine expr) "Invalid operator" (TokOperatorString op))
      else
        match binOp with
        | Some (TIntermBinary binLine _ _ _ rhs) =>
          if negb (isConstExpr rhs) then
            (false, error binLine
               "Loop index cannot be modified by non-constant expression"
               (TokText name))
          else (true, [])
        | _ => (true, [])
        end
    | _ => (false, error (getLine expr) "Invalid expression" (TokText "for"))
    end
  end.

(** [validateForLoopHeader]; on success the loop info with its index. *)
Definition validateForLoopHeader (line : TSourceLoc)
  (init cond expr : option TIntermNode) : option TLoopInfo * list ErrorMsg :=
  match validateForLoopInit line init with
  | (None, e1) => (None, e1)
  | (Some id, e1) =>
    let info := mkLoopInfo id in
    match validateForLoopCond line cond info with
    | (false, e2) => (None, e1 ++ e2)
    | (true, e2) =>
      match validateForLoopExpr line expr info with
      | (false, e3) => (None, e1 ++ e2 ++ e3)
      | (true, e3) => (Some info, e1 ++ e2 ++ e3)
      end
    end
  end.

Section Visitor.
(** The traversal of the loop body by the validator itself,
    [body->traverse(this)], is driven by [TIntermTraverser], whose
    source is not at hand: it is a parameter, given the loop stack in
    force and the body, and returning what it reports. *)
Variable traverseBody : TLoopStack -> TIntermNode -> list ErrorMsg.

(** [visitLoop]: the result is always [false] (children are not visited
    again); what matters is what reaches the sink. *)
Definition visitLoop (mLoopStack : TLoopStack) (node : TIntermNode)
  : bool * list ErrorMsg :=
  match node with
  | TIntermLoop line type init cond expr body =>
    match validateLoopType line type with
    | (false, e0) => (false, e0)
    | (true, e0) =>
      match validateForLoopHeader line init cond expr with
      | (None, e1) => (false, e0 ++ e1)
      | (Some info, e1) =>
        match body with
        | Some b => (false, e0 ++ e1 ++ traverseBody (mLoopStack ++ [info]) b)
        | None => (false, e0 ++ e1)
        end
      end
    end
  | _ => (false, [])
  end.
End Visitor.

(** Modelled from the spec: [TIntermNode::traverse] with a traverser that
    only overrides [visitSymbol] (the spec's "walked by a visitor") reaches
    every symbol below the node; these are the symbols, left to right. *)
Fixpoint symbolsOf (n : TIntermNode) : list (Z * TType) :=
  let opt (o : option TIntermNode) :=
    match o with Some c => symbolsOf c | None => [] end in
  match n with
  | TIntermSymbol _ id _ t => [(id, t)]
  | TIntermConstantUnion _ _ => []
  | TIntermUnary _ _ _ operand => symbolsOf operand
  | TIntermBinary _ _ _ l r => symbolsOf l ++ symbolsOf r
  | TIntermSelection _ _ c t f => symbolsOf c ++ opt t ++ opt f
  | TIntermAggregate _ _ _ _ seq => flat_map symbolsOf seq
  | TIntermLoop _ _ i c e b => opt i ++ opt c ++ opt e ++ opt b
  | TIntermBranch _ e => opt e
  end.

(** [ValidateConstIndexExpr::visitSymbol] applied to [mValid]. *)
Definition ValidateConstIndexExpr_visitSymbol (stack : TLoopStack)
  (mValid : bool) (sym : Z * TType) : bool :=
  if mValid then
    match qualifier (snd sym) with
    | EvqConstExpr => true
    | _ => IsLoopIndex (fst sym) stack
    end
  else mValid.

(** [isConstIndexExpr]: [mValid] starts [true] and is updated at every
    symbol. *)
Definition isConstIndexExpr (mLoopStack : TLoopStack) (node : TIntermNode) : bool :=
  foldl (ValidateConstIndexExpr_visitSymbol mLoopStack) true (symbolsOf node).

(** [validateIndexing] for the node [left[right]]. *)
Definition validateIndexing (mShaderType : Z) (mLoopStack : TLoopStack)
  (lhs rhs : TIntermNode) : bool * list ErrorMsg :=
  let index := rhs in
  let '(valid1, e1) :=
    if negb (isScalarInt index) then
      (false, error (getLine index) "Index expression must have integral type"
                (TokCompleteString (getType index)))
    else (true, []) in
  let operand := lhs in
  let skip := Z.eqb mShaderType GL_VERTEX_SHADER &&
              match getQualifier operand with EvqUniform => true | _ => false end in
  if negb skip && negb (isConstIndexExpr mLoopStack index) then
    (false, e1 ++ error (getLine index) "Index expression must be constant"
                    (TokText "[]"))
  else (valid1, e1).

(** ** The accepted loop form

    [for(T idx = C; idx ⊙ C'; step) body] with [⊙] one of the six
    comparisons, [step] one of [++idx], [--idx], [idx++], [idx--],
    [idx += C], [idx -= C], and [C], [C'] constant.  In
    [canonicalForLoop] the index type [T] is any type whose basic type
    is int, uint or float, a vector or a matrix as well as a scalar:
    that is what [validateForLoopInit] tests.  The form in the words of
    the specification, with [T] one of int, uint, float, is
    [specifiedForLoop] below. *)
Definition isIndexType (t : TBasicType) : Prop :=
  t = EbtInt \/ t = EbtUInt \/ t = EbtFloat.

Inductive constantExpression : TIntermNode -> Prop :=
| constant_union line ty : constantExpression (TIntermConstantUnion line ty).

Inductive canonicalStep (idx : Z) : TIntermNode -> Prop :=
| step_incdec line op ty symLine name symTy :
    In op [EOpPreIncrement; EOpPreDecrement; EOpPostIncrement; EOpPostDecrement] ->
    canonicalStep idx (TIntermUnary line op ty (TIntermSymbol symLine idx name symTy))
| step_assign line op ty symLine name symTy c :
    In op [EOpAddAssign; EOpSubAssign] ->
    constantExpression c ->
    canonicalStep idx
      (TIntermBinary line op ty (TIntermSymbol symLine idx name symTy) c).

Inductive canonicalForLoop : TIntermNode -> Prop :=
| canonical_for line declLine declTy declName initLine initTy
    symLine idx name symTy c condLine relop condTy cSymLine cName cSymTy c'
    step body :
    isIndexType (basicType symTy) ->
    constantExpression c ->
    In relop [EOpLessThan; EOpLessThanEqual; EOpGreaterThan;
              EOpGreaterThanEqual; EOpEqual; EOpNotEqual] ->
    constantExpression c' ->
    canonicalStep idx step ->
    canonicalForLoop
      (TIntermLoop line ELoopFor
         (Some (TIntermAggregate declLine EOpDeclaration declTy declName
            [TIntermBinary initLine EOpInitialize initTy
               (TIntermSymbol symLine idx name symTy) c]))
         (Some (TIntermBinary condLine relop condTy
            (TIntermSymbol cSymLine idx cName cSymTy) c'))
         (Some step) body).

(** The type of the index a loop declares. *)
Definition loopIndexType (node : TIntermNode) : option TType :=
  match node with
  | TIntermLoop _ _
      (Some (TIntermAggregate _ _ _ _
               [TIntermBinary _ _ _ (TIntermSymbol _ _ _ symTy) _])) _ _ _ =>
    Some symTy
  | _ => None
  end.

(** The form as the specification words it: the index is an int, a uint
    or a float, so a scalar. *)
Definition specifiedForLoop (node : TIntermNode) : Prop :=
  canonicalForLoop node /\
  exists symTy, loopIndexType node = Some symTy /\ scalar symTy = true.

(** What the two [ASSERT]s of [validateForLoopExpr] state about the tree:
    an increment or decrement operator sits on a unary node, [+=] and [-=]
    on a binary one. *)
Definition stepArityAsserted (expr : option TIntermNode) : Prop :=
  match expr with
  | Some (TIntermUnary _ op _ _) => isAddSubAssign op = false
  | Some (TIntermBinary _ op _ _ _) => isIncDec op = false
  | _ => True
  end.

(** A symbol the index validator objects to. *)
Definition notConstIndexSymbol (stack : TLoopStack) (sym : Z * TType) : Prop :=
  qualifier (snd sym) <> EvqConstExpr /\ IsLoopIndex (fst sym) stack = false.

(** The test [visitSymbol] applies, as a predicate on one symbol. *)
Definition acceptsSymbol (stack : TLoopStack) (sym : Z * TType) : bool :=
  match qualifier (snd sym) with
  | EvqConstExpr => true
  | _ => IsLoopIndex (fst sym) stack
  end.

Definition constIndexError (index : TIntermNode) : ErrorMsg :=
  mkError (getLine index) "Index expression must be constant" (TokText "[]").

(** The indexing rule as stated without exception: whatever the shader
    type and the operand, an index holding such a symbol is reported. *)
Definition indexingRejectedEverywhere : Prop :=
  forall (shaderType : Z) (stack : TLoopStack) (operand index : TIntermNode),
    (exists sym, In sym (symbolsOf index) /\ notConstIndexSymbol stack sym) ->
    snd (validateIndexing shaderType stack operand index) <> [].

(** Trees to try the validator on. *)
Definition intTemp : TType := mkType EbtInt EvqTemporary true.
Definition intLiteral : TType := mkType EbtInt EvqConstExpr true.
Definition floatUniformArray : TType := mkType EbtFloat EvqUniform false.
Definition floatTemp : TType := mkType EbtFloat EvqTemporary true.

(** [for(int i = 0; i < 4; ++i) ;] with [i] of id 7 *)
Definition sampleFor : TIntermNode :=
  TIntermLoop 1 ELoopFor
    (Some (TIntermAggregate 1 EOpDeclaration intTemp EmptyString
       [TIntermBinary 1 EOpInitialize intTemp
          (TIntermSymbol 1 7 "i" intTemp) (TIntermConstantUnion 1 intLiteral)]))
    (Some (TIntermBinary 1 EOpLessThan (mkType EbtBool EvqTemporary true)
       (TIntermSymbol 1 7 "i" intTemp) (TIntermConstantUnion 1 intLiteral)))
    (Some (TIntermUnary 1 EOpPreIncrement intTemp (TIntermSymbol 1 7 "i" intTemp)))
    None.

(** [for(vec2 i = vec2(0.); i != vec2(4.); i += vec2(1.)) ;] with [i]
    of id 7; the constructors of constants are constant unions. *)
Definition vec2Temp : TType := mkType EbtFloat EvqTemporary false.
Definition vec2Literal : TType := mkType EbtFloat EvqConstExpr false.

Definition vectorIndexFor : TIntermNode :=
  TIntermLoop 1 ELoopFor
    (Some (TIntermAggregate 1 EOpDeclaration vec2Temp EmptyString
       [TIntermBinary 1 EOpInitialize vec2Temp
          (TIntermSymbol 1 7 "i" vec2Temp) (TIntermConstantUnion 1 vec2Literal)]))
    (Some (TIntermBinary 1 EOpNotEqual (mkType EbtBool EvqTemporary true)
       (TIntermSymbol 1 7 "i" vec2Temp) (TIntermConstantUnion 1 vec2Literal)))
    (Some (TIntermBinary 1 EOpAddAssign vec2Temp
       (TIntermSymbol 1 7 "i" vec2Temp) (TIntermConstantUnion 1 vec2Literal)))
    None.

(** [u[k]] with [u] a uniform array and [k] an ordinary int variable of id 9 *)
Definition uniformArray : TIntermNode := TIntermSymbol 3 5 "u" floatUniformArray.
Definition localArray : TIntermNode :=
  TIntermSymbol 3 6 "a" (mkType EbtFloat EvqTemporary false).
Definition variableIndex : TIntermNode := TIntermSymbol 3 9 "k" intTemp.

(** [ValidateLimitations::withinLoopBody]. *)
Definition withinLoopBody (mLoopStack : TLoopStack) : bool :=
  negb (match mLoopStack with [] => true | _ => false end).

Definition outArgumentReason : string :=
  "Loop index cannot be used as argument to a function out or inout parameter".

Section Calls.
(** The qualifier of a parameter of the function of a given name, as
    [symbolTable.find] and [TFunction::getParam] hand it out; the
    symbol table is not at hand, and is a parameter. *)
Variable paramQualifier : string -> nat -> TQualifier.

(** The first loop of [validateFunctionCall]: [pIndex], the positions of
    the arguments that are loop indices, counted from [i]. *)
Fixpoint loopIndexArguments (mLoopStack : TLoopStack)
  (params : list TIntermNode) (i : nat) : list nat :=
  match params with
  | [] => []
  | param :: rest =>
    let pIndex := loopIndexArguments mLoopStack rest (S i) in
    match param with
    | TIntermSymbol _ id _ _ =>
      if IsLoopIndex id mLoopStack then i :: pIndex else pIndex
    | _ => pIndex
    end
  end.

(** One turn of the second loop, on [valid] and the messages so far.
    Every position of [pIndex] holds a symbol; the source does not look
    at anything else there. *)
Definition checkArgument (name : string) (params : list TIntermNode)
  (state : bool * list ErrorMsg) (i : nat) : bool * list ErrorMsg :=
  match paramQualifier name i with
  | EvqOut | EvqInOut =>
    match params !! i with
    | Some (TIntermSymbol line _ symbol _) =>
      (false, snd state ++ error line outArgumentReason (TokText symbol))
    | _ => state
    end
  | _ => state
  end.

(** [validateFunctionCall]. *)
Definition validateFunctionCall (mLoopStack : TLoopStack) (node : TIntermNode)
  : bool * list ErrorMsg :=
  match node with
  | TIntermAggregate _ _ _ name params =>
    if negb (withinLoopBody mLoopStack) then (true, [])
    else
      match loopIndexArguments mLoopStack params 0 with
      | [] => (true, [])
      | pIndex => foldl (checkArgument name params) (true, []) pIndex
      end
  | _ => (true, [])
  end.

(** [visitAggregate]: the result is always [true]; what matters is what
    reaches the sink. *)
Definition visitAggregate (mLoopStack : TLoopStack) (node : TIntermNode)
  : bool * list ErrorMsg :=
  match node with
  | TIntermAggregate _ EOpFunctionCall _ _ _ =>
    (true, snd (validateFunctionCall mLoopStack node))
  | _ => (true, [])
  end.

(** What there is to say about the argument at one position: a message
    when it is a loop index handed to an [out] or [inout] parameter. *)
Definition outArgumentError (mLoopStack : TLoopStack) (name : string)
  (arg : nat * TIntermNode) : option ErrorMsg :=
  match snd arg with
  | TIntermSymbol line id symbol _ =>
    if IsLoopIndex id mLoopStack &&
       match paramQualifier name (fst arg) with
       | EvqOut | EvqInOut => true
       | _ => false
       end
    then Some (mkError line outArgumentReason (TokText symbol))
    else None
  | _ => None
  end.
End Calls.

(** [f(i, k)] with [i] of id 7 and [k] of id 9. *)
Definition sampleCall : TIntermNode :=
  TIntermAggregate 5 EOpFunctionCall voidType "f"
    [TIntermSymbol 5 7 "i" intTemp; TIntermSymbol 5 9 "k" intTemp].

End Limitations.

(* ===================================================================== *)
(** * Preprocessor input: [pp::Input]                                     *)
(* ===================================================================== *)

Module PPInput.

Definition INT_MAX : Z := 2147483647.

(** [size_t] is 64 bits wide; only the subtraction in [read] can wrap. *)
Definition size_t (z : Z) : Z := z mod 2 ^ 64.

Definition backslash : ascii := "\"%char.
Definition newline : ascii := "010"%char.
Definition carriage_return : ascii := "013"%char.
Definition NUL : ascii := "000"%char.

(** A source string is the sequence of its characters; the terminating
    NUL is what is read just past the end. *)
Definition charAt (str : list ascii) (i : Z) : ascii :=
  if i <? 0 then NUL else nth (Z.to_nat i) str NUL.

Fixpoint strlen (str : list ascii) : Z :=
  match str with
  | [] => 0
  | c :: rest => if Ascii.eqb c NUL then 0 else 1 + strlen rest
  end.

Record Location := mkLocation { sIndex : Z; cIndex : Z }.

Record Input := mkInput {
  mCount : Z;
  mString : list (list ascii);
  mLength : list Z;
  mReadLoc : Location
}.

Definition stringAt (this : Input) (s : Z) : list ascii :=
  nth (Z.to_nat s) (mString this) [].

Definition lengthAt (this : Input) (s : Z) : Z :=
  nth (Z.to_nat s) (mLength this) 0.

(** [Input::Input(count, string, length)]: a null [length] array, or a
    negative entry, means the string is NUL terminated. *)
Definition Input_ctor (count : Z) (string : list (list ascii))
  (length : option (list Z)) : Input :=
  mkInput count string
    (map (fun i =>
            let len := match length with
                       | Some l => nth i l (-1)
                       | None => -1
                       end in
            if len <? 0 then strlen (nth i string []) else len)
         (seq 0 (Z.to_nat count)))
    (mkLocation 0 0).

Definition set_loc (this : Input) (s c : Z) : Input :=
  mkInput (mCount this) (mString this) (mLength this) (mkLocation s c).

(** The character a pointer [mString[s] + c] points at. *)
Definition deref (this : Input) (loc : Location) : ascii :=
  charAt (stringAt this (sIndex loc)) (cIndex loc).

(** [Input::skipChar]; the result is the pointer returned, [None] for
    [nullptr].  This is what the function does past its [assert]; the
    condition asserted on entry is [skipChar_asserted] below, and where
    it fails the program stops. *)
Definition skipChar (this : Input) : option Location * Input :=
  let s := sIndex (mReadLoc this) in
  let c := cIndex (mReadLoc this) + 1 in
  let '(s, c) := if c =? lengthAt this s then (s + 1, 0) else (s, c) in
  let this := set_loc this s c in
  if mCount this <=? s then (None, this)
  else (Some (mkLocation s c), this).

(** The [assert] at the head of [skipChar]: there is a character to
    skip. *)
Definition skipChar_asserted (this : Input) : bool :=
  cIndex (mReadLoc this) <? lengthAt this (sIndex (mReadLoc this)).

(** The [for] loop of [read] looking for a backslash among the next
    [size] characters: on a hit [size] becomes its offset and [maxRead]
    the count read so far plus that offset.  [n] bounds the iterations. *)
Fixpoint scanBackslash (n : nat) (str : list ascii) (cIdx i size nRead maxRead : Z)
  : Z * Z :=
  match n with
  | O => (size, maxRead)
  | S n' =>
    if i <? size then
      if Ascii.eqb (charAt str (cIdx + i)) backslash
      then scanBackslash n' str cIdx (i + 1) i nRead (nRead + i)
      else scanBackslash n' str cIdx (i + 1) size nRead maxRead
    else (size, maxRead)
  end.

(** [memcpy(buf + nRead, mString[s] + c, size)]; [buf] is kept as the
    characters written so far, so the copy appends. *)
Definition memcpy (buf : list ascii) (str : list ascii) (cIdx size : Z)
  : list ascii :=
  buf ++ firstn (Z.to_nat size) (skipn (Z.to_nat cIdx) str).

(** The [while] loop of [read]; [None] when the fuel runs out. *)
Fixpoint readLoop (fuel : nat) (this : Input) (buf : list ascii)
  (nRead maxRead maxSize : Z) : option (Z * list ascii * Input) :=
  let s := sIndex (mReadLoc this) in
  let c := cIndex (mReadLoc this) in
  if (nRead <? maxRead) && (s <? mCount this) then
    match fuel with
    | O => None
    | S fuel' =>
      let size := size_t (lengthAt this s - c) in
      let size := Z.min size maxSize in
      let '(size, maxRead) :=
        scanBackslash (Z.to_nat size) (stringAt this s) c 0 size nRead maxRead in
      let buf := memcpy buf (stringAt this s) c size in
      let nRead := nRead + size in
      let c := c + size in
      let this := if c =? lengthAt this s then set_loc this (s + 1) 0
                  else set_loc this s c in
      readLoop fuel' this buf nRead maxRead maxSize
    end
  else Some (nRead, buf, this).

Record ReadResult := mkReadResult {
  nRead : Z;
  buf : list ascii;
  lineNo : Z;
  after : Input
}.

(** [Input::read(buf, maxSize, lineNo)].  Each pass of the [while] loop
    either leaves the current string or ends the loop, so one unit of fuel
    per source string, plus one, is provided. *)
Definition read (this : Input) (maxSize : Z) (lineNo : Z) : option ReadResult :=
  let continue (this : Input) (buf : list ascii) (nRead lineNo : Z) :=
    match readLoop (S (Z.to_nat (mCount this))) this buf nRead maxSize maxSize with
    | Some (n, b, this') => Some (mkReadResult n b lineNo this')
    | None => None
    end in
  if (sIndex (mReadLoc this) <? mCount this) && (0 <? maxSize) then
    if Ascii.eqb (deref this (mReadLoc this)) backslash then
      let '(c, this1) := skipChar this in
      match c with
      | Some p =>
        if Ascii.eqb (deref this1 p) newline then
          let '(_, this2) := skipChar this1 in
          if lineNo =? INT_MAX then Some (mkReadResult 0 [] lineNo this2)
          else continue this2 [] 0 (lineNo + 1)
        else if Ascii.eqb (deref this1 p) carriage_return then
          let '(c2, this2) := skipChar this1 in
          let this3 :=
            match c2 with
            | Some p2 => if Ascii.eqb (deref this2 p2) newline
                         then snd (skipChar this2) else this2
            | None => this2
            end in
          if lineNo =? INT_MAX then Some (mkReadResult 0 [] lineNo this3)
          else continue this3 [] 0 (lineNo + 1)
        else continue this1 [backslash] 1 lineNo
      | None => continue this1 [backslash] 1 lineNo
      end
    else continue this [] 0 lineNo
  else continue this [] 0 lineNo.

(** Whether each call of [skipChar] that one call of [read] makes
    passes its [assert]; [read] above tells what the code returns when
    they all do. *)
Definition read_asserted (this : Input) (maxSize : Z) : bool :=
  if (sIndex (mReadLoc this) <? mCount this) && (0 <? maxSize) then
    if Ascii.eqb (deref this (mReadLoc this)) backslash then
      skipChar_asserted this &&
      let '(c, this1) := skipChar this in
      match c with
      | Some p =>
        if Ascii.eqb (deref this1 p) newline then skipChar_asserted this1
        else if Ascii.eqb (deref this1 p) carriage_return then
          skipChar_asserted this1 &&
          let '(c2, this2) := skipChar this1 in
          match c2 with
          | Some p2 => if Ascii.eqb (deref this2 p2) newline
                       then skipChar_asserted this2 else true
          | None => true
          end
        else true
      | None => true
      end
    else true
  else true.

(** The character stream a reader is given: the source strings one after
    the other (each up to its length). *)
Definition sourceText (this : Input) : list ascii :=
  concat (map (fun i => firstn (Z.to_nat (lengthAt this (Z.of_nat i)))
                               (stringAt this (Z.of_nat i)))
              (seq 0 (Z.to_nat (mCount this)))).

Definition cstr (s : string) : list ascii := list_ascii_of_string s.

(** ** Line continuation, after the words of the specification

    "Collapses a backslash followed by newline, or by carriage return and
    newline, or by carriage return, into nothing while incrementing the
    logical line number": the text with the continuations taken out, and
    how many there were. *)
Fixpoint spliced (t : list ascii) : list ascii * Z :=
  match t with
  | [] => ([], 0)
  | c :: t1 =>
    if Ascii.eqb c backslash then
      match t1 with
      | [] => ([c], 0)
      | d :: t2 =>
        if Ascii.eqb d newline then
          let '(o, n) := spliced t2 in (o, n + 1)
        else if Ascii.eqb d carriage_return then
          match t2 with
          | [] => ([], 1)
          | e :: t3 =>
            if Ascii.eqb e newline
            then let '(o, n) := spliced t3 in (o, n + 1)
            else let '(o, n) := spliced t2 in (o, n + 1)
          end
        else let '(o, n) := spliced t1 in (c :: o, n)
      end
    else let '(o, n) := spliced t1 in (c :: o, n)
  end.

(** The text from the read location to the end of the last string. *)
Definition remainingText (this : Input) : list ascii :=
  let s := Z.to_nat (sIndex (mReadLoc this)) in
  skipn (Z.to_nat (cIndex (mReadLoc this))) (nth s (mString this) []) ++
  concat (skipn (S s) (mString this)).

(** An input as the constructor builds it from strings none of which is
    empty, with the read location on a character or at the very end. *)
Record wellFormed (this : Input) : Prop := mkWellFormed {
  wf_count : mCount this = Z.of_nat (length (mString this));
  wf_length : mLength this = map (fun s => Z.of_nat (length s)) (mString this);
  wf_nonempty : Forall (fun s => s <> []) (mString this);
  wf_size_t : Forall (fun s => Z.of_nat (length s) < 2 ^ 64) (mString this);
  wf_sIndex : 0 <= sIndex (mReadLoc this) <= mCount this;
  wf_cIndex :
    if sIndex (mReadLoc this) <? mCount this
    then 0 <= cIndex (mReadLoc this) < lengthAt this (sIndex (mReadLoc this))
    else cIndex (mReadLoc this) = 0
}.

(** A sequence of calls of [read], one per buffer size, the line number
    handed from each call to the next; what the calls wrote, one after the
    other. *)
Fixpoint readAll (sizes : list Z) (this : Input) (lineNo : Z)
  : option (list ascii * Z * Input) :=
  match sizes with
  | [] => Some ([], lineNo, this)
  | maxSize :: sizes' =>
    match read this maxSize lineNo with
    | Some r =>
      match readAll sizes' (after r) (PPInput.lineNo r) with
      | Some (out, l, this') => Some (buf r ++ out, l, this')
      | None => None
      end
    | None => None
    end
  end.

(** No backslash among the characters. *)
Definition noBackslash (l : list ascii) : Prop :=
  Forall (fun c => Ascii.eqb c backslash = false) l.

(** What one call of [read] delivers, in the terms of [spliced]: the
    spliced text from the read location is what the call wrote followed
    by the spliced text from where it stopped, the line number has gone up
    by the continuations passed, and the count returned is the number of
    characters written. *)
Definition delivers (this : Input) (lineNo : Z) (r : ReadResult) : Prop :=
  wellFormed (after r) /\
  fst (spliced (remainingText this))
  = buf r ++ fst (spliced (remainingText (after r))) /\
  PPInput.lineNo r + snd (spliced (remainingText (after r)))
  = lineNo + snd (spliced (remainingText this)) /\
  nRead r = Z.of_nat (length (buf r)).

(** Three source strings, the middle one empty: a line ending in a
    backslash, nothing, and the next line. *)
Definition splitContinuation : Input :=
  Input_ctor 3 [cstr "a" ++ [backslash]; []; newline :: cstr "b"] None.

(** The same text in two strings. *)
Definition joinedContinuation : Input :=
  Input_ctor 2 [cstr "a" ++ [backslash]; newline :: cstr "b"] None.

(** Two source strings of [maxSize - 1] and [maxSize] letters, given
    with their lengths. *)
Definition twoPlainStrings (maxSize : Z) : Input :=
  Input_ctor 2
    [repeat "a"%char (Z.to_nat (maxSize - 1)); repeat "a"%char (Z.to_nat maxSize)]
    (Some [maxSize - 1; maxSize]).

End PPInput.

(* ===================================================================== *)
(** * Preprocessor directives: [pp::DirectiveParser]                      *)
(* ===================================================================== *)

Module Directive.

(** ** Tokens, macros, diagnostics

    [Token.h], [Macro.h], [Diagnostics.h] and [DirectiveHandlerBase.h] hold
    declarations only; the types below have the members the parser uses. *)

(** [Token::Type]: the named members, the operators (numbered), and a
    single character standing for itself. *)
Inductive TokenType :=
| LAST | IDENTIFIER | CONST_INT | CONST_FLOAT | PP_HASH | PP_OTHER
| OPERATOR (n : nat)
| CHAR (c : ascii).

#[global] Instance TokenType_eq_dec : EqDecision TokenType.
Proof. solve_decision. Defined.

Record SourceLocation := mkLoc { file : Z; line : Z }.

#[global] Instance SourceLocation_eq_dec : EqDecision SourceLocation.
Proof. solve_decision. Defined.

Record Token := mkToken {
  type : TokenType;
  hasLeadingSpace : bool;
  location : SourceLocation;
  text : string
}.

#[global] Instance Token_eq_dec : EqDecision Token.
Proof. solve_decision. Defined.

Definition setLocation (l : SourceLocation) (t : Token) : Token :=
  mkToken (type t) (hasLeadingSpace t) l (text t).

Definition setHasLeadingSpace (b : bool) (t : Token) : Token :=
  mkToken (type t) b (location t) (text t).

Definition isType (t : Token) (ty : TokenType) : bool :=
  bool_decide (type t = ty).

Definition isChar (t : Token) (c : ascii) : bool := isType t (CHAR c).

Definition newline : ascii := "010"%char.

Inductive MacroType := kTypeObj | kTypeFunc.

#[global] Instance MacroType_eq_dec : EqDecision MacroType.
Proof. solve_decision. Defined.

Record Macro := mkMacro {
  predefined : bool;
  macroType : MacroType;
  name : string;
  parameters : list string;
  replacements : list Token;
  expansionCount : Z
}.

(** Modelled from the spec: [Macro::equals], defined in a file that is not
    at hand; "the new body equals the old token-for-token", together with
    the kind, the name and the parameters. *)
Definition Macro_equals (a b : Macro) : bool :=
  bool_decide (macroType a = macroType b) &&
  bool_decide (name a = name b) &&
  bool_decide (parameters a = parameters b) &&
  bool_decide (replacements a = replacements b).

(** [MacroSet] is a [std::map] from names to macros. *)
Abbreviation MacroSet := (gmap string Macro).

Inductive DiagnosticsID :=
| PP_UNEXPECTED_TOKEN
| PP_DIRECTIVE_INVALID_NAME
| PP_MACRO_PREDEFINED_REDEFINED
| PP_MACRO_NAME_RESERVED
| PP_WARNING_MACRO_NAME_RESERVED
| PP_MACRO_DUPLICATE_PARAMETER_NAMES
| PP_MACRO_REDEFINED
| PP_MACRO_PREDEFINED_UNDEFINED
| PP_MACRO_UNDEFINED_WHILE_INVOKED
| PP_CONDITIONAL_ELSE_WITHOUT_IF
| PP_CONDITIONAL_ELSE_AFTER_ELSE
| PP_CONDITIONAL_ELIF_WITHOUT_IF
| PP_CONDITIONAL_ELIF_AFTER_ELSE
| PP_CONDITIONAL_ENDIF_WITHOUT_IF
| PP_CONDITIONAL_UNEXPECTED_TOKEN
| PP_CONDITIONAL_UNTERMINATED
| PP_EOF_IN_DIRECTIVE
| PP_UNRECOGNIZED_PRAGMA
| PP_INVALID_EXTENSION_NAME
| PP_INVALID_EXTENSION_BEHAVIOR
| PP_INVALID_EXTENSION_DIRECTIVE
| PP_NON_PP_TOKEN_BEFORE_EXTENSION_ESSL3
| PP_NON_PP_TOKEN_BEFORE_EXTENSION_ESSL1
| PP_VERSION_NOT_FIRST_STATEMENT
| PP_INVALID_VERSION_NUMBER
| PP_INTEGER_OVERFLOW
| PP_INVALID_VERSION_DIRECTIVE
| PP_VERSION_NOT_FIRST_LINE_ESSL3
| PP_INVALID_LINE_DIRECTIVE
| PP_INVALID_LINE_NUMBER
| PP_INVALID_FILE_NUMBER.

#[global] Instance DiagnosticsID_eq_dec : EqDecision DiagnosticsID.
Proof. solve_decision. Defined.

(** One call of [Diagnostics::report]. *)
Record Diagnostic := mkDiag {
  diagId : DiagnosticsID;
  diagLoc : SourceLocation;
  diagText : string
}.

(** One call of a [DirectiveHandler] method. *)
Inductive HandlerCall :=
| handleError (loc : SourceLocation) (msg : string)
| handlePragma (loc : SourceLocation) (name value : string) (stdgl : bool)
| handleExtension (loc : SourceLocation) (name behavior : string)
| handleVersion (loc : SourceLocation) (version : Z).

Record ConditionalBlock := mkBlock {
  blockType : string;
  blockLocation : SourceLocation;
  skipBlock : bool;
  skipGroup : bool;
  foundElseGroup : bool;
  foundValidGroup : bool
}.

(** Modelled from the spec: the tokenizer "yields tokens plus newline/EOD
    markers"; its source is generated from a grammar file that is not at
    hand.  Here it hands out the tokens of a given sequence and then the
    end-of-input token, again and again.  [setLineNumber] and
    [setFileNumber] are recorded. *)
Record Tokenizer := mkTokenizer {
  input : list Token;
  eofLocation : SourceLocation;
  lineNumber : option Z;
  fileNumber : option Z
}.

Definition eofToken (eof : SourceLocation) : Token := mkToken LAST false eof EmptyString.

Definition Tokenizer_lex (t : Tokenizer) : Token * Tokenizer :=
  match input t with
  | [] => (eofToken (eofLocation t), t)
  | tok :: rest =>
      (tok, mkTokenizer rest (eofLocation t) (lineNumber t) (fileNumber t))
  end.

(** ** What the parser calls in files that are not at hand

    [Token::iValue], [PredefineMacro], [MacroExpander::lex] and
    [ExpressionParser::parse] are parameters.  The expression parser is
    given the macro set and the tokens still to come; [withDefined] tells
    whether it reads through a [DefinedParser]. *)
Record ErrorSettings := mkErrorSettings {
  unexpectedIdentifier : DiagnosticsID;
  integerLiteralsMustFit32BitSignedRange : bool
}.

Record ParseOutcome := mkOutcome {
  outResult : option Z;       (* written to [*result], if at all *)
  outValid : bool;            (* [*valid] afterwards *)
  outToken : Token;           (* [*token] afterwards *)
  outInput : list Token;      (* tokens still to come *)
  outDiagnostics : list Diagnostic
}.

Record Externals := mkExternals {
  Token_iValue : Token -> option Z;
  PredefineMacro : MacroSet -> string -> Z -> MacroSet;
  MacroExpander_lex :
    MacroSet -> list Token -> SourceLocation -> Token * list Token * list Diagnostic;
  ExpressionParser_parse :
    forall (withDefined : bool) (macros : MacroSet) (input : list Token)
           (eof : SourceLocation) (token : Token) (parsePresetToken : bool)
           (settings : ErrorSettings) (valid : bool), ParseOutcome
}.

(** ** The parser *)

(** [mConditionalStack] is kept with its [back()] first.
    [expressionParses] counts the calls of [ExpressionParser::parse]. *)
Record DirectiveParser := mkParser {
  mPastFirstStatement : bool;
  mSeenNonPreprocessorToken : bool;
  mConditionalStack : list ConditionalBlock;
  mTokenizer : Tokenizer;
  mMacroSet : MacroSet;
  mDiagnostics : list Diagnostic;
  mDirectiveHandler : list HandlerCall;
  mShaderVersion : Z;
  expressionParses : nat
}.

Definition set_pastFirstStatement (b : bool) (p : DirectiveParser) :=
  mkParser b (mSeenNonPreprocessorToken p) (mConditionalStack p) (mTokenizer p)
    (mMacroSet p) (mDiagnostics p) (mDirectiveHandler p) (mShaderVersion p)
    (expressionParses p).

Definition set_seenNonPreprocessorToken (b : bool) (p : DirectiveParser) :=
  mkParser (mPastFirstStatement p) b (mConditionalStack p) (mTokenizer p)
    (mMacroSet p) (mDiagnostics p) (mDirectiveHandler p) (mShaderVersion p)
    (expressionParses p).

Definition set_stack (s : list ConditionalBlock) (p : DirectiveParser) :=
  mkParser (mPastFirstStatement p) (mSeenNonPreprocessorToken p) s (mTokenizer p)
    (mMacroSet p) (mDiagnostics p) (mDirectiveHandler p) (mShaderVersion p)
    (expressionParses p).

Definition set_tokenizer (t : Tokenizer) (p : DirectiveParser) :=
  mkParser (mPastFirstStatement p) (mSeenNonPreprocessorToken p)
    (mConditionalStack p) t (mMacroSet p) (mDiagnostics p) (mDirectiveHandler p)
    (mShaderVersion p) (expressionParses p).

Definition set_input (l : list Token) (p : DirectiveParser) :=
  set_tokenizer (mkTokenizer l (eofLocation (mTokenizer p))
                   (lineNumber (mTokenizer p)) (fileNumber (mTokenizer p))) p.

Definition set_macroSet (m : MacroSet) (p : DirectiveParser) :=
  mkParser (mPastFirstStatement p) (mSeenNonPreprocessorToken p)
    (mConditionalStack p) (mTokenizer p) m (mDiagnostics p) (mDirectiveHandler p)
    (mShaderVersion p) (expressionParses p).

Definition set_shaderVersion (v : Z) (p : DirectiveParser) :=
  mkParser (mPastFirstStatement p) (mSeenNonPreprocessorToken p)
    (mConditionalStack p) (mTokenizer p) (mMacroSet p) (mDiagnostics p)
    (mDirectiveHandler p) v (expressionParses p).

(** [mDiagnostics->report(id, loc, text)]. *)
Definition report (id : DiagnosticsID) (loc : SourceLocation) (txt : string)
  (p : DirectiveParser) :=
  mkParser (mPastFirstStatement p) (mSeenNonPreprocessorToken p)
    (mConditionalStack p) (mTokenizer p) (mMacroSet p)
    (mDiagnostics p ++ [mkDiag id loc txt]) (mDirectiveHandler p)
    (mShaderVersion p) (expressionParses p).

Definition reportAll (ds : list Diagnostic) (p : DirectiveParser) :=
  mkParser (mPastFirstStatement p) (mSeenNonPreprocessorToken p)
    (mConditionalStack p) (mTokenizer p) (mMacroSet p)
    (mDiagnostics p ++ ds) (mDirectiveHandler p)
    (mShaderVersion p) (expressionParses p).

(** [report] with the location and text of a token. *)
Definition reportToken (id : DiagnosticsID) (t : Token) (p : DirectiveParser) :=
  report id (location t) (text t) p.

Definition callHandler (c : HandlerCall) (p : DirectiveParser) :=
  mkParser (mPastFirstStatement p) (mSeenNonPreprocessorToken p)
    (mConditionalStack p) (mTokenizer p) (mMacroSet p) (mDiagnostics p)
    (mDirectiveHandler p ++ [c]) (mShaderVersion p) (expressionParses p).

Definition countExpressionParse (p : DirectiveParser) :=
  mkParser (mPastFirstStatement p) (mSeenNonPreprocessorToken p)
    (mConditionalStack p) (mTokenizer p) (mMacroSet p) (mDiagnostics p)
    (mDirectiveHandler p) (mShaderVersion p) (S (expressionParses p)).

(** [mTokenizer->lex(token)]. *)
Definition lexToken (p : DirectiveParser) : Token * DirectiveParser :=
  let '(tok, t) := Tokenizer_lex (mTokenizer p) in (tok, set_tokenizer t p).

Inductive DirectiveType :=
| DIRECTIVE_NONE | DIRECTIVE_DEFINE | DIRECTIVE_UNDEF | DIRECTIVE_IF
| DIRECTIVE_IFDEF | DIRECTIVE_IFNDEF | DIRECTIVE_ELSE | DIRECTIVE_ELIF
| DIRECTIVE_ENDIF | DIRECTIVE_ERROR | DIRECTIVE_PRAGMA | DIRECTIVE_EXTENSION
| DIRECTIVE_VERSION | DIRECTIVE_LINE.

Definition getDirective (token : Token) : DirectiveType :=
  if negb (isType token IDENTIFIER) then DIRECTIVE_NONE
  else if String.eqb (text token) "define" then DIRECTIVE_DEFINE
  else if String.eqb (text token) "undef" then DIRECTIVE_UNDEF
  else if String.eqb (text token) "if" then DIRECTIVE_IF
  else if String.eqb (text token) "ifdef" then DIRECTIVE_IFDEF
  else if String.eqb (text token) "ifndef" then DIRECTIVE_IFNDEF
  else if String.eqb (text token) "else" then DIRECTIVE_ELSE
  else if String.eqb (text token) "elif" then DIRECTIVE_ELIF
  else if String.eqb (text token) "endif" then DIRECTIVE_ENDIF
  else if String.eqb (text token) "error" then DIRECTIVE_ERROR
  else if String.eqb (text token) "pragma" then DIRECTIVE_PRAGMA
  else if String.eqb (text token) "extension" then DIRECTIVE_EXTENSION
  else if String.eqb (text token) "version" then DIRECTIVE_VERSION
  else if String.eqb (text token) "line" then DIRECTIVE_LINE
  else DIRECTIVE_NONE.

Definition isConditionalDirective (directive : DirectiveType) : bool :=
  match directive with
  | DIRECTIVE_IF | DIRECTIVE_IFDEF | DIRECTIVE_IFNDEF
  | DIRECTIVE_ELSE | DIRECTIVE_ELIF | DIRECTIVE_ENDIF => true
  | _ => false
  end.

Definition isEOD (token : Token) : bool :=
  isChar token newline || isType token LAST.

(** [skipUntilEOD] on the tokens still to come. *)
Fixpoint skipTokens (token : Token) (rest : list Token) (eof : SourceLocation)
  : Token * list Token :=
  if isEOD token then (token, rest)
  else match rest with
       | [] => (eofToken eof, [])
       | t :: rest' => skipTokens t rest' eof
       end.

Definition skipUntilEOD (token : Token) (p : DirectiveParser)
  : Token * DirectiveParser :=
  let '(tok, rest) :=
    skipTokens token (input (mTokenizer p)) (eofLocation (mTokenizer p)) in
  (tok, set_input rest p).

Definition isMacroNameReserved (name : string) : bool := String.prefix "GL_" name.

Definition hasDoubleUnderscores (name : string) : bool :=
  match String.index 0 "__" name with Some _ => true | None => false end.

Definition isMacroPredefined (name : string) (macroSet : MacroSet) : bool :=
  match macroSet !! name with
  | Some m => predefined m
  | None => false
  end.

Definition eofOf (p : DirectiveParser) : SourceLocation :=
  eofLocation (mTokenizer p).

Definition emptyBlock : ConditionalBlock :=
  mkBlock EmptyString (mkLoc 0 0) false false false false.

(** [skipping]. *)
Definition skipping (p : DirectiveParser) : bool :=
  match mConditionalStack p with
  | [] => false
  | block :: _ => skipBlock block || skipGroup block
  end.

(** *** [#define] *)

Inductive ParameterScan :=
| ParametersDone (token : Token) (rest : list Token) (params : list string)
| ParametersDuplicate (token : Token) (rest : list Token).

(** The [do ... while(token->type == ',')] loop collecting the parameter
    names; [rest] are the tokens still to come when the loop is entered. *)
Fixpoint collectParameters (rest : list Token) (eof : SourceLocation)
  (params : list string) : ParameterScan :=
  match rest with
  | [] => ParametersDone (eofToken eof) [] params
  | tok :: rest1 =>
    if negb (isType tok IDENTIFIER) then ParametersDone tok rest1 params
    else if existsb (String.eqb (text tok)) params
    then ParametersDuplicate tok rest1
    else
      let params := params ++ [text tok] in
      match rest1 with
      | [] => ParametersDone (eofToken eof) [] params
      | tok2 :: rest2 =>
        if isChar tok2 "," then collectParameters rest2 eof params
        else ParametersDone tok2 rest2 params
      end
  end.

(** The loop collecting the replacement list. *)
Fixpoint collectReplacements (token : Token) (rest : list Token)
  (eof : SourceLocation) (acc : list Token) : Token * list Token * list Token :=
  if isChar token newline || isType token LAST then (token, rest, acc)
  else
    let acc := acc ++ [setLocation (mkLoc 0 0) token] in
    match rest with
    | [] => (eofToken eof, [], acc)
    | t :: rest' => collectReplacements t rest' eof acc
    end.

(** [parseDefine] from the replacement list on. [std::map::insert] leaves
    an existing entry alone. *)
Definition finishDefine (macroName : string) (kind : MacroType)
  (params : list string) (token : Token) (p : DirectiveParser)
  : Token * DirectiveParser :=
  let '(token, rest, repl) :=
    collectReplacements token (input (mTokenizer p)) (eofOf p) [] in
  let p := set_input rest p in
  let repl := match repl with
              | [] => []
              | first :: others => setHasLeadingSpace false first :: others
              end in
  let macro := mkMacro false kind macroName params repl 0 in
  match mMacroSet p !! macroName with
  | Some old =>
    if negb (Macro_equals macro old)
    then (token, report PP_MACRO_REDEFINED (location token) macroName p)
    else (token, p)
  | None => (token, set_macroSet (<[macroName := macro]> (mMacroSet p)) p)
  end.

Definition parseDefine (token : Token) (p : DirectiveParser)
  : Token * DirectiveParser :=
  let '(token, p) := lexToken p in
  if negb (isType token IDENTIFIER)
  then (token, reportToken PP_UNEXPECTED_TOKEN token p)
  else if isMacroPredefined (text token) (mMacroSet p)
  then (token, reportToken PP_MACRO_PREDEFINED_REDEFINED token p)
  else if isMacroNameReserved (text token)
  then (token, reportToken PP_MACRO_NAME_RESERVED token p)
  else
    let p := if hasDoubleUnderscores (text token)
             then reportToken PP_WARNING_MACRO_NAME_RESERVED token p
             else p in
    let macroName := text token in
    let '(token, p) := lexToken p in
    if isChar token "(" && negb (hasLeadingSpace token) then
      match collectParameters (input (mTokenizer p)) (eofOf p) [] with
      | ParametersDuplicate token rest =>
        (token, reportToken PP_MACRO_DUPLICATE_PARAMETER_NAMES token
                  (set_input rest p))
      | ParametersDone token rest params =>
        let p := set_input rest p in
        if negb (isChar token ")")
        then (token, reportToken PP_UNEXPECTED_TOKEN token p)
        else
          let '(token, p) := lexToken p in
          finishDefine macroName kTypeFunc params token p
      end
    else finishDefine macroName kTypeObj [] token p.

(** *** [#undef] *)

Definition parseUndef (token : Token) (p : DirectiveParser)
  : Token * DirectiveParser :=
  let '(token, p) := lexToken p in
  if negb (isType token IDENTIFIER)
  then (token, reportToken PP_UNEXPECTED_TOKEN token p)
  else
    let finish (p : DirectiveParser) :=
      let '(token, p) := lexToken p in
      if negb (isEOD token)
      then skipUntilEOD token (reportToken PP_UNEXPECTED_TOKEN token p)
      else (token, p) in
    match mMacroSet p !! text token with
    | Some m =>
      if predefined m
      then (token, reportToken PP_MACRO_PREDEFINED_UNDEFINED token p)
      else if 0 <? expansionCount m
      then (token, reportToken PP_MACRO_UNDEFINED_WHILE_INVOKED token p)
      else finish (set_macroSet (delete (text token) (mMacroSet p)) p)
    | None => finish p
    end.

Section Parser.
Variable ext : Externals.

(** *** Conditionals *)

(** [parseExpressionIf]: the expression parser reads through a
    [DefinedParser] and a [MacroExpander]; [expression] starts as 0. *)
Definition parseExpressionIf (token : Token) (p : DirectiveParser)
  : Z * Token * DirectiveParser :=
  let out := ExpressionParser_parse ext true (mMacroSet p)
               (input (mTokenizer p)) (eofOf p) token false
               (mkErrorSettings PP_CONDITIONAL_UNEXPECTED_TOKEN false) true in
  let p := countExpressionParse
             (reportAll (outDiagnostics out) (set_input (outInput out) p)) in
  let expression := match outResult out with Some v => v | None => 0 end in
  let token := outToken out in
  if negb (isEOD token) then
    let '(token, p) :=
      skipUntilEOD token (reportToken PP_CONDITIONAL_UNEXPECTED_TOKEN token p) in
    (expression, token, p)
  else (expression, token, p).

Definition parseExpressionIfdef (token : Token) (p : DirectiveParser)
  : Z * Token * DirectiveParser :=
  let '(token, p) := lexToken p in
  if negb (isType token IDENTIFIER) then
    let '(token, p) :=
      skipUntilEOD token (reportToken PP_UNEXPECTED_TOKEN token p) in
    (0, token, p)
  else
    let expression :=
      match mMacroSet p !! text token with Some _ => 1 | None => 0 end in
    let '(token, p) := lexToken p in
    if negb (isEOD token) then
      let '(token, p) :=
        skipUntilEOD token
          (reportToken PP_CONDITIONAL_UNEXPECTED_TOKEN token p) in
      (expression, token, p)
    else (expression, token, p).

Definition push_back (block : ConditionalBlock) (p : DirectiveParser) :=
  set_stack (block :: mConditionalStack p) p.

(** [parseConditionalIf], reached from [parseIf], [parseIfdef] and
    [parseIfndef]. *)
Definition parseConditionalIf (token : Token) (p : DirectiveParser)
  : Token * DirectiveParser :=
  let type := text token in
  let loc := location token in
  if skipping p then
    let '(token, p) := skipUntilEOD token p in
    (token, push_back (mkBlock type loc true false false false) p)
  else
    let '(expression, token, p) :=
      match getDirective token with
      | DIRECTIVE_IF => parseExpressionIf token p
      | DIRECTIVE_IFDEF => parseExpressionIfdef token p
      | DIRECTIVE_IFNDEF =>
        let '(e, token, p) := parseExpressionIfdef token p in
        (if e =? 0 then 1 else 0, token, p)
      | _ => (0, token, p)
      end in
    (token, push_back (mkBlock type loc false (expression =? 0) false
                         (negb (expression =? 0))) p).

Definition parseElse (token : Token) (p : DirectiveParser)
  : Token * DirectiveParser :=
  match mConditionalStack p with
  | [] =>
    skipUntilEOD token (reportToken PP_CONDITIONAL_ELSE_WITHOUT_IF token p)
  | block :: below =>
    if skipBlock block then skipUntilEOD token p
    else if foundElseGroup block then
      skipUntilEOD token (reportToken PP_CONDITIONAL_ELSE_AFTER_ELSE token p)
    else
      let block := mkBlock (blockType block) (blockLocation block)
                     (skipBlock block) (foundValidGroup block) true true in
      let p := set_stack (block :: below) p in
      let '(token, p) := lexToken p in
      if negb (isEOD token) then
        skipUntilEOD token
          (reportToken PP_CONDITIONAL_UNEXPECTED_TOKEN token p)
      else (token, p)
  end.

Definition parseElif (token : Token) (p : DirectiveParser)
  : Token * DirectiveParser :=
  match mConditionalStack p with
  | [] =>
    skipUntilEOD token (reportToken PP_CONDITIONAL_ELIF_WITHOUT_IF token p)
  | block :: below =>
    if skipBlock block then skipUntilEOD token p
    else if foundElseGroup block then
      skipUntilEOD token (reportToken PP_CONDITIONAL_ELIF_AFTER_ELSE token p)
    else if foundValidGroup block then
      let block := mkBlock (blockType block) (blockLocation block)
                     (skipBlock block) true (foundElseGroup block)
                     (foundValidGroup block) in
      skipUntilEOD token (set_stack (block :: below) p)
    else
      let '(expression, token, p) := parseExpressionIf token p in
      match mConditionalStack p with
      | [] => (token, p)
      | block :: below =>
        let block := mkBlock (blockType block) (blockLocation block)
                       (skipBlock block) (expression =? 0)
                       (foundElseGroup block) (negb (expression =? 0)) in
        (token, set_stack (block :: below) p)
      end
  end.

Definition parseEndif (token : Token) (p : DirectiveParser)
  : Token * DirectiveParser :=
  match mConditionalStack p with
  | [] =>
    skipUntilEOD token (reportToken PP_CONDITIONAL_ENDIF_WITHOUT_IF token p)
  | _ :: below =>
    let p := set_stack below p in
    let '(token, p) := lexToken p in
    if negb (isEOD token) then
      skipUntilEOD token (reportToken PP_CONDITIONAL_UNEXPECTED_TOKEN token p)
    else (token, p)
  end.

(** *** [#error], [#pragma], [#extension] *)

(** Modelled from the spec: [operator<<] on a token, defined in a file
    that is not at hand, prints the token's text, after a blank if the
    token had leading space. *)
Definition printToken (t : Token) : string :=
  ((if hasLeadingSpace t then " " else EmptyString) ++ text t)%string.

Fixpoint collectMessage (token : Token) (rest : list Token)
  (eof : SourceLocation) (acc : string) : Token * list Token * string :=
  if isChar token newline || isType token LAST then (token, rest, acc)
  else
    let acc := (acc ++ printToken token)%string in
    match rest with
    | [] => (eofToken eof, [], acc)
    | t :: rest' => collectMessage t rest' eof acc
    end.

Definition parseError (token : Token) (p : DirectiveParser)
  : Token * DirectiveParser :=
  let '(token, p) := lexToken p in
  let '(token, rest, msg) :=
    collectMessage token (input (mTokenizer p)) (eofOf p) EmptyString in
  (token, callHandler (handleError (location token) msg) (set_input rest p)).

(** The states of [parsePragma] are 0 ([PRAGMA_NAME]) to 3
    ([RIGHT_PAREN]); [state++] runs past them. *)
Fixpoint pragmaLoop (token : Token) (rest : list Token) (eof : SourceLocation)
  (state : Z) (valid : bool) (name value : string)
  : Token * list Token * Z * bool * string * string :=
  if isChar token newline || isType token LAST
  then (token, rest, state, valid, name, value)
  else
    let '(valid, name, value) :=
      if state =? 0 then (valid && isType token IDENTIFIER, text token, value)
      else if state =? 1 then (valid && isChar token "(", name, value)
      else if state =? 2 then (valid && isType token IDENTIFIER, name, text token)
      else if state =? 3 then (valid && isChar token ")", name, value)
      else (false, name, value) in
    let state := state + 1 in
    match rest with
    | [] => (eofToken eof, [], state, valid, name, value)
    | t :: rest' => pragmaLoop t rest' eof state valid name value
    end.

Definition parsePragma (token : Token) (p : DirectiveParser)
  : Token * DirectiveParser :=
  let '(token, p) := lexToken p in
  let stdgl := String.eqb (text token) "STDGL" in
  let '(token, p) := if stdgl then lexToken p else (token, p) in
  let '(token, rest, state, valid, name, value) :=
    pragmaLoop token (input (mTokenizer p)) (eofOf p) 0 true EmptyString EmptyString in
  let p := set_input rest p in
  let valid := valid && ((state =? 0) || (state =? 1) || (state =? 4)) in
  if negb valid
  then (token, report PP_UNRECOGNIZED_PRAGMA (location token) name p)
  else if 0 <? state
  then (token, callHandler (handlePragma (location token) name value stdgl) p)
  else (token, p).

(** The states of [parseExtension] are 0 ([EXT_NAME]), 1 ([COLON]) and 2
    ([EXT_BEHAVIOR]). *)
Fixpoint extensionLoop (token : Token) (rest : list Token)
  (eof : SourceLocation) (state : Z) (valid : bool) (name behavior : string)
  (diags : list Diagnostic)
  : Token * list Token * Z * bool * string * string * list Diagnostic :=
  if isChar token newline || isType token LAST
  then (token, rest, state, valid, name, behavior, diags)
  else
    let here (id : DiagnosticsID) := mkDiag id (location token) (text token) in
    let '(valid, name, behavior, diags) :=
      if state =? 0 then
        let bad := valid && negb (isType token IDENTIFIER) in
        let diags := if bad then diags ++ [here PP_INVALID_EXTENSION_NAME]
                     else diags in
        let valid := if bad then false else valid in
        (valid, if valid then text token else name, behavior, diags)
      else if state =? 1 then
        let bad := valid && negb (isChar token ":") in
        (if bad then false else valid, name, behavior,
         if bad then diags ++ [here PP_UNEXPECTED_TOKEN] else diags)
      else if state =? 2 then
        let bad := valid && negb (isType token IDENTIFIER) in
        let diags := if bad then diags ++ [here PP_INVALID_EXTENSION_BEHAVIOR]
                     else diags in
        let valid := if bad then false else valid in
        (valid, name, if valid then text token else behavior, diags)
      else
        (false, name, behavior,
         if valid then diags ++ [here PP_UNEXPECTED_TOKEN] else diags) in
    let state := state + 1 in
    match rest with
    | [] => (eofToken eof, [], state, valid, name, behavior, diags)
    | t :: rest' => extensionLoop t rest' eof state valid name behavior diags
    end.

Definition parseExtension (token : Token) (p : DirectiveParser)
  : Token * DirectiveParser :=
  let '(token, p) := lexToken p in
  let '(token, rest, state, valid, name, behavior, diags) :=
    extensionLoop token (input (mTokenizer p)) (eofOf p) 0 true EmptyString EmptyString [] in
  let p := reportAll diags (set_input rest p) in
  let '(valid, p) :=
    if valid && negb (state =? 3)
    then (false, reportToken PP_INVALID_EXTENSION_DIRECTIVE token p)
    else (valid, p) in
  let '(valid, p) :=
    if valid && mSeenNonPreprocessorToken p then
      if 300 <=? mShaderVersion p
      then (false, reportToken PP_NON_PP_TOKEN_BEFORE_EXTENSION_ESSL3 token p)
      else (valid, reportToken PP_NON_PP_TOKEN_BEFORE_EXTENSION_ESSL1 token p)
    else (valid, p) in
  if valid
  then (token, callHandler (handleExtension (location token) name behavior) p)
  else (token, p).

(** *** [#version] *)

Inductive VersionState := VERSION_NUMBER | VERSION_PROFILE | VERSION_ENDLINE.

Definition isEndline (s : VersionState) : bool :=
  match s with VERSION_ENDLINE => true | _ => false end.

(** The [switch] in the loop of [parseVersion]. *)
Definition versionStep (token : Token) (state : VersionState) (valid : bool)
  (version : Z) (diags : list Diagnostic)
  : VersionState * bool * Z * list Diagnostic :=
  let here (id : DiagnosticsID) := mkDiag id (location token) (text token) in
  match state with
  | VERSION_NUMBER =>
    let '(valid, diags) :=
      if negb (isType token CONST_INT)
      then (false, diags ++ [here PP_INVALID_VERSION_NUMBER])
      else (valid, diags) in
    let '(valid, version, diags) :=
      if valid then
        match Token_iValue ext token with
        | Some v => (valid, v, diags)
        | None => (false, version, diags ++ [here PP_INTEGER_OVERFLOW])
        end
      else (valid, version, diags) in
    let state := if valid
                 then (if version <? 300 then VERSION_ENDLINE
                       else VERSION_PROFILE)
                 else state in
    (state, valid, version, diags)
  | VERSION_PROFILE =>
    if negb (isType token IDENTIFIER) || negb (String.eqb (text token) "es")
    then (VERSION_ENDLINE, false, version,
          diags ++ [here PP_INVALID_VERSION_DIRECTIVE])
    else (VERSION_ENDLINE, valid, version, diags)
  | VERSION_ENDLINE =>
    (state, false, version, diags ++ [here PP_UNEXPECTED_TOKEN])
  end.

(** The [while(valid && ...)] loop of [parseVersion]. *)
Fixpoint versionLoop (token : Token) (rest : list Token) (eof : SourceLocation)
  (state : VersionState) (valid : bool) (version : Z) (diags : list Diagnostic)
  : Token * list Token * VersionState * bool * Z * list Diagnostic :=
  if valid && negb (isChar token newline) && negb (isType token LAST) then
    let '(state, valid, version, diags) :=
      versionStep token state valid version diags in
    match rest with
    | [] => (eofToken eof, [], state, valid, version, diags)
    | t :: rest' => versionLoop t rest' eof state valid version diags
    end
  else (token, rest, state, valid, version, diags).

Definition parseVersion (token : Token) (p : DirectiveParser)
  : Token * DirectiveParser :=
  if mPastFirstStatement p then
    skipUntilEOD token (reportToken PP_VERSION_NOT_FIRST_STATEMENT token p)
  else
    let '(token, p) := lexToken p in
    let '(token, rest, state, valid, version, diags) :=
      versionLoop token (input (mTokenizer p)) (eofOf p)
        VERSION_NUMBER true 0 [] in
    let p := reportAll diags (set_input rest p) in
    let '(valid, p) :=
      if valid && negb (isEndline state)
      then (false, reportToken PP_INVALID_VERSION_DIRECTIVE token p)
      else (valid, p) in
    let '(valid, p) :=
      if valid && (300 <=? version) && (1 <? line (location token))
      then (false, reportToken PP_VERSION_NOT_FIRST_LINE_ESSL3 token p)
      else (valid, p) in
    if valid then
      let p := callHandler (handleVersion (location token) version) p in
      let p := set_shaderVersion version p in
      (token, set_macroSet
                (PredefineMacro ext (mMacroSet p) "__VERSION__" version) p)
    else (token, p).

(** *** [#line] *)

Definition setLineNumber (l : Z) (p : DirectiveParser) :=
  set_tokenizer (mkTokenizer (input (mTokenizer p)) (eofLocation (mTokenizer p))
                   (Some l) (fileNumber (mTokenizer p))) p.

Definition setFileNumber (f : Z) (p : DirectiveParser) :=
  set_tokenizer (mkTokenizer (input (mTokenizer p)) (eofLocation (mTokenizer p))
                   (lineNumber (mTokenizer p)) (Some f)) p.

(** One call of [expressionParser.parse] in [parseLine]; the parser reads
    through a [MacroExpander] only. *)
Definition parseLineExpression (id : DiagnosticsID) (token : Token)
  (result : Z) (valid : bool) (p : DirectiveParser)
  : Z * bool * Token * DirectiveParser :=
  let out := ExpressionParser_parse ext false (mMacroSet p)
               (input (mTokenizer p)) (eofOf p) token true
               (mkErrorSettings id true) valid in
  let p := countExpressionParse
             (reportAll (outDiagnostics out) (set_input (outInput out) p)) in
  (match outResult out with Some v => v | None => result end,
   outValid out, outToken out, p).

Definition parseLine (token : Token) (p : DirectiveParser)
  : Token * DirectiveParser :=
  let '(token, rest, diags) :=
    MacroExpander_lex ext (mMacroSet p) (input (mTokenizer p)) (eofOf p) in
  let p := reportAll diags (set_input rest p) in
  let '(valid, parsedFileNumber, line, file, token, p) :=
    if isEOD token then
      (false, false, 0, 0, token,
       reportToken PP_INVALID_LINE_DIRECTIVE token p)
    else
      let '(line, valid, token, p) :=
        parseLineExpression PP_INVALID_LINE_NUMBER token 0 true p in
      let '(file, valid, parsedFileNumber, token, p) :=
        if negb (isEOD token) && valid then
          let '(file, valid, token, p) :=
            parseLineExpression PP_INVALID_FILE_NUMBER token 0 valid p in
          (file, valid, true, token, p)
        else (0, valid, false, token, p) in
      if negb (isEOD token) then
        let '(valid, p) :=
          if valid then (false, reportToken PP_UNEXPECTED_TOKEN token p)
          else (valid, p) in
        let '(token, p) := skipUntilEOD token p in
        (valid, parsedFileNumber, line, file, token, p)
      else (valid, parsedFileNumber, line, file, token, p) in
  if valid then
    let p := setLineNumber line p in
    (token, if parsedFileNumber then setFileNumber file p else p)
  else (token, p).

(** *** [parseDirective] and [lex] *)

Definition parseDirective (token : Token) (p : DirectiveParser)
  : Token * DirectiveParser :=
  let '(token, p) := lexToken p in
  if isEOD token then (token, p)
  else
    let directive := getDirective token in
    if skipping p && negb (isConditionalDirective directive)
    then skipUntilEOD token p
    else
      let '(token, p) :=
        match directive with
        | DIRECTIVE_NONE =>
          skipUntilEOD token (reportToken PP_DIRECTIVE_INVALID_NAME token p)
        | DIRECTIVE_DEFINE => parseDefine token p
        | DIRECTIVE_UNDEF => parseUndef token p
        | DIRECTIVE_IF | DIRECTIVE_IFDEF | DIRECTIVE_IFNDEF =>
          parseConditionalIf token p
        | DIRECTIVE_ELSE => parseElse token p
        | DIRECTIVE_ELIF => parseElif token p
        | DIRECTIVE_ENDIF => parseEndif token p
        | DIRECTIVE_ERROR => parseError token p
        | DIRECTIVE_PRAGMA => parsePragma token p
        | DIRECTIVE_EXTENSION => parseExtension token p
        | DIRECTIVE_VERSION => parseVersion token p
        | DIRECTIVE_LINE => parseLine token p
        end in
      let '(token, p) := skipUntilEOD token p in
      if isType token LAST
      then (token, reportToken PP_EOF_IN_DIRECTIVE token p)
      else (token, p).

(** One pass through the body of the [do ... while] loop of [lex]; the
    flag tells whether the loop was left by [break]. *)
Definition lexPass (p : DirectiveParser) : bool * Token * DirectiveParser :=
  let '(token, p) := lexToken p in
  let '(token, p) :=
    if isType token PP_HASH then
      let '(token, p) := parseDirective token p in
      (token, set_pastFirstStatement true p)
    else if negb (isEOD token)
    then (token, set_seenNonPreprocessorToken true p)
    else (token, p) in
  if isType token LAST then
    match mConditionalStack p with
    | block :: _ =>
      (true, token,
       report PP_CONDITIONAL_UNTERMINATED (blockLocation block)
         (blockType block) p)
    | [] => (true, token, p)
    end
  else (false, token, p).

(** [DirectiveParser::lex]; [None] when the fuel runs out. *)
Fixpoint lex (fuel : nat) (p : DirectiveParser)
  : option (Token * DirectiveParser) :=
  match fuel with
  | O => None
  | S fuel' =>
    let '(broke, token, p) := lexPass p in
    if broke then Some (token, set_pastFirstStatement true p)
    else if skipping p || isChar token newline then lex fuel' p
    else Some (token, set_pastFirstStatement true p)
  end.

End Parser.

(** ** Statements about the parser *)

(** The parameter tokens after the opening parenthesis repeat a name: they
    are identifiers separated by commas up to an identifier, [dup], whose
    text is among the names before it ([seen]). *)
Inductive repeatsParameter : list string -> list Token -> Token -> Prop :=
| repeats_here seen dup rest :
    type dup = IDENTIFIER ->
    In (text dup) seen ->
    repeatsParameter seen (dup :: rest) dup
| repeats_later seen tok comma rest dup :
    type tok = IDENTIFIER ->
    ~ In (text tok) seen ->
    type comma = CHAR "," ->
    repeatsParameter (seen ++ [text tok]) rest dup ->
    repeatsParameter seen (tok :: comma :: rest) dup.

(** The tokens to come are [name ( parameters...] of a function-like macro
    definition whose parameter list repeats a name. *)
Definition definesWithRepeatedParameter (p : DirectiveParser)
  (nameTok dup : Token) : Prop :=
  exists lparen toks,
    input (mTokenizer p) = nameTok :: lparen :: toks /\
    type nameTok = IDENTIFIER /\
    type lparen = CHAR "(" /\ hasLeadingSpace lparen = false /\
    repeatsParameter [] toks dup.

(** The rule on repeated parameters as stated without exception. *)
Definition duplicateAlwaysReported : Prop :=
  forall (token : Token) (p : DirectiveParser) (nameTok dup : Token),
    definesWithRepeatedParameter p nameTok dup ->
    exists d, In d (mDiagnostics (snd (parseDefine token p))) /\
              diagId d = PP_MACRO_DUPLICATE_PARAMETER_NAMES.

(** [p0] is the parser just after a directive found a group of the block
    now on top of the stack to be true: an [#if], [#ifdef] or [#ifndef]
    that opened the block, or an [#elif] of the block, which had no valid
    group before. *)
Definition groupEvaluatedTrue (ext : Externals) (p0 : DirectiveParser) : Prop :=
  exists b below,
    mConditionalStack p0 = b :: below /\ foundValidGroup b = true /\
    ((exists token p, p0 = snd (parseConditionalIf ext token p)) \/
     (exists token p b' below',
        mConditionalStack p = b' :: below' /\ foundValidGroup b' = false /\
        p0 = snd (parseElif ext token p))).

(** The number of tokens the tokenizer still has to hand out. *)
Definition remaining (p : DirectiveParser) : nat :=
  length (input (mTokenizer p)).

(** The external parsers hand back no more tokens than they were given. *)
Definition consuming (ext : Externals) : Prop :=
  (forall m rest eof,
     (length (snd (fst (MacroExpander_lex ext m rest eof))) <= length rest)%nat) /\
  (forall withDefined m rest eof token preset settings valid,
     (length (outInput (ExpressionParser_parse ext withDefined m rest eof token
                          preset settings valid)) <= length rest)%nat).

(** Once a group of the block was true: the block is not skipped as a
    whole, has a valid group, and after its [#else] the group is skipped. *)
Definition groupTaken (p : DirectiveParser) : Prop :=
  exists b below,
    mConditionalStack p = b :: below /\
    foundValidGroup b = true /\ skipBlock b = false /\
    (foundElseGroup b = true -> skipGroup b = true).

(** What can happen next while the block stays on top of the stack: an
    [#elif] or an [#else] of the block, or anything that leaves the stack
    as it is (ordinary tokens, other directives, whole nested blocks). *)
Inductive sameBlockStep (ext : Externals) : DirectiveParser -> DirectiveParser -> Prop :=
| step_elif token p :
    sameBlockStep ext p (snd (parseElif ext token p))
| step_else token p :
    sameBlockStep ext p (snd (parseElse token p))
| step_other p p' :
    mConditionalStack p' = mConditionalStack p ->
    sameBlockStep ext p p'.

(** [eod] is the token that ends the directive whose remaining tokens are
    [toks]: the first of them, or the end-of-input token, and it is a
    newline or the end of input. *)
Definition endsDirective (toks : list Token) (eof : SourceLocation)
  (eod : Token) : Prop :=
  eod = match toks with [] => eofToken eof | t :: _ => t end /\
  isEOD eod = true.

(** The tokens [toks] after [#version] are a number [N], followed by the
    identifier [es] if [N] is 300 or more, and nothing else; for such an
    [N] the line ends on line 1. *)
Definition wellFormedVersion (ext : Externals) (toks : list Token)
  (eof : SourceLocation) (N : Z) (eod : Token) : Prop :=
  exists num tail,
    toks = num :: tail /\ type num = CONST_INT /\
    Token_iValue ext num = Some N /\
    ((N < 300 /\ endsDirective tail eof eod) \/
     (300 <= N /\
      exists es tail', tail = es :: tail' /\
        type es = IDENTIFIER /\ text es = "es" /\
        endsDirective tail' eof eod /\ line (location eod) <= 1)).

(** ** Sample tokens and a stand-in for the external pieces *)

Definition ident (s : string) (l : Z) : Token := mkToken IDENTIFIER false (mkLoc 0 l) s.
Definition spaced (t : Token) : Token := setHasLeadingSpace true t.
Definition number (s : string) (l : Z) : Token := mkToken CONST_INT true (mkLoc 0 l) s.
Definition punct (c : ascii) (l : Z) : Token :=
  mkToken (CHAR c) false (mkLoc 0 l) (String c EmptyString).
Definition endOfLine (l : Z) : Token := mkToken (CHAR newline) false (mkLoc 0 l) EmptyString.
Definition hash (l : Z) : Token := mkToken PP_HASH false (mkLoc 0 l) "#".

(** A parser about to read [toks], with no macro defined. *)
Definition parserOn (toks : list Token) (eofLine : Z) : DirectiveParser :=
  mkParser false false [] (mkTokenizer toks (mkLoc 0 eofLine) None None)
    ∅ [] [] 100 0%nat.

Definition digitValue (c : ascii) : option Z :=
  let n := Z.of_nat (nat_of_ascii c) in
  if (48 <=? n) && (n <=? 57) then Some (n - 48) else None.

Fixpoint decimalValue (s : string) (acc : Z) : option Z :=
  match s with
  | EmptyString => Some acc
  | String c s' =>
    match digitValue c with
    | Some d => decimalValue s' (10 * acc + d)
    | None => None
    end
  end.

(** Stand-ins to run the parser on examples: decimal literals that fit an
    [int]; an expression is one integer literal; no macro is expanded. *)
Definition sample_iValue (t : Token) : option Z :=
  match text t with
  | EmptyString => None
  | _ => match decimalValue (text t) 0 with
         | Some v => if v <=? 2147483647 then Some v else None
         | None => None
         end
  end.

Definition sample_PredefineMacro (m : MacroSet) (name : string) (v : Z) : MacroSet :=
  <[name := mkMacro true kTypeObj name []
              [mkToken CONST_INT false (mkLoc 0 0) (pretty v)] 0]> m.

Definition sample_lex (m : MacroSet) (rest : list Token) (eof : SourceLocation)
  : Token * list Token * list Diagnostic :=
  match rest with
  | [] => (eofToken eof, [], [])
  | t :: rest' => (t, rest', [])
  end.

Definition sample_parse (withDefined : bool) (m : MacroSet) (rest : list Token)
  (eof : SourceLocation) (token : Token) (parsePresetToken : bool)
  (settings : ErrorSettings) (valid : bool) : ParseOutcome :=
  let '(first, rest) :=
    if parsePresetToken then (token, rest)
    else match rest with
         | [] => (eofToken eof, [])
         | t :: rest' => (t, rest')
         end in
  match sample_iValue first with
  | Some v =>
    match rest with
    | [] => mkOutcome (Some v) valid (eofToken eof) [] []
    | t :: rest' => mkOutcome (Some v) valid t rest' []
    end
  | None =>
    mkOutcome None false first rest
      [mkDiag (unexpectedIdentifier settings) (location first) (text first)]
  end.

Definition sampleExternals : Externals :=
  mkExternals sample_iValue sample_PredefineMacro sample_lex sample_parse.

(** [FOO], as it follows [#undef] on line 3, with [FOO] defined. *)
Definition undefSample : DirectiveParser :=
  set_macroSet {[ "FOO" := mkMacro false kTypeObj "FOO" [] [] 0 ]}
    (parserOn [ident "FOO" 3; endOfLine 3] 4).

(** [#if 1], a newline, [x], and the end of the input. *)
Definition unterminatedIf : DirectiveParser :=
  parserOn [hash 1; ident "if" 1; number "1" 1; endOfLine 1; ident "x" 2] 3.

(** [GL_A(x,x) x], as it follows [#define] on line 1. *)
Definition reservedDuplicateDefine : DirectiveParser :=
  parserOn [spaced (ident "GL_A" 1); punct "(" 1; ident "x" 1; punct "," 1;
            ident "x" 1; punct ")" 1; spaced (ident "x" 1); endOfLine 1] 2.

(** [A(x,x) x], likewise. *)
Definition duplicateDefine : DirectiveParser :=
  parserOn [spaced (ident "A" 1); punct "(" 1; ident "x" 1; punct "," 1;
            ident "x" 1; punct ")" 1; spaced (ident "x" 1); endOfLine 1] 2.

(** What [parseExtension] keeps true of its [valid] flag and of the
    diagnostics gathered so far: none while valid, one error after. *)
Definition oneError (valid : bool) (diags : list Diagnostic) : Prop :=
  if valid then diags = []
  else exists d, diags = [d] /\
                 diagId d <> PP_NON_PP_TOKEN_BEFORE_EXTENSION_ESSL1.

End Directive.

(* ===================================================================== *)
(** * Properties                                                          *)
(* ===================================================================== *)

Module ReactorFacts.
Import Reactor.

Lemma materialize_pending x v st :
  pending x v st -> flushed x v (nextValue st) (materialize x st).
Proof.
  intros [Ha Hr]. unfold materialize, flushed. rewrite Ha. cbn.
  rewrite Hr. unfold storeValue. cbn. rewrite lookup_insert_eq. cbn.
  rewrite lookup_insert_eq, lookup_delete_eq.
  repeat split; auto.
  apply in_or_app. right. cbn. auto.
Qed.

Lemma materialize_other_fields x y st :
  y <> x ->
  address (materialize y st) !! x = address st !! x /\
  rvalue (materialize y st) !! x = rvalue st !! x.
Proof.
  intros Hne. unfold materialize.
  destruct (address st !! y) eqn:Hy; [auto|]. cbn.
  destruct (rvalue st !! y) eqn:Hr; cbn.
  - unfold storeValue. cbn. rewrite lookup_insert_eq. cbn.
    rewrite lookup_insert_ne, lookup_delete_ne by congruence. auto.
  - rewrite lookup_insert_ne by congruence. auto.
Qed.

Lemma materialize_grows y st :
  (exists l, entryBlock (materialize y st) = l ++ entryBlock st) /\
  (exists l, emitted (materialize y st) = emitted st ++ l).
Proof.
  unfold materialize.
  destruct (address st !! y) eqn:Hy.
  - split; [exists [] | exists []]; cbn; auto using app_nil_r.
  - cbn. destruct (rvalue st !! y) eqn:Hr; cbn.
    + unfold storeValue. cbn. rewrite lookup_insert_eq. cbn.
      split; [exists [IAlloca (nextValue st)] | eexists]; reflexivity.
    + split; [exists [IAlloca (nextValue st)] | exists []]; cbn;
        auto using app_nil_r.
Qed.

Lemma materialize_pending_other x v y st :
  y <> x -> pending x v st -> pending x v (materialize y st).
Proof.
  intros Hne [Ha Hr]. destruct (materialize_other_fields x y st Hne) as [E1 E2].
  split; congruence.
Qed.

Lemma materialize_flushed x v a y st :
  flushed x v a st -> flushed x v a (materialize y st).
Proof.
  intros (Ha & Hr & Hal & Hs).
  destruct (decide (y = x)) as [->|Hne].
  - unfold materialize. rewrite Ha. repeat split; auto.
  - destruct (materialize_other_fields x y st Hne) as [E1 E2].
    destruct (materialize_grows y st) as [[l1 G1] [l2 G2]].
    repeat split; try congruence.
    + rewrite G1. apply in_or_app. now right.
    + rewrite G2. apply in_or_app. now left.
Qed.

Lemma materialize_list_flushed x v a l st :
  flushed x v a st ->
  flushed x v a (foldl (fun s var => materialize var s) st l).
Proof.
  revert st. induction l as [|y l IH]; intros st H; cbn; auto.
  apply IH. now apply materialize_flushed.
Qed.

Lemma materialize_list_in x v l st :
  In x l -> pending x v st ->
  exists a, flushed x v a (foldl (fun s var => materialize var s) st l).
Proof.
  revert st. induction l as [|y l IH]; intros st Hin Hp; [destruct Hin|].
  cbn. destruct (decide (y = x)) as [->|Hne].
  - exists (nextValue st). apply materialize_list_flushed.
    now apply materialize_pending.
  - destruct Hin as [->|Hin]; [congruence|].
    apply IH; auto. now apply materialize_pending_other.
Qed.

Lemma materialize_list_notin x v l st :
  ~ In x l -> pending x v st ->
  pending x v (foldl (fun s var => materialize var s) st l).
Proof.
  revert st. induction l as [|y l IH]; intros st Hin Hp; cbn; auto.
  apply IH.
  - intros H. apply Hin. now right.
  - apply materialize_pending_other; auto. intros ->. apply Hin. now left.
Qed.

Lemma materializeAll_member x v st :
  x ∈ unmaterializedVariables st -> pending x v st ->
  exists a, flushed x v a (materializeAll st).
Proof.
  intros Hin Hp. unfold materializeAll.
  destruct (materialize_list_in x v (elements (unmaterializedVariables st)) st)
    as [a Ha]; auto.
  - apply list_elem_of_In. now apply elem_of_elements.
  - exists a. exact Ha.
Qed.

Lemma materializeAll_nonmember x v st :
  x ∉ unmaterializedVariables st -> pending x v st ->
  pending x v (materializeAll st).
Proof.
  intros Hin Hp. unfold materializeAll.
  apply (materialize_list_notin x v (elements (unmaterializedVariables st)) st);
    auto.
  intros H. apply Hin. apply elem_of_elements. now apply list_elem_of_In.
Qed.

Lemma flushed_emit x v a i st : flushed x v a st -> flushed x v a (emit i st).
Proof.
  intros (Ha & Hr & Hal & Hs). repeat split; auto.
  cbn. apply in_or_app. now left.
Qed.

Lemma run_keeps_unallocated o x v st :
  pending x v st -> materializes o x st = false ->
  address (run o st) !! x = None.
Proof.
  intros [Ha Hr] Hm.
  assert (Hoth : forall y, y <> x -> address (materialize y st) !! x = None).
  { intros y Hy. destruct (materialize_other_fields x y st Hy). congruence. }
  assert (Hall : x ∉ unmaterializedVariables st ->
                 address (materializeAll st) !! x = None).
  { intros Hn. now destruct (materializeAll_nonmember x v st Hn (conj Ha Hr)). }
  destruct o; cbn in Hm |- *;
    try (apply bool_decide_eq_false in Hm); auto.
  - destruct (decide (x0 = x)) as [->|Hne];
      [now rewrite lookup_delete_eq | now rewrite lookup_delete_ne].
  - unfold storeValue. destruct (address st !! x0); cbn; auto.
  - unfold loadValue. destruct (rvalue st !! x0) eqn:Hr0; cbn; auto.
    assert (x0 <> x) by congruence.
    destruct (address st !! x0) eqn:Ha0; cbn.
    + rewrite Ha0. cbn. auto.
    + destruct (address (materialize x0 st) !! x0); cbn; auto.
  - unfold getElementPointer, getBaseAddress.
    destruct (address (materialize x0 st) !! x0); cbn; auto.
Qed.

Lemma run_flushes o x v st :
  pending x v st -> materializes o x st = true ->
  exists a, flushed x v a (run o st).
Proof.
  intros Hp Hm.
  destruct o; cbn in Hm |- *; try discriminate;
    try (apply bool_decide_eq_true in Hm).
  - subst. eexists. now apply materialize_pending.
  - subst. eexists. now apply materialize_pending.
  - subst. unfold getElementPointer, getBaseAddress.
    pose proof (materialize_pending x v st Hp) as Hf.
    destruct Hf as (Ea & Er & Hal & Hs). rewrite Ea. cbn.
    exists (nextValue st). repeat split; auto.
    cbn. apply in_or_app. now left.
  - destruct (materializeAll_member x v st Hm Hp) as [a Hf].
    exists a. exact Hf.
  - destruct (materializeAll_member x v st Hm Hp) as [a Hf].
    exists a. now apply flushed_emit.
  - destruct (materializeAll_member x v st Hm Hp) as [a Hf].
    exists a. now apply flushed_emit.
Qed.

(** C9. While a variable has no stack slot, [storeValue] only records the
    value as the variable's pending value: nothing is emitted and nothing
    is allocated.  The next [loadValue] hands that very value back and
    leaves the state alone.  Of all entry points of the builder, exactly
    the address-taking ones on this variable ([materialize],
    [getBaseAddress], [getElementPointer]) and the block boundaries
    ([setInsertBlock], [createBr], [createCondBr], for a variable in the
    unmaterialized set) give it a slot; they allocate it in the entry
    block and flush the pending value into it with a store. *)
Theorem unmaterialized_store_is_pending (x : Var) (v : Value) (st : State) :
  address st !! x = None ->
  let st1 := snd (storeValue x v st) in
  (fst (storeValue x v st) = v /\ pending x v st1 /\
   emitted st1 = emitted st /\ entryBlock st1 = entryBlock st) /\
  loadValue x st1 = (Some v, st1) /\
  (forall o, materializes o x st1 = true ->
     exists a, flushed x v a (run o st1)) /\
  (forall o, materializes o x st1 = false ->
     address (run o st1) !! x = None).
Proof.
  intros Ha. cbn zeta.
  assert (E : storeValue x v st = (v, set_rvalue (insert x v) st)).
  { unfold storeValue. now rewrite Ha. }
  rewrite E. cbn [fst snd].
  assert (Hp : pending x v (set_rvalue (insert x v) st)).
  { split; cbn; auto. apply lookup_insert_eq. }
  repeat split; auto; try apply Hp.
  - unfold loadValue. destruct Hp as [_ ->]. reflexivity.
  - intros o Ho. now apply run_flushes.
  - intros o Ho. now apply (run_keeps_unallocated o x v).
Qed.

Lemma selector_nibble_mask s k :
  0 <= k ->
  Z.land (Z.shiftr 0x3333 k) 3 = 3 ->
  Z.land (Z.shiftr (Z.land s 0x3333) k) 3 = Z.land (Z.shiftr s k) 3.
Proof.
  intros Hk E. rewrite Z.shiftr_land, <- Z.land_assoc. now rewrite E.
Qed.

Lemma unmaterialized_store_is_pending_witness :
  address fresh_variable_state !! 1%nat = None /\
  loadValue 1%nat (snd (storeValue 1%nat 7%nat fresh_variable_state))
  = (Some 7%nat, snd (storeValue 1%nat 7%nat fresh_variable_state)).
Proof.
  split; [reflexivity|].
  apply (unmaterialized_store_is_pending 1%nat 7%nat fresh_variable_state).
  reflexivity.
Defined.

(** What the block boundary does to that variable: slot 0 is allocated in
    the entry block and the pending value 7 is stored into it. *)
Example createBr_flushes :
  let st := createBr 5%nat (snd (storeValue 1%nat 7%nat fresh_variable_state)) in
  address st !! 1%nat = Some 0%nat /\ rvalue st !! 1%nat = None /\
  entryBlock st = [IAlloca 0%nat] /\
  emitted st = [IStore 7%nat 0%nat; IBr 5%nat].
Proof. vm_compute. auto. Qed.

Lemma land_3_lt_4 x : (Z.to_nat (Z.land x 3) < 4)%nat.
Proof.
  change 3 with (Z.ones 2). rewrite Z.land_ones by lia.
  pose proof (Z.mod_pos_bound x (2 ^ 2) ltac:(lia)). lia.
Qed.

Lemma lane_of_doubled {A : Type} (undef a b c d : A) n :
  (n < 4)%nat ->
  nth n ([a; b; c; d] ++ [a; b; c; d]) undef = nth n [a; b; c; d] undef.
Proof. intros H. now apply app_nth1. Qed.

(** C8. For a 4-lane vector and any selector, output lane [i] of
    [Swizzle] is input lane [(s >> (12 - 4 i)) & 3], lane 0 being chosen by
    the most significant nibble; the result has four lanes and depends on
    the selector only through the low two bits of each nibble, that is
    through [s & 0x3333]. *)
Theorem swizzle_selects_by_nibble {A : Type} (undef : A) (a b c d : A) (s : Z) :
  let v := [a; b; c; d] in
  Forall (fun i => nth i (Swizzle undef v s) undef = nth (selected_lane s i) v undef)
         [0%nat; 1%nat; 2%nat; 3%nat] /\
  length (Swizzle undef v s) = 4%nat /\
  Swizzle undef v s = Swizzle undef v (Z.land s 0x3333).
Proof.
  cbn zeta. split; [|split].
  - repeat constructor; unfold selected_lane, Swizzle, createSwizzle4,
      createShuffleVector; cbn [length firstn map nth Z.of_nat Z.mul Z.sub
      Z.add Z.opp Z.pos_sub Pos.of_succ_nat Pos.succ Pos.mul Z.succ_double
      Z.pred_double Z.double Pos.pred_double];
      apply lane_of_doubled, land_3_lt_4.
  - reflexivity.
  - unfold Swizzle, createSwizzle4.
    rewrite !selector_nibble_mask by (reflexivity || lia). reflexivity.
Qed.

(** The two examples given next to [createSwizzle4] in the source. *)
Example swizzle_0123 :
  Swizzle 0 [10; 20; 30; 40] 0x0123 = [10; 20; 30; 40].
Proof. reflexivity. Qed.

Example swizzle_0033 :
  Swizzle 0 [10; 20; 30; 40] 0x0033 = [10; 10; 40; 40].
Proof. reflexivity. Qed.

(** *** Masks and two-operand shuffles *)

(** X7. [createMask4] blends two vectors: output lane [i] is lane [i] of
    [rhs] when some nibble of the selector names [i], else lane [i] of
    [lhs]. *)
Theorem mask_takes_named_lanes {A : Type} (undef a0 a1 a2 a3 b0 b1 b2 b3 : A)
  (s : Z) :
  createMask4 undef [a0; a1; a2; a3] [b0; b1; b2; b3] s
  = [ if names_lane s 0 then b0 else a0;
      if names_lane s 1 then b1 else a1;
      if names_lane s 2 then b2 else a2;
      if names_lane s 3 then b3 else a3 ].
Proof.
  unfold createMask4, names_lane, selected_lane. cbn [existsb].
  change (12 - 4 * Z.of_nat 0) with 12. change (12 - 4 * Z.of_nat 1) with 8.
  change (12 - 4 * Z.of_nat 2) with 4. change (12 - 4 * Z.of_nat 3) with 0.
  pose proof (land_3_lt_4 (Z.shiftr s 12)) as H12.
  pose proof (land_3_lt_4 (Z.shiftr s 8)) as H8.
  pose proof (land_3_lt_4 (Z.shiftr s 4)) as H4.
  pose proof (land_3_lt_4 (Z.shiftr s 0)) as H0.
  destruct (Z.to_nat (Z.land (Z.shiftr s 12) 3)) as [|[|[|[|?]]]]; try lia;
  destruct (Z.to_nat (Z.land (Z.shiftr s 8) 3)) as [|[|[|[|?]]]]; try lia;
  destruct (Z.to_nat (Z.land (Z.shiftr s 4) 3)) as [|[|[|[|?]]]]; try lia;
  destruct (Z.to_nat (Z.land (Z.shiftr s 0) 3)) as [|[|[|[|?]]]]; try lia;
  reflexivity.
Qed.

(** X8. [ShuffleLowHigh] takes its two low lanes from [x] and its two high
    lanes from [y], each chosen by the nibble of its position; on one
    vector twice it is [Swizzle]. *)
Theorem shuffleLowHigh_selects_by_nibble {A : Type}
  (undef x0 x1 x2 x3 y0 y1 y2 y3 : A) (imm : Z) :
  let x := [x0; x1; x2; x3] in
  let y := [y0; y1; y2; y3] in
  ShuffleLowHigh undef x y imm
  = [ nth (selected_lane imm 0) x undef; nth (selected_lane imm 1) x undef;
      nth (selected_lane imm 2) y undef; nth (selected_lane imm 3) y undef ] /\
  ShuffleLowHigh undef x x imm = Swizzle undef x imm.
Proof.
  cbn zeta. unfold ShuffleLowHigh, Swizzle, createSwizzle4, createShuffleVector,
    selected_lane.
  change (12 - 4 * Z.of_nat 0) with 12. change (12 - 4 * Z.of_nat 1) with 8.
  change (12 - 4 * Z.of_nat 2) with 4. change (12 - 4 * Z.of_nat 3) with 0.
  cbn [length firstn map].
  pose proof (land_3_lt_4 (Z.shiftr imm 12)) as H12.
  pose proof (land_3_lt_4 (Z.shiftr imm 8)) as H8.
  pose proof (land_3_lt_4 (Z.shiftr imm 4)) as H4.
  pose proof (land_3_lt_4 (Z.shiftr imm 0)) as H0.
  assert (Hlo : forall k, (Z.to_nat k < 4)%nat -> 0 <= k ->
            forall (l r : list A), length l = 4%nat ->
            nth (Z.to_nat (k + 0)) (l ++ r) undef = nth (Z.to_nat k) l undef).
  { intros k Hk _ l r Hl. rewrite Z.add_0_r. apply app_nth1. lia. }
  assert (Hhi : forall k, (Z.to_nat k < 4)%nat -> 0 <= k ->
            forall (l r : list A), length l = 4%nat ->
            nth (Z.to_nat (k + 4)) (l ++ r) undef = nth (Z.to_nat k) r undef).
  { intros k Hk Hk0 l r Hl. rewrite app_nth2 by lia. f_equal. lia. }
  assert (Hnn : forall z, 0 <= Z.land z 3).
  { intros z. apply Z.land_nonneg. right. lia. }
  split.
  - rewrite !Hlo, !Hhi by (auto using Hnn). reflexivity.
  - rewrite !Hlo, !Hhi by (auto using Hnn).
    rewrite !(app_nth1 [x0; x1; x2; x3]) by (cbn [length]; lia).
    reflexivity.
Qed.

(** *** Edits of the pass list *)

Section ConfigEditFacts.
Context {T : Type} `{EqDecision T}.

Lemma applyEdit_member (x : T) (l : list T) (edit : ListEdit * T) :
  bool_decide (x ∈ applyEdit l edit)
  = match fst edit with
    | Add => bool_decide (x ∈ l) || bool_decide (snd edit = x)
    | Remove => bool_decide (x ∈ l) && negb (bool_decide (snd edit = x))
    | Clear => false
    end.
Proof.
  destruct edit as [[] y]; cbn [fst snd applyEdit].
  - destruct (bool_decide_reflect (x ∈ l ++ [y])) as [Hin|Hin];
      destruct (bool_decide_reflect (x ∈ l)) as [Hl|Hl];
      destruct (bool_decide_reflect (y = x)) as [Hy|Hy]; cbn; try reflexivity;
      rewrite elem_of_app, list_elem_of_singleton in Hin; try tauto.
    + exfalso. destruct Hin; [tauto|congruence].
    + exfalso. apply Hin. right. congruence.
  - destruct (bool_decide_reflect (x ∈ List.filter
                  (fun item => negb (bool_decide (item = y))) l)) as [Hin|Hin];
      destruct (bool_decide_reflect (x ∈ l)) as [Hl|Hl];
      destruct (bool_decide_reflect (y = x)) as [Hy|Hy]; cbn; try reflexivity;
      rewrite list_elem_of_In, filter_In, <- list_elem_of_In,
        negb_true_iff, bool_decide_eq_false in Hin;
      try tauto.
    + exfalso. destruct Hin as [_ Hne]. congruence.
    + exfalso. apply Hin. split; [exact Hl|congruence].
  - apply bool_decide_eq_false, not_elem_of_nil.
Qed.

(** X9. After the edits a pass is listed exactly when the last edit that
    concerns it (an [Add] or a [Remove] of that pass, or a [Clear]) is an
    [Add], or, when no edit concerns it, when it was listed before. *)
Theorem edits_decide_membership (x : T) (edits : list (ListEdit * T))
  (items : list T) :
  x ∈ Edit_apply_list edits items
  <-> listedAfter x edits (bool_decide (x ∈ items)) = true.
Proof.
  unfold Edit_apply_list, listedAfter. revert items.
  induction edits as [|edit edits IH]; intros items; cbn [foldl].
  - symmetry. apply bool_decide_eq_true.
  - rewrite IH. now rewrite applyEdit_member.
Qed.
End ConfigEditFacts.

(** An edit that is not [Edit::None] but changes nothing leaves the
    configuration as it is, and one that only adds passes appends them in
    order. *)
Example edit_adds_in_order :
  Edit_apply (mkEdit nat nat false false 0%nat [(Add, 7%nat); (Add, 9%nat)])
             (mkOptimization nat nat 2%nat [1%nat])
  = mkOptimization nat nat 2%nat [1%nat; 7%nat; 9%nat].
Proof. reflexivity. Qed.

(** *** The life of a variable *)

Lemma materialize_settled x a y st :
  settled x a st -> settled x a (materialize y st).
Proof.
  intros [Ha Hr]. destruct (decide (y = x)) as [->|Hne].
  - unfold materialize. rewrite Ha. split; assumption.
  - destruct (materialize_other_fields x y st Hne) as [E1 E2].
    split; congruence.
Qed.

Lemma materialize_list_settled x a l st :
  settled x a st -> settled x a (foldl (fun s var => materialize var s) st l).
Proof.
  revert st. induction l as [|y l IH]; intros st H; cbn; auto.
  apply IH. now apply materialize_settled.
Qed.

Lemma materializeAll_settled x a st :
  settled x a st -> settled x a (materializeAll st).
Proof.
  intros H. unfold materializeAll.
  exact (materialize_list_settled x a _ st H).
Qed.

Lemma run_settled o x a st :
  o <> OpCtor x -> settled x a st -> settled x a (run o st).
Proof.
  intros Ho H. pose proof H as [Ha Hr].
  destruct o; cbn [run]; auto using materialize_settled.
  - (* another variable is constructed *)
    assert (x0 <> x) by congruence.
    split; cbn; rewrite lookup_delete_ne by assumption; assumption.
  - (* a store *)
    unfold storeValue. destruct (address st !! x0) eqn:Ha0; cbn; [exact H|].
    assert (x0 <> x) by congruence.
    split; cbn; [assumption|]. now rewrite lookup_insert_ne.
  - (* a load *)
    unfold loadValue. destruct (rvalue st !! x0); cbn; [exact H|].
    destruct (address st !! x0) eqn:Ha0.
    + rewrite Ha0. exact H.
    + pose proof (materialize_settled x a x0 st H) as H1.
      destruct (address (materialize x0 st) !! x0); cbn; exact H1.
  - unfold getBaseAddress. cbn. now apply materialize_settled.
  - unfold getElementPointer, getBaseAddress.
    pose proof (materialize_settled x a x0 st H) as H1.
    destruct (address (materialize x0 st) !! x0); cbn; exact H1.
  - unfold setInsertBlock. exact (materializeAll_settled x a st H).
  - exact (materializeAll_settled x a st H).
  - exact (materializeAll_settled x a st H).
Qed.

(** X10. Once a variable has its stack slot it keeps it: whatever the builder
    does next, short of constructing the variable anew, the slot is the
    same, no value is pending, and a store through the variable emits a
    store instruction to the slot and allocates nothing. *)
Theorem slot_is_kept (x : Var) (a v : Value) (ops : list Op) (st : State) :
  settled x a st -> ~ In (OpCtor x) ops ->
  let st' := runAll ops st in
  settled x a st' /\
  storeValue x v st' = (v, emit (IStore v a) st') /\
  entryBlock (snd (storeValue x v st')) = entryBlock st'.
Proof.
  intros H Hops. cbn zeta.
  assert (Hs : settled x a (runAll ops st)).
  { unfold runAll. revert st H. induction ops as [|o ops IH]; intros st H; cbn.
    - exact H.
    - apply IH.
      + intros Hin. apply Hops. now right.
      + apply run_settled; [|exact H]. intros ->. apply Hops. now left. }
  split; [exact Hs|]. destruct Hs as [Ha _].
  unfold storeValue. rewrite Ha. split; reflexivity.
Qed.

Lemma slot_is_kept_witness :
  let st := materialize 1%nat (snd (storeValue 1%nat 7%nat fresh_variable_state)) in
  let st' := runAll [OpCreateBr 5%nat; OpLoadValue 1%nat; OpCtor 2%nat] st in
  settled 1%nat 0%nat st' /\
  storeValue 1%nat 8%nat st' = (8%nat, emit (IStore 8%nat 0%nat) st') /\
  entryBlock (snd (storeValue 1%nat 8%nat st')) = entryBlock st'.
Proof.
  apply (slot_is_kept 1%nat 0%nat 8%nat
           [OpCreateBr 5%nat; OpLoadValue 1%nat; OpCtor 2%nat]).
  - split; reflexivity.
  - cbn. intros [H|[H|[H|[]]]]; discriminate H.
Defined.

Lemma materialize_coherent y st : coherent st -> coherent (materialize y st).
Proof.
  intros H x a Hx. destruct (decide (y = x)) as [->|Hne].
  - unfold materialize in *. destruct (address st !! x) eqn:Ha.
    + now apply (H x a).
    + cbn in *. destruct (rvalue st !! x) eqn:Hr; cbn in *.
      * unfold storeValue. cbn. rewrite lookup_insert_eq. cbn.
        apply lookup_delete_eq.
      * exact Hr.
  - destruct (materialize_other_fields x y st Hne) as [E1 E2].
    rewrite E2. apply (H x a). congruence.
Qed.

Lemma materializeAll_coherent st : coherent st -> coherent (materializeAll st).
Proof.
  intros H. unfold materializeAll.
  assert (G : forall l s, coherent s ->
                coherent (foldl (fun s var => materialize var s) s l)).
  { induction l as [|y l IH]; intros s Hs; cbn; auto.
    apply IH. now apply materialize_coherent. }
  exact (G _ _ H).
Qed.

Lemma run_coherent o st : coherent st -> coherent (run o st).
Proof.
  intros H. destruct o; cbn [run]; auto using materialize_coherent.
  - intros y a. cbn. destruct (decide (x = y)) as [->|Hne].
    + now rewrite lookup_delete_eq.
    + rewrite !lookup_delete_ne by assumption. apply H.
  - unfold storeValue. destruct (address st !! x) eqn:Ha; cbn; [exact H|].
    intros y a. cbn. intros Hy.
    rewrite lookup_insert_ne by congruence. now apply (H y a).
  - unfold loadValue. destruct (rvalue st !! x); cbn; [exact H|].
    destruct (address st !! x) eqn:Ha.
    + rewrite Ha. exact H.
    + pose proof (materialize_coherent x st H) as H1.
      destruct (address (materialize x st) !! x); cbn; exact H1.
  - unfold getBaseAddress. cbn. now apply materialize_coherent.
  - unfold getElementPointer, getBaseAddress.
    pose proof (materialize_coherent x st H) as H1.
    destruct (address (materialize x st) !! x); cbn; exact H1.
  - exact (materializeAll_coherent st H).
  - exact (materializeAll_coherent st H).
  - exact (materializeAll_coherent st H).
Qed.

(** X11. Whatever the builder is asked to do, in any order, no variable ever
    has a stack slot and a pending value at once: a value is either still
    pending or has been flushed to the slot. *)
Theorem slot_and_pending_value_exclude (ops : list Op) :
  coherent (runAll ops initialState).
Proof.
  unfold runAll.
  assert (G : forall st, coherent st -> coherent (foldl (fun s o => run o s) st ops)).
  { induction ops as [|o ops IH]; intros st Hs; cbn; auto.
    apply IH. now apply run_coherent. }
  apply G. intros x a Hx. cbn in Hx. rewrite lookup_empty in Hx. discriminate.
Qed.

(** A return drops what is pending: after [createRetVoid] the set of
    unmaterialized variables is empty, so the block boundary that
    follows allocates nothing and stores nothing. *)
Theorem return_drops_pending_values (st : State) (dest : BasicBlock) :
  let st1 := createRetVoid st in
  unmaterializedVariables st1 = ∅ /\
  rvalue st1 = rvalue st /\ address st1 = address st /\
  emitted (createBr dest st1) = emitted st ++ [IRet None; IBr dest] /\
  entryBlock (createBr dest st1) = entryBlock st.
Proof.
  cbn zeta. unfold createBr, createRetVoid, materializeAll, killUnmaterialized.
  cbn. rewrite elements_empty. cbn. rewrite <- app_assoc. auto.
Qed.

End ReactorFacts.

Module LoweringFacts.
Import Lowering.

Lemma pow2_pos w : 0 <= w -> 0 < 2 ^ w.
Proof. intros. apply Z.pow_pos_nonneg; lia. Qed.

Lemma pow2_double w : 0 <= w -> 2 ^ (2 * w) = 2 ^ w * 2 ^ w.
Proof. intros. replace (2 * w) with (w + w) by lia. now rewrite Z.pow_add_r. Qed.

Lemma pow2_succ w : 0 < w -> 2 ^ w = 2 * 2 ^ (w - 1).
Proof.
  intros. replace w with (Z.succ (w - 1)) at 1 by lia.
  rewrite Z.pow_succ_r by lia. reflexivity.
Qed.

Lemma wrap_small w x : 0 <= x < 2 ^ w -> wrap w x = x.
Proof. intros. unfold wrap. now apply Z.mod_small. Qed.

Lemma wrap_range w x : 0 <= w -> 0 <= wrap w x < 2 ^ w.
Proof. intros. unfold wrap. apply Z.mod_pos_bound. now apply pow2_pos. Qed.

Lemma signed_range w x :
  0 < w -> 0 <= x < 2 ^ w -> - 2 ^ (w - 1) <= signed w x < 2 ^ (w - 1).
Proof.
  intros Hw Hx. unfold signed. rewrite (pow2_succ w Hw) in Hx.
  destruct (Z.ltb_spec x (2 ^ (w - 1))); rewrite ?(pow2_succ w Hw); lia.
Qed.

Lemma wrap_signed w x : 0 < w -> wrap w (signed w x) = wrap w x.
Proof.
  intros Hw. unfold signed, wrap. destruct (x <? 2 ^ (w - 1)); [reflexivity|].
  replace (x - 2 ^ w) with (x + (-1) * 2 ^ w) by lia.
  apply Z.mod_add. pose proof (pow2_pos w). lia.
Qed.

Lemma signed_wrap w z :
  0 < w -> - 2 ^ (w - 1) <= z < 2 ^ (w - 1) -> signed w (wrap w z) = z.
Proof.
  intros Hw Hz. unfold signed, wrap.
  pose proof (pow2_succ w Hw) as E. pose proof (pow2_pos (w - 1) ltac:(lia)).
  destruct (Z.lt_ge_cases z 0) as [Hneg|Hpos].
  - replace (z mod 2 ^ w) with (z + 2 ^ w).
    + destruct (Z.ltb_spec (z + 2 ^ w) (2 ^ (w - 1))); lia.
    + symmetry. replace z with ((z + 2 ^ w) + (-1) * 2 ^ w) at 1 by lia.
      rewrite Z.mod_add by lia. apply Z.mod_small. lia.
  - rewrite Z.mod_small by lia.
    destruct (Z.ltb_spec z (2 ^ (w - 1))); lia.
Qed.

Lemma wrap_wrap_double w q : 0 <= w -> wrap w (wrap (2 * w) q) = wrap w q.
Proof.
  intros Hw. unfold wrap. apply Z.mod_mod_divide.
  exists (2 ^ w). now apply pow2_double.
Qed.

(** The high half of a product taken modulo [2^(2w)]. *)
Lemma high_half_mod w P :
  0 <= w -> ((P mod 2 ^ (2 * w)) / 2 ^ w) mod 2 ^ w = (P / 2 ^ w) mod 2 ^ w.
Proof.
  intros Hw. pose proof (pow2_pos w Hw) as Hp.
  rewrite pow2_double by lia.
  set (b := 2 ^ w) in *.
  assert (E : P / b = P mod (b * b) / b + (P / (b * b)) * b).
  { rewrite <- Z.div_add by lia. f_equal.
    rewrite (Z.div_mod P (b * b)) at 1 by nia. lia. }
  rewrite E. now rewrite Z.mod_add by lia.
Qed.

(** One lane of [lowerMulHigh], whichever extension was used: the
    extended operands [ex], [ey] stand for the integers [sx], [sy]. *)
Lemma mulHigh_lane w ex ey sx sy :
  0 < w -> wrap (2 * w) sx = ex -> wrap (2 * w) sy = ey ->
  wrap w (wrap (2 * w) (Z.shiftr (signed (2 * w) (wrap (2 * w) (ex * ey))) w))
  = wrap w (sx * sy / 2 ^ w).
Proof.
  intros Hw <- <-. rewrite wrap_wrap_double by lia.
  rewrite Z.shiftr_div_pow2 by lia.
  pose proof (pow2_pos w ltac:(lia)) as Hp.
  assert (Hpp : 0 < 2 ^ (2 * w)) by (apply pow2_pos; lia).
  set (M := wrap (2 * w) (wrap (2 * w) sx * wrap (2 * w) sy)).
  assert (HM : M = (sx * sy) mod 2 ^ (2 * w)).
  { subst M. unfold wrap. now rewrite <- Z.mul_mod by lia. }
  assert (Hs : wrap w (signed (2 * w) M / 2 ^ w) = wrap w (M / 2 ^ w)).
  { unfold signed. destruct (M <? 2 ^ (2 * w - 1)); [reflexivity|].
    unfold wrap. rewrite pow2_double by lia.
    replace (M - 2 ^ w * 2 ^ w) with (M + (- 2 ^ w) * 2 ^ w) by lia.
    rewrite Z.div_add by lia.
    replace (M / 2 ^ w + - 2 ^ w) with (M / 2 ^ w + (-1) * 2 ^ w) by lia.
    apply Z.mod_add. lia. }
  rewrite Hs, HM. unfold wrap. apply high_half_mod. lia.
Qed.

(** X12. [lowerMulHigh] gives the high half of the full product: of the
    unsigned values when the operands are zero extended, of the two's
    complement values when they are sign extended. *)
Theorem mulHigh_is_high_half (w : Z) (xs ys : list Z) :
  0 < w -> inRange w xs -> inRange w ys ->
  lowerMulHigh w xs ys false = zip_with (fun x y => x * y / 2 ^ w) xs ys /\
  lowerMulHigh w xs ys true
  = zip_with (fun x y => wrap w (signed w x * signed w y / 2 ^ w)) xs ys.
Proof.
  intros Hw Hx. revert ys.
  unfold lowerMulHigh, CreateTrunc, CreateAShr, CreateMul, CreateZExt, CreateSExt.
  induction Hx as [|x xs Hx0 _ IH]; intros ys Hy.
  - split; reflexivity.
  - destruct Hy as [|y ys Hy0 Hy]; [split; reflexivity|].
    destruct (IH ys Hy) as [IHu IHs]. cbn [map zip_with]. split.
    + rewrite IHu. f_equal.
      rewrite (mulHigh_lane w _ _ x y Hw eq_refl eq_refl).
      apply wrap_small. pose proof (pow2_pos w ltac:(lia)). split.
      * apply Z.div_pos; nia.
      * apply Z.div_lt_upper_bound; nia.
    + rewrite IHs. f_equal.
      apply (mulHigh_lane w _ _ (signed w x) (signed w y) Hw eq_refl eq_refl).
Qed.

Lemma mulHigh_is_high_half_witness :
  lowerMulHigh 16 [65535; 3] [65535; 5] false = [65534; 0] /\
  lowerMulHigh 16 [65535; 3] [65535; 5] true = [0; 0].
Proof.
  destruct (mulHigh_is_high_half 16 [65535; 3] [65535; 5]) as [Hu Hs].
  - lia.
  - repeat constructor; lia.
  - repeat constructor; lia.
  - split; [exact Hu|exact Hs].
Defined.


(** *** Packing with saturation *)

Lemma zip_with_repeat_r {A B C} (f : A -> B -> C) (l : list A) (c : B) :
  zip_with f l (repeat c (length l)) = map (fun a => f a c) l.
Proof. induction l as [|a l IH]; cbn; [reflexivity|now rewrite IH]. Qed.

Lemma lowerPMINMAX_splat w xs k c pred :
  length xs = k ->
  lowerPMINMAX w xs (splat w k c) pred
  = map (fun a => if icmp w pred a (wrap w c) then a else wrap w c) xs.
Proof.
  intros <-. unfold lowerPMINMAX, CreateSelect, CreateICmp, splat.
  induction xs as [|a xs IH]; cbn; [reflexivity|]. now rewrite IH.
Qed.

Lemma map_nth_seq_all {A} (d : A) (l : list A) n :
  n = length l -> map (fun k => nth k l d) (seq 0 n) = l.
Proof.
  intros ->. apply nth_ext with (d := d) (d' := d).
  - now rewrite length_map, length_seq.
  - intros i Hi. rewrite length_map, length_seq in Hi.
    rewrite (nth_indep _ d ((fun k => nth k l d) 0%nat))
      by (now rewrite length_map, length_seq).
    rewrite (map_nth (fun k => nth k l d)). now rewrite seq_nth.
Qed.

(** One lane through the two [lowerPMINMAX] calls and the truncation. *)
Lemma pack_lane n a lo hi :
  0 < n -> 0 <= a < 2 ^ (2 * n) ->
  - 2 ^ (2 * n - 1) <= lo -> lo <= hi -> hi < 2 ^ (2 * n - 1) ->
  wrap n
    (let a1 := if icmp (2 * n) ICMP_SGT a (wrap (2 * n) lo) then a
               else wrap (2 * n) lo in
     if icmp (2 * n) ICMP_SLT a1 (wrap (2 * n) hi) then a1 else wrap (2 * n) hi)
  = wrap n (clamp lo hi (signed (2 * n) a)).
Proof.
  intros Hn Ha Hlo Hle Hhi. cbn zeta. unfold icmp.
  rewrite !signed_wrap by lia.
  assert (Ea : wrap n a = wrap n (signed (2 * n) a)).
  { rewrite <- (wrap_wrap_double n (signed (2 * n) a)) by lia.
    rewrite wrap_signed by lia. rewrite (wrap_small (2 * n) a) by lia.
    reflexivity. }
  unfold clamp.
  destruct (Z.ltb_spec lo (signed (2 * n) a)) as [H1|H1].
  - destruct (Z.ltb_spec (signed (2 * n) a) hi) as [H2|H2].
    + rewrite Ea. f_equal. lia.
    + rewrite wrap_wrap_double by lia. f_equal. lia.
  - rewrite signed_wrap by lia.
    destruct (Z.ltb_spec lo hi) as [H2|H2].
    + rewrite wrap_wrap_double by lia. f_equal. lia.
    + rewrite wrap_wrap_double by lia. f_equal. lia.
Qed.

Lemma lowerPack_lanes (undef : Z) (n : Z) (xs ys : list Z) :
  0 < n -> inRange (2 * n) xs -> inRange (2 * n) ys ->
  length xs = length ys ->
  lowerPack undef (2 * n) xs ys true
  = map (fun x => wrap n (clamp (- 2 ^ (n - 1)) (2 ^ (n - 1) - 1)
                            (signed (2 * n) x))) (xs ++ ys) /\
  lowerPack undef (2 * n) xs ys false
  = map (fun x => clamp 0 (2 ^ n - 1) (signed (2 * n) x)) (xs ++ ys).
Proof.
  intros Hn Hx Hy Hlen. unfold inRange in Hx, Hy.
  rewrite List.Forall_forall in Hx, Hy.
  pose proof (pow2_pos (n - 1) ltac:(lia)) as Hp1.
  pose proof (pow2_succ n Hn) as Hp.
  assert (Hw : 2 ^ (2 * n - 1) = 2 ^ (n - 1) * 2 ^ n).
  { replace (2 * n - 1) with ((n - 1) + n) by lia.
    rewrite Z.pow_add_r by lia. reflexivity. }
  assert (Hdiv : 2 * n / 2 = n) by (rewrite Z.mul_comm; apply Z.div_mul; lia).
  assert (Hshuffle : forall (a b : list Z),
             length a = length xs -> length b = length xs ->
             CreateShuffleVector undef a b (seq 0 (length xs * 2)) = a ++ b).
  { intros a b Ha Hb. unfold CreateShuffleVector. apply map_nth_seq_all.
    rewrite length_app. lia. }
  unfold lowerPack. rewrite Hdiv. split.
  - cbv iota beta.
    rewrite (lowerPMINMAX_splat _ xs) by lia.
    rewrite (lowerPMINMAX_splat _ ys) by lia.
    rewrite !lowerPMINMAX_splat by (rewrite length_map; lia).
    unfold CreateTrunc. rewrite !map_map.
    rewrite Hshuffle by (rewrite length_map; lia).
    rewrite map_app. rewrite Z.shiftl_1_l, Z.shiftl_mul_pow2 by lia.
    f_equal; apply map_ext_in; intros a Ha.
    + specialize (Hx a Ha).
      replace (-1 * 2 ^ (n - 1)) with (- 2 ^ (n - 1)) by lia.
      apply (pack_lane n a (- 2 ^ (n - 1)) (2 ^ (n - 1) - 1)); try lia; nia.
    + specialize (Hy a Ha).
      replace (-1 * 2 ^ (n - 1)) with (- 2 ^ (n - 1)) by lia.
      apply (pack_lane n a (- 2 ^ (n - 1)) (2 ^ (n - 1) - 1)); try lia; nia.
  - cbv iota beta.
    rewrite (lowerPMINMAX_splat _ xs) by lia.
    rewrite (lowerPMINMAX_splat _ ys) by lia.
    rewrite !lowerPMINMAX_splat by (rewrite length_map; lia).
    unfold CreateTrunc. rewrite !map_map.
    rewrite Hshuffle by (rewrite length_map; lia).
    rewrite map_app. rewrite Z.shiftl_1_l.
    assert (Hlane : forall a, 0 <= a < 2 ^ (2 * n) ->
              wrap n
                (let a1 := if icmp (2 * n) ICMP_SGT a (wrap (2 * n) 0) then a
                           else wrap (2 * n) 0 in
                 if icmp (2 * n) ICMP_SLT a1 (wrap (2 * n) (2 ^ n - 1)) then a1
                 else wrap (2 * n) (2 ^ n - 1))
              = clamp 0 (2 ^ n - 1) (signed (2 * n) a)).
    { intros a Ha.
      rewrite (pack_lane n a 0 (2 ^ n - 1)); try lia; try nia.
      apply wrap_small. unfold clamp. lia. }
    f_equal; apply map_ext_in; intros a Ha.
    + apply Hlane, Hx, Ha.
    + apply Hlane, Hy, Ha.
Qed.

(** X13. [lowerPack] narrows every lane to half its width with saturation and
    lays the lanes of [x] before those of [y]: to the signed range of the
    narrow lane when [isSigned], else to its unsigned range; the lanes are
    read as two's complement numbers in both cases. *)
Theorem pack_saturates (undef : Z) (n : Z) (xs ys : list Z) :
  0 < n -> inRange (2 * n) xs -> inRange (2 * n) ys ->
  length xs = length ys ->
  lowerPack undef (2 * n) xs ys true
  = map (fun x => wrap n (clamp (- 2 ^ (n - 1)) (2 ^ (n - 1) - 1)
                            (signed (2 * n) x))) (xs ++ ys) /\
  lowerPack undef (2 * n) xs ys false
  = map (fun x => clamp 0 (2 ^ n - 1) (signed (2 * n) x)) (xs ++ ys).
Proof. exact (lowerPack_lanes undef n xs ys). Qed.

Lemma pack_saturates_witness :
  lowerPack 0 16 [40000; 200; 300; 65535] [0; 127; 128; 32768] true
  = [128; 127; 127; 255; 0; 127; 127; 128] /\
  lowerPack 0 16 [40000; 200; 300; 65535] [0; 127; 128; 32768] false
  = [0; 200; 255; 0; 0; 127; 128; 0].
Proof.
  destruct (pack_saturates 0 8 [40000; 200; 300; 65535] [0; 127; 128; 32768])
    as [Hs Hu].
  - lia.
  - repeat constructor; lia.
  - repeat constructor; lia.
  - reflexivity.
  - split; [exact Hs|exact Hu].
Defined.

(** X14. Two [Short4] packed to bytes: the low eight bytes are the saturated
    low four lanes of [x] followed by those of [y]; what the upper lanes
    of the two registers hold does not reach them. *)
Theorem pack_of_Short4_keeps_low_lanes (undef : Z) (x y : list Z) :
  length x = 8%nat -> length y = 8%nat -> inRange 16 x -> inRange 16 y ->
  firstn 8 (Pack_Short4 undef x y true)
  = map (fun a => wrap 8 (clamp (-128) 127 (signed 16 a)))
        (firstn 4 x ++ firstn 4 y) /\
  firstn 8 (Pack_Short4 undef x y false)
  = map (fun a => clamp 0 255 (signed 16 a)) (firstn 4 x ++ firstn 4 y).
Proof.
  intros Hlx Hly Hx Hy.
  destruct (lowerPack_lanes undef 8 x y ltac:(lia) Hx Hy ltac:(congruence))
    as [Hs Hu].
  unfold Pack_Short4. change 16 with (2 * 8). rewrite Hs, Hu. clear Hs Hu.
  destruct x as [|x0 [|x1 [|x2 [|x3 [|x4 [|x5 [|x6 [|x7 [|]]]]]]]]];
    try discriminate Hlx.
  destruct y as [|y0 [|y1 [|y2 [|y3 [|y4 [|y5 [|y6 [|y7 [|]]]]]]]]];
    try discriminate Hly.
  split; reflexivity.
Qed.

Lemma pack_of_Short4_keeps_low_lanes_witness :
  firstn 8 (Pack_Short4 0 [300; 65535; 5; 128; 1; 2; 3; 4]
                          [0; 127; 65408; 65407; 5; 6; 7; 8] true)
  = [127; 255; 5; 127; 0; 127; 128; 128].
Proof.
  destruct (pack_of_Short4_keeps_low_lanes 0 [300; 65535; 5; 128; 1; 2; 3; 4]
              [0; 127; 65408; 65407; 5; 6; 7; 8]) as [Hs _].
  - reflexivity.
  - reflexivity.
  - repeat constructor; lia.
  - repeat constructor; lia.
  - exact Hs.
Defined.

(** *** The sign mask *)

Lemma testbit_b2z_shiftl (b : bool) i j :
  0 <= i -> 0 <= j ->
  Z.testbit (Z.shiftl (Z.b2z b) i) j = b && (j =? i).
Proof.
  intros Hi Hj. destruct b; cbn [Z.b2z andb].
  - rewrite Z.shiftl_1_l. rewrite Z.pow2_bits_eqb by lia. apply Z.eqb_sym.
  - rewrite Z.shiftl_0_l. apply Z.bits_0.
Qed.

Lemma wrap_b2z retW (b : bool) : 0 < retW -> wrap retW (Z.b2z b) = Z.b2z b.
Proof.
  intros H. apply wrap_small. assert (1 < 2 ^ retW) by (apply Z.pow_gt_1; lia).
  destruct b; cbn; lia.
Qed.

Lemma wrap_b2z_shiftl retW (b : bool) i :
  0 <= i < retW ->
  wrap retW (Z.shiftl (wrap retW (Z.b2z b)) i) = Z.shiftl (Z.b2z b) i.
Proof.
  intros Hi. rewrite wrap_b2z by lia. apply wrap_small. rewrite Z.shiftl_mul_pow2 by lia.
  pose proof (pow2_pos i ltac:(lia)).
  pose proof (Z.pow_lt_mono_r 2 i retW ltac:(lia) ltac:(lia) ltac:(lia)).
  destruct b; cbn [Z.b2z]; lia.
Qed.

(** The loop of [lowerSignMask] over the lanes [1 .. m]. *)
Lemma signMask_loop retW (B : nat -> bool) m :
  Z.of_nat m < retW ->
  forall j : nat,
    Z.testbit
      (foldl (fun ret i =>
                Z.lor ret (wrap retW (Z.shiftl (wrap retW (Z.b2z (B i)))
                                               (Z.of_nat i))))
             (wrap retW (Z.b2z (B 0%nat))) (seq 1 m))
      (Z.of_nat j)
    = (j <=? m)%nat && B j.
Proof.
  induction m as [|m IH]; intros Hm j.
  - cbn [seq foldl].
    rewrite wrap_b2z by lia. rewrite <- (Z.shiftl_0_r (Z.b2z (B 0%nat))).
    rewrite testbit_b2z_shiftl by lia.
    destruct j as [|j]; cbn; [now rewrite andb_comm|apply andb_false_r].
  - rewrite seq_S, foldl_app. cbn [foldl]. rewrite Z.lor_spec.
    rewrite IH by lia. rewrite wrap_b2z_shiftl by lia.
    rewrite testbit_b2z_shiftl by lia. cbn [Nat.add].
    destruct (Nat.leb_spec j m) as [Hle|Hgt].
    + destruct (Nat.leb_spec j (S m)); [|lia].
      destruct (Z.eqb_spec (Z.of_nat j) (Z.of_nat (S m))); [lia|].
      cbn [andb]. now rewrite andb_false_r, orb_false_r.
    + cbn [andb orb]. destruct (Z.eqb_spec (Z.of_nat j) (Z.of_nat (S m))) as [E|E].
      * apply Nat2Z.inj in E. subst j.
        destruct (Nat.leb_spec (S m) (S m)); [|lia]. now rewrite andb_true_r.
      * destruct (Nat.leb_spec j (S m)); [lia|]. now rewrite andb_false_r.
Qed.

(** X15. [lowerSignMask] gathers the sign bits of the lanes: bit [i] of the
    result is set exactly when lane [i] exists and is negative. *)
Theorem signMask_collects_sign_bits (w : Z) (xs : list Z) (retW : Z) (i : nat) :
  0 < w -> Z.of_nat (length xs) <= retW -> 0 < retW ->
  Z.testbit (lowerSignMask w xs retW) (Z.of_nat i)
  = (i <? length xs)%nat && (signed w (nth i xs 0) <? 0).
Proof.
  intros Hw Hlen Hret. unfold lowerSignMask.
  set (cmp := CreateICmp w ICMP_SLT xs (splat w (length xs) 0)).
  rewrite (signMask_loop retW (fun i => nth i cmp false)) by lia.
  assert (Hcmp : nth i cmp false
                 = (i <? length xs)%nat && (signed w (nth i xs 0) <? 0)).
  { subst cmp. unfold CreateICmp, splat. rewrite zip_with_repeat_r.
    destruct (Nat.ltb_spec i (length xs)) as [Hi|Hi].
    - rewrite (nth_indep _ false ((fun a => icmp w ICMP_SLT a (wrap w 0)) 0))
        by (now rewrite length_map).
      rewrite (map_nth (fun a => icmp w ICMP_SLT a (wrap w 0))).
      cbn [andb icmp]. unfold wrap. rewrite Z.mod_0_l by (pose proof (pow2_pos w); lia).
      unfold signed at 2. pose proof (pow2_pos (w - 1) ltac:(lia)).
      destruct (Z.ltb_spec 0 (2 ^ (w - 1))); [reflexivity|lia].
    - rewrite nth_overflow by (now rewrite length_map). reflexivity. }
  rewrite Hcmp.
  destruct (Nat.ltb_spec i (length xs)) as [Hi|Hi]; cbn [andb].
  - destruct (Nat.leb_spec i (length xs - 1)); [reflexivity|lia].
  - apply andb_false_r.
Qed.

Lemma signMask_collects_sign_bits_witness :
  Z.testbit (lowerSignMask 32 [5; 4294967295; 0; 2147483648] 32) (Z.of_nat 3)
  = true.
Proof.
  rewrite (signMask_collects_sign_bits 32 [5; 4294967295; 0; 2147483648] 32 3);
    [reflexivity | lia | cbn; lia | lia].
Defined.

(** *** Widening constructors *)

Lemma sext_by_doubling s :
  0 <= s < 2 ^ 16 ->
  wrap 32 (Z.shiftr (signed 32 (s + 2 ^ 16 * s)) 16) = wrap 32 (signed 16 s).
Proof.
  intros Hs. f_equal. rewrite Z.shiftr_div_pow2 by lia.
  unfold signed. change (2 ^ (32 - 1)) with 2147483648.
  change (2 ^ (16 - 1)) with 32768. change (2 ^ 32) with 4294967296.
  change (2 ^ 16) with 65536 in *.
  destruct (Z.ltb_spec (s + 65536 * s) 2147483648);
    destruct (Z.ltb_spec s 32768); try lia.
  - symmetry. apply Z.div_unique with (r := s); lia.
  - symmetry. apply Z.div_unique with (r := s); lia.
Qed.

(** X16. The two ways [Int4] is built from a [Short4] or a [UShort4] agree:
    duplicating each lane and shifting right, or interleaving with zero,
    gives the sign, respectively zero, extension that [pmovsxwd],
    respectively [pmovzxwd], gives. *)
Theorem widening_paths_agree (undef : Z) (cast : list Z) :
  length cast = 8%nat -> inRange 16 cast ->
  Int4_of_Short4 undef false cast = Int4_of_Short4 undef true cast /\
  Int4_of_Short4 undef true cast = map (fun s => wrap 32 (signed 16 s)) (firstn 4 cast) /\
  Int4_of_UShort4 undef false cast = Int4_of_UShort4 undef true cast /\
  Int4_of_UShort4 undef true cast = firstn 4 cast.
Proof.
  intros Hlen Hr.
  destruct cast as [|s0 [|s1 [|s2 [|s3 [|s4 [|s5 [|s6 [|s7 [|]]]]]]]]];
    try discriminate Hlen. clear Hlen.
  unfold inRange in Hr. rewrite List.Forall_forall in Hr.
  assert (H0 := Hr s0 ltac:(cbn; auto)). assert (H1 := Hr s1 ltac:(cbn; auto)).
  assert (H2 := Hr s2 ltac:(cbn; auto 6)). assert (H3 := Hr s3 ltac:(cbn; auto 6)).
  clear Hr.
  assert (Hz : forall s, 0 <= s < 2 ^ 16 -> wrap 32 s = s).
  { intros s Hs. apply wrap_small. change (2 ^ 16) with 65536 in Hs.
    change (2 ^ 32) with 4294967296. lia. }
  split; [|split; [|split]].
  - cbn -[wrap signed Z.shiftr Z.pow Z.mul Z.add].
    now rewrite !sext_by_doubling.
  - reflexivity.
  - cbn -[wrap Z.pow Z.mul Z.add].
    change (wrap 16 0) with 0. rewrite !Z.mul_0_r, !Z.add_0_r.
    now rewrite !Hz.
  - cbn -[wrap]. now rewrite !Hz.
Qed.

Lemma widening_paths_agree_witness :
  Int4_of_Short4 0 false [1; 65535; 32768; 32767; 9; 9; 9; 9]
  = [1; 4294967295; 4294934528; 32767].
Proof.
  destruct (widening_paths_agree 0 [1; 65535; 32768; 32767; 9; 9; 9; 9])
    as (H1 & H2 & _).
  - reflexivity.
  - repeat constructor; lia.
  - rewrite H1, H2. reflexivity.
Defined.

(** *** [packusdw] without SSE4.1 *)

Lemma mod_shift x m k : 0 < m -> 0 <= x + k * m < m -> x mod m = x + k * m.
Proof.
  intros Hm H. replace x with ((x + k * m) + (- k) * m) at 1 by lia.
  rewrite Z.mod_add by lia. now apply Z.mod_small.
Qed.

Lemma packusdw_lane a :
  0 <= a < 2 ^ 32 ->
  wrap 16
    (wrap 16 (clamp (-32768) 32767
                (signed 32
                   (wrap 32 (Z.land a (wrap 32 (Z.lnot (wrap 32 (Z.shiftr (signed 32 a) 31))))
                             - wrap 32 32768))))
     + wrap 16 32768)
  = clamp 0 65535 (signed 32 a).
Proof.
  intros Ha. change (2 ^ 32) with 4294967296 in Ha.
  change (wrap 32 32768) with 32768. change (wrap 16 32768) with 32768.
  assert (Hsa : signed 32 a = if a <? 2147483648 then a else a - 4294967296)
    by reflexivity.
  rewrite Hsa. rewrite Z.shiftr_div_pow2 by lia. change (2 ^ 31) with 2147483648.
  assert (Hsig : forall z, - 2147483648 <= z < 2147483648 ->
                           signed 32 (wrap 32 z) = z).
  { intros z Hz. apply signed_wrap; [lia|].
    change (2 ^ (32 - 1)) with 2147483648. lia. }
  assert (Hw16 : forall z k, 0 <= z + k * 65536 < 65536 ->
                             wrap 16 z = z + k * 65536).
  { intros z k Hz. unfold wrap. change (2 ^ 16) with 65536.
    apply mod_shift; lia. }
  destruct (Z.ltb_spec a 2147483648) as [Hpos|Hneg].
  - (* a is not negative: the mask is all ones *)
    replace (a / 2147483648) with 0 by (symmetry; apply Z.div_small; lia).
    change (wrap 32 (Z.lnot (wrap 32 0))) with (Z.ones 32).
    rewrite Z.land_ones by lia. change (2 ^ 32) with 4294967296.
    rewrite Z.mod_small by lia.
    rewrite Hsig by lia. unfold clamp.
    destruct (Z.le_gt_cases a 65535) as [Hle|Hgt].
    + replace (Z.max (-32768) (Z.min 32767 (a - 32768))) with (a - 32768) by lia.
      destruct (Z.lt_ge_cases a 32768) as [Hs|Hb].
      * rewrite (Hw16 (a - 32768) 1) by lia.
        rewrite (Hw16 _ (-1)) by lia. lia.
      * rewrite (Hw16 (a - 32768) 0) by lia.
        rewrite (Hw16 _ 0) by lia. lia.
    + replace (Z.max (-32768) (Z.min 32767 (a - 32768))) with 32767 by lia.
      change (wrap 16 (wrap 16 32767 + 32768)) with 65535. lia.
  - (* a is negative: the mask is zero *)
    replace ((a - 4294967296) / 2147483648) with (-1)
      by (apply Z.div_unique with (r := a - 2147483648); lia).
    change (wrap 32 (Z.lnot (wrap 32 (-1)))) with 0.
    rewrite Z.land_0_r.
    unfold clamp.
    match goal with
    | |- ?l = _ => let v := eval vm_compute in l in change l with v
    end.
    lia.
Qed.

(** X17. Without SSE4.1 [packusdw] clears the negative lanes, moves the range
    down by [0x8000], packs with signed saturation and moves it up again:
    this is the unsigned saturation the SSE4.1 instruction performs. *)
Theorem packusdw_paths_agree (x y : list Z) :
  length x = 4%nat -> length y = 4%nat -> inRange 32 x -> inRange 32 y ->
  packusdw false x y = packusdw true x y.
Proof.
  intros Hlx Hly Hx Hy.
  destruct x as [|x0 [|x1 [|x2 [|x3 [|]]]]]; try discriminate Hlx.
  destruct y as [|y0 [|y1 [|y2 [|y3 [|]]]]]; try discriminate Hly.
  clear Hlx Hly. unfold inRange in Hx, Hy.
  rewrite List.Forall_forall in Hx, Hy.
  unfold packusdw, packssdw, x86_sse2_packssdw_128, x86_sse41_packusdw,
    CreateAdd, CreateSub, CreateAnd, CreateNot, CreateAShr, splat.
  cbn [repeat map zip_with app].
  rewrite !packusdw_lane
    by (first [apply Hx; cbn; tauto | apply Hy; cbn; tauto]).
  reflexivity.
Qed.

Lemma packusdw_paths_agree_witness :
  packusdw false [70000; 4294967295; 65535; 0] [1; 2147483648; 65536; 40000]
  = [65535; 0; 65535; 0; 1; 0; 65535; 40000].
Proof.
  rewrite (packusdw_paths_agree [70000; 4294967295; 65535; 0]
             [1; 2147483648; 65536; 40000]);
    [reflexivity | reflexivity | reflexivity
    | repeat constructor; lia | repeat constructor; lia].
Defined.

(** *** Multiply and add *)

Lemma evenOdd_shuffle W u U :
  forall c i pre rest,
    length pre = i -> length rest = (2 * c)%nat ->
    CreateAdd W
      (CreateShuffleVector u (pre ++ rest) U (fst (evenOdd c i)))
      (CreateShuffleVector u (pre ++ rest) U (snd (evenOdd c i)))
    = map (wrap W) (sumPairs rest).
Proof.
  unfold CreateAdd, CreateShuffleVector.
  induction c as [|c IH]; intros i pre rest Hpre Hrest.
  - destruct rest; [reflexivity|discriminate].
  - destruct rest as [|a [|b rest]]; [cbn in Hrest; lia | cbn in Hrest; lia |].
    cbn [evenOdd]. destruct (evenOdd c (i + 2)) as [ev od] eqn:E.
    cbn [fst snd map zip_with sumPairs].
    specialize (IH (i + 2)%nat (pre ++ [a; b]) rest).
    rewrite E in IH. cbn [fst snd] in IH.
    replace ((pre ++ [a; b]) ++ rest) with (pre ++ a :: b :: rest) in IH
      by (rewrite <- app_assoc; reflexivity).
    rewrite IH by (rewrite ?length_app; cbn in *; lia).
    assert (E0 : nth i ((pre ++ a :: b :: rest) ++ U) u = a).
    { rewrite <- app_assoc. rewrite app_nth2 by lia.
      replace (i - length pre)%nat with 0%nat by lia. reflexivity. }
    assert (E1 : nth (i + 1) ((pre ++ a :: b :: rest) ++ U) u = b).
    { rewrite <- app_assoc. rewrite app_nth2 by lia.
      replace (i + 1 - length pre)%nat with 1%nat by lia. reflexivity. }
    rewrite E0, E1. reflexivity.
Qed.

Lemma sumPairs_wrap W l :
  0 <= W -> map (wrap W) (sumPairs (map (wrap W) l)) = map (wrap W) (sumPairs l).
Proof.
  intros HW. pose proof (pow2_pos W HW).
  remember (length l) as n eqn:Hn. revert l Hn.
  induction n as [n IH] using lt_wf_ind. intros l ->.
  destruct l as [|a [|b l]]; try reflexivity.
  cbn [map sumPairs]. f_equal.
  - unfold wrap. now rewrite <- Z.add_mod by lia.
  - apply (IH (length l)); [cbn; lia|reflexivity].
Qed.

(** X18. [lowerMulAdd] on an even number of lanes: lane [k] of the result is
    the sum of the products of the lanes [2k] and [2k+1], read as two's
    complement numbers, in twice the width. *)
Theorem mulAdd_sums_products_of_pairs (undef w : Z) (xs ys : list Z) (c : nat) :
  0 < w -> length xs = (2 * c)%nat -> length ys = (2 * c)%nat ->
  lowerMulAdd undef w xs ys
  = map (wrap (2 * w))
        (sumPairs (zip_with (fun x y => signed w x * signed w y) xs ys)).
Proof.
  intros Hw Hlx Hly. unfold lowerMulAdd.
  assert (Hmult : CreateMul (2 * w) (CreateSExt w (2 * w) xs)
                    (CreateSExt w (2 * w) ys)
                  = map (wrap (2 * w))
                      (zip_with (fun x y => signed w x * signed w y) xs ys)).
  { unfold CreateMul, CreateSExt. clear Hlx Hly. revert ys.
    pose proof (pow2_pos (2 * w) ltac:(lia)).
    induction xs as [|x xs IH]; intros [|y ys]; try reflexivity.
    cbn [map zip_with]. rewrite IH. f_equal.
    unfold wrap. now rewrite <- Z.mul_mod by lia. }
  rewrite Hmult. rewrite Hlx.
  replace (Nat.div2 (2 * c + 1)) with c.
  2:{ clear. induction c as [|c IH]; [reflexivity|].
      replace (2 * S c + 1)%nat with (S (S (2 * c + 1))) by lia.
      cbn [Nat.div2]. now rewrite <- IH. }
  destruct (evenOdd c 0) as [ev od] eqn:E.
  pose proof (evenOdd_shuffle (2 * w) undef
                (repeat undef
                   (length (map (wrap (2 * w))
                      (zip_with (fun x y => signed w x * signed w y) xs ys))))
                c 0 []
                (map (wrap (2 * w))
                   (zip_with (fun x y => signed w x * signed w y) xs ys))
                eq_refl) as Hsh.
  rewrite E in Hsh. cbn [fst snd app] in Hsh.
  rewrite Hsh.
  - apply sumPairs_wrap. lia.
  - rewrite length_map, length_zip_with. lia.
Qed.

Lemma mulAdd_sums_products_of_pairs_witness :
  lowerMulAdd 0 16 [1; 2; 65535; 4] [10; 20; 30; 40] = [50; 130].
Proof.
  rewrite (mulAdd_sums_products_of_pairs 0 16 [1; 2; 65535; 4] [10; 20; 30; 40] 2);
    [reflexivity | lia | reflexivity | reflexivity].
Defined.

End LoweringFacts.

Module LimitationsFacts.
Import Limitations.

Lemma isConstExpr_spec n : isConstExpr n = true -> constantExpression n.
Proof. destruct n; cbn; try discriminate. constructor. Qed.

Lemma validateForLoopInit_sound line init r :
  validateForLoopInit line init = (r, []) ->
  exists declLine declTy declName initLine initTy symLine idx name symTy c,
    r = Some idx /\
    init = Some (TIntermAggregate declLine EOpDeclaration declTy declName
             [TIntermBinary initLine EOpInitialize initTy
                (TIntermSymbol symLine idx name symTy) c]) /\
    isIndexType (basicType symTy) /\ constantExpression c.
Proof.
  unfold validateForLoopInit, error.
  destruct init as [init|]; [|discriminate].
  destruct init as [| | | | |declLine op declTy declName declSeq| |];
    try discriminate.
  destruct op; try discriminate.
  destruct declSeq as [|declInit [|]]; try discriminate.
  destruct declInit as [| | |initLine op initTy lhs rhs| | | |];
    try discriminate.
  destruct op; try discriminate.
  destruct lhs as [symLine idx name symTy| | | | | | |]; try discriminate.
  destruct (negb (IsInteger (basicType symTy)) && negb (isFloat (basicType symTy)))
    eqn:Hty; [discriminate|].
  destruct (negb (isConstExpr rhs)) eqn:Hc; [discriminate|].
  intros [= <-].
  exists declLine, declTy, declName, initLine, initTy, symLine, idx, name, symTy, rhs.
  repeat split; auto.
  - unfold isIndexType. destruct (basicType symTy); cbn in Hty; auto; discriminate.
  - apply isConstExpr_spec. now destruct (isConstExpr rhs).
Qed.

Lemma validateForLoopInit_fail line init e :
  validateForLoopInit line init = (None, e) -> e <> [].
Proof.
  intros H ->. apply validateForLoopInit_sound in H.
  destruct H as (?&?&?&?&?&?&?&?&?&?&H&_). discriminate.
Qed.

Lemma isRelational_spec op :
  isRelational op = true ->
  In op [EOpLessThan; EOpLessThanEqual; EOpGreaterThan;
         EOpGreaterThanEqual; EOpEqual; EOpNotEqual].
Proof. destruct op; cbn; try discriminate; auto 10. Qed.

Lemma validateForLoopCond_sound line cond info b :
  validateForLoopCond line cond info = (b, []) ->
  exists condLine relop condTy cSymLine cName cSymTy c',
    cond = Some (TIntermBinary condLine relop condTy
             (TIntermSymbol cSymLine (index_id info) cName cSymTy) c') /\
    In relop [EOpLessThan; EOpLessThanEqual; EOpGreaterThan;
              EOpGreaterThanEqual; EOpEqual; EOpNotEqual] /\
    constantExpression c'.
Proof.
  unfold validateForLoopCond, error.
  destruct cond as [cond|]; [|discriminate].
  destruct cond as [| | |binLine op condTy lhs rhs| | | |]; try discriminate.
  destruct lhs as [symLine id name symTy| | | | | | |]; try discriminate.
  destruct (Z.eqb_spec id (index_id info)) as [->|]; cbn [negb]; [|discriminate].
  destruct (isRelational op) eqn:Hrel;
    destruct (isConstExpr rhs) eqn:Hc; cbn; try discriminate.
  intros _. exists binLine, op, condTy, symLine, name, symTy, rhs.
  split; [reflexivity|]. split.
  - now apply isRelational_spec.
  - now apply isConstExpr_spec.
Qed.

Lemma validateForLoopExpr_sound line expr info b :
  stepArityAsserted expr ->
  validateForLoopExpr line expr info = (b, []) ->
  exists step, expr = Some step /\ canonicalStep (index_id info) step.
Proof.
  unfold validateForLoopExpr, error. intros Hwf.
  destruct expr as [expr|]; [|discriminate].
  destruct expr as [| |uline op ty operand|bline op ty lhs rhs| | | |];
    try discriminate; cbn in Hwf |- *.
  - destruct operand as [symLine id name symTy| | | | | | |]; try discriminate.
    destruct (Z.eqb_spec id (index_id info)) as [->|]; cbn [negb]; [|discriminate].
    rewrite Hwf, orb_false_r.
    destruct (isIncDec op) eqn:Hop; cbn; [|discriminate].
    intros _. eexists. split; [reflexivity|]. constructor.
    destruct op; cbn in Hop; try discriminate; cbn; auto.
  - destruct lhs as [symLine id name symTy| | | | | | |]; try discriminate.
    destruct (Z.eqb_spec id (index_id info)) as [->|]; cbn [negb]; [|discriminate].
    rewrite Hwf. cbn [orb].
    destruct (isAddSubAssign op) eqn:Hop; cbn; [|discriminate].
    destruct (isConstExpr rhs) eqn:Hc; cbn; [|discriminate].
    intros _. eexists. split; [reflexivity|]. constructor.
    + destruct op; cbn in Hop; try discriminate; cbn; auto.
    + now apply isConstExpr_spec.
Qed.

Ltac split_matches :=
  repeat match goal with
         | |- context [match ?x with _ => _ end] => destruct x
         end.

Lemma validateForLoopCond_fail line cond info e :
  validateForLoopCond line cond info = (false, e) -> e <> [].
Proof.
  unfold validateForLoopCond, error. split_matches; cbn;
    intros [= <-]; discriminate.
Qed.

Lemma validateForLoopExpr_fail line expr info e :
  validateForLoopExpr line expr info = (false, e) -> e <> [].
Proof.
  unfold validateForLoopExpr, error.
  destruct expr as [expr|]; [|intros [= <-]; discriminate].
  destruct expr; cbn; split_matches; cbn; intros [= <-]; discriminate.
Qed.

Lemma visitLoop_sound traverseBody stack line type init cond expr body :
  stepArityAsserted expr ->
  snd (visitLoop traverseBody stack (TIntermLoop line type init cond expr body)) = [] ->
  canonicalForLoop (TIntermLoop line type init cond expr body).
Proof.
  intros Hwf. cbn.
  destruct type; cbn; try discriminate.
  unfold validateForLoopHeader.
  destruct (validateForLoopInit line init) as [[id|] e1] eqn:Hinit; cbn.
  2:{ intros ->. now apply validateForLoopInit_fail in Hinit. }
  destruct (validateForLoopCond line cond (mkLoopInfo id)) as [bc e2] eqn:Hcond.
  destruct bc; cbn.
  2:{ intros H. apply app_eq_nil in H as [-> ->].
      now apply validateForLoopCond_fail in Hcond. }
  destruct (validateForLoopExpr line expr (mkLoopInfo id)) as [be e3] eqn:Hexpr.
  assert (Hall : e1 ++ e2 ++ e3 = [] -> canonicalForLoop
                   (TIntermLoop line ELoopFor init cond expr body)).
  { intros H. apply app_eq_nil in H as [-> H]. apply app_eq_nil in H as [-> ->].
    apply validateForLoopInit_sound in Hinit.
    destruct Hinit as (declLine&declTy&declName&initLine&initTy&symLine&idx&
                       name&symTy&c&[= ->]&->&Hty&Hc).
    apply validateForLoopCond_sound in Hcond.
    destruct Hcond as (condLine&relop&condTy&cSymLine&cName&cSymTy&c'&->&Hrel&Hc').
    apply validateForLoopExpr_sound in Hexpr; auto.
    destruct Hexpr as (step&->&Hstep). cbn in *.
    now constructor. }
  destruct be; cbn.
  - destruct body; cbn; auto.
    intros H. apply Hall.
    rewrite app_assoc in H. apply app_eq_nil in H as [H _].
    now rewrite <- app_assoc in H.
  - intros H. apply app_eq_nil in H as [_ H]. apply app_eq_nil in H as [_ ->].
    now apply validateForLoopExpr_fail in Hexpr.
Qed.

(** A loop that the validator lets through without reporting an error
    is a [for] loop of the accepted form: one index whose basic type is
    int, uint or float, declared and initialised with a constant,
    compared on the left with a constant by one of the six comparisons,
    and stepped by [++], [--], [+= C] or [-= C] on that same index.
    Hence every [while] and [do]-[while] loop, and every loop that
    departs from that form, puts at least one error on the sink.  (The
    tree is as the [ASSERT]s of [validateForLoopExpr] expect: [++]/[--]
    on unary nodes, [+=]/[-=] on binary ones.) *)
Theorem accepted_loop_is_canonical
  (traverseBody : TLoopStack -> TIntermNode -> list ErrorMsg)
  (stack : TLoopStack) line type init cond expr body :
  stepArityAsserted expr ->
  let node := TIntermLoop line type init cond expr body in
  let reported := snd (visitLoop traverseBody stack node) in
  (reported = [] -> canonicalForLoop node) /\
  (type <> ELoopFor -> reported <> []) /\
  (~ canonicalForLoop node -> reported <> []).
Proof.
  intros Hwf node reported.
  assert (H : reported = [] -> canonicalForLoop node)
    by (apply visitLoop_sound; exact Hwf).
  split; [exact H|]. split.
  - intros Hty Hr. apply H in Hr. inversion Hr. congruence.
  - intros Hn Hr. apply Hn, H, Hr.
Qed.

Lemma accepted_loop_is_canonical_witness :
  stepArityAsserted
    (Some (TIntermUnary 1 EOpPreIncrement intTemp (TIntermSymbol 1 7 "i" intTemp))) /\
  (snd (visitLoop (fun _ _ => []) [] sampleFor) = [] -> canonicalForLoop sampleFor).
Proof.
  split; [reflexivity|].
  apply (accepted_loop_is_canonical (fun _ _ => []) [] 1 ELoopFor).
  reflexivity.
Defined.

(** C1. The index type is where the validator lets through more than a
    loop over an int, a uint or a float: [validateForLoopInit] looks at
    the basic type of the index only, under a comment that says the
    index has type int or float.  The loop
    [for(vec2 i = vec2(0.); i != vec2(4.); i += vec2(1.)) ;] has every
    other trait of the accepted form and a vector for index; its header
    is accepted with [i] as the loop index and nothing is reported,
    whatever the loop stack. *)
Theorem vector_index_loop_passes :
  loopIndexType vectorIndexFor = Some vec2Temp /\
  scalar vec2Temp = false /\
  ~ specifiedForLoop vectorIndexFor /\
  canonicalForLoop vectorIndexFor /\
  (forall (traverseBody : TLoopStack -> TIntermNode -> list ErrorMsg)
          (stack : TLoopStack),
     visitLoop traverseBody stack vectorIndexFor = (false, [])) /\
  validateForLoopInit 1
    (Some (TIntermAggregate 1 EOpDeclaration vec2Temp EmptyString
       [TIntermBinary 1 EOpInitialize vec2Temp
          (TIntermSymbol 1 7 "i" vec2Temp)
          (TIntermConstantUnion 1 vec2Literal)]))
  = (Some 7, []).
Proof.
  split; [reflexivity|]. split; [reflexivity|]. split; [|split].
  - intros [_ (ty & Hty & Hs)]. cbn in Hty. injection Hty as <-.
    discriminate Hs.
  - unfold vectorIndexFor. apply canonical_for.
    + right. right. reflexivity.
    + constructor.
    + cbn. tauto.
    + constructor.
    + apply step_assign; [cbn; tauto|constructor].
  - split; [|reflexivity]. intros traverseBody stack. reflexivity.
Qed.

(** The converse on the header: a loop of the accepted form is reported
    nothing about, whatever its body. *)
Lemma canonical_header_accepted node :
  canonicalForLoop node ->
  match node with
  | TIntermLoop line type init cond expr _ =>
      validateLoopType line type = (true, []) /\
      exists info, validateForLoopHeader line init cond expr = (Some info, [])
  | _ => False
  end.
Proof.
  intros H. destruct H as [line declLine declTy declName initLine initTy
    symLine idx name symTy c condLine relop condTy cSymLine cName cSymTy c'
    step body Hty Hc Hrel Hc' Hstep].
  split; [reflexivity|]. exists (mkLoopInfo idx).
  destruct Hc, Hc'. unfold validateForLoopHeader. cbn.
  assert (E : negb (IsInteger (basicType symTy)) && negb (isFloat (basicType symTy))
              = false) by (destruct Hty as [->|[->| ->]]; reflexivity).
  rewrite E. cbn. rewrite Z.eqb_refl. cbn.
  assert (R : isRelational relop = true)
    by (cbn in Hrel; intuition (subst; reflexivity)).
  rewrite R. cbn.
  destruct Hstep as [sl op sty0 ssl sn sty Hop | sl op sty0 ssl sn sty c2 Hop Hc2].
  - cbn. rewrite Z.eqb_refl. cbn.
    assert (I : isIncDec op = true) by (cbn in Hop; intuition (subst; reflexivity)).
    rewrite I. reflexivity.
  - destruct Hc2. cbn. rewrite Z.eqb_refl. cbn.
    assert (I : isAddSubAssign op = true)
      by (cbn in Hop; intuition (subst; reflexivity)).
    rewrite I, orb_true_r. reflexivity.
Qed.

Example sampleFor_accepted :
  visitLoop (fun _ _ => []) [] sampleFor = (false, []).
Proof. reflexivity. Qed.

Example while_rejected :
  snd (visitLoop (fun _ _ => []) [] (TIntermLoop 4 ELoopWhile None None None None))
  = [mkError 4 "This type of loop is not allowed" (TokText "while")].
Proof. reflexivity. Qed.

Lemma visitSymbol_false stack l :
  foldl (ValidateConstIndexExpr_visitSymbol stack) false l = false.
Proof. induction l; cbn; auto. Qed.

Lemma isConstIndexExpr_forallb stack l :
  foldl (ValidateConstIndexExpr_visitSymbol stack) true l
  = forallb (acceptsSymbol stack) l.
Proof.
  induction l as [|sym l IH]; cbn; auto.
  fold (acceptsSymbol stack sym).
  destruct (acceptsSymbol stack sym); cbn; auto using visitSymbol_false.
Qed.

Lemma notConstIndexSymbol_rejected stack sym :
  notConstIndexSymbol stack sym -> acceptsSymbol stack sym = false.
Proof.
  intros [Hq Hl]. unfold acceptsSymbol.
  destruct (qualifier (snd sym)); auto. congruence.
Qed.

Lemma isConstIndexExpr_false stack index :
  (exists sym, In sym (symbolsOf index) /\ notConstIndexSymbol stack sym) ->
  isConstIndexExpr stack index = false.
Proof.
  intros (sym & Hin & Hbad). unfold isConstIndexExpr.
  rewrite isConstIndexExpr_forallb.
  apply not_true_is_false. intros H.
  rewrite forallb_forall in H. specialize (H sym Hin).
  rewrite (notConstIndexSymbol_rejected _ _ Hbad) in H. discriminate.
Qed.

(** C3, as stated, fails: in a vertex shader, [u[k]] with [u] a uniform
    and [k] an ordinary variable is reported nothing about. *)
Lemma vertex_uniform_index_not_rejected : ~ indexingRejectedEverywhere.
Proof.
  intros H.
  apply (H GL_VERTEX_SHADER [] uniformArray variableIndex); [|reflexivity].
  exists (9, intTemp). split; [now left|]. split; [discriminate|reflexivity].
Qed.

(** C3, amended. Unless the shader is a vertex shader and the indexed
    operand a uniform, an index expression holding a symbol that is neither
    an [EvqConstExpr] constant nor the index of an enclosing loop makes
    [validateIndexing] fail and report that the index must be constant.
    For a uniform indexed in a vertex shader the check is skipped: only
    the integral-type check can report. *)
Theorem nonconstant_index_rejected
  (shaderType : Z) (stack : TLoopStack) (operand index : TIntermNode) :
  (exists sym, In sym (symbolsOf index) /\ notConstIndexSymbol stack sym) ->
  let result := validateIndexing shaderType stack operand index in
  (shaderType <> GL_VERTEX_SHADER \/ getQualifier operand <> EvqUniform ->
   fst result = false /\ In (constIndexError index) (snd result)) /\
  (shaderType = GL_VERTEX_SHADER /\ getQualifier operand = EvqUniform ->
   ~ In (constIndexError index) (snd result) /\
   (isScalarInt index = true -> result = (true, []))).
Proof.
  intros Hbad. apply isConstIndexExpr_false in Hbad.
  cbn zeta. unfold validateIndexing. rewrite Hbad. split.
  - intros Hns.
    assert (E : Z.eqb shaderType GL_VERTEX_SHADER &&
                match getQualifier operand with EvqUniform => true | _ => false end
                = false).
    { destruct Hns as [Hs|Hq].
      - apply Z.eqb_neq in Hs. now rewrite Hs.
      - destruct (getQualifier operand); try congruence;
          now rewrite andb_false_r. }
    rewrite E. cbn [negb andb].
    destruct (negb (isScalarInt index)); cbn; split; auto.
  - intros [-> Hq]. rewrite Hq. cbn [Z.eqb negb andb].
    change (GL_VERTEX_SHADER =? GL_VERTEX_SHADER) with true. cbn [negb andb].
    destruct (isScalarInt index); cbn.
    + split; auto.
    + split; [|discriminate]. intros [H|[]]. discriminate.
Qed.

Lemma nonconstant_index_rejected_witness :
  (exists sym, In sym (symbolsOf variableIndex) /\ notConstIndexSymbol [] sym) /\
  fst (validateIndexing GL_FRAGMENT_SHADER [] uniformArray variableIndex) = false.
Proof.
  assert (H : exists sym, In sym (symbolsOf variableIndex) /\
                          notConstIndexSymbol [] sym).
  { exists (9, intTemp). split; [now left|]. split; [discriminate|reflexivity]. }
  split; [exact H|].
  apply (nonconstant_index_rejected GL_FRAGMENT_SHADER [] uniformArray
           variableIndex H).
  left. discriminate.
Defined.

(** Inside a loop over [k] the same index is accepted. *)
Example loop_index_accepted :
  validateIndexing GL_FRAGMENT_SHADER [mkLoopInfo 9] localArray variableIndex
  = (true, []).
Proof. reflexivity. Qed.

Example variable_index_rejected :
  validateIndexing GL_FRAGMENT_SHADER [] localArray variableIndex
  = (false, [constIndexError variableIndex]).
Proof. reflexivity. Qed.

(** *** More on loops and indexing *)

(** X26. A loop of the accepted form passes: its header is reported nothing
    about and yields the loop's index, and what the validator reports for
    the loop is what it reports for the body, traversed with that index
    pushed on the loop stack. *)
Theorem canonical_loop_passes
  (traverseBody : TLoopStack -> TIntermNode -> list ErrorMsg)
  (stack : TLoopStack) line type init cond expr body :
  canonicalForLoop (TIntermLoop line type init cond expr body) ->
  exists info,
    validateForLoopHeader line init cond expr = (Some info, []) /\
    snd (visitLoop traverseBody stack (TIntermLoop line type init cond expr body))
    = match body with
      | Some b => traverseBody (stack ++ [info]) b
      | None => []
      end.
Proof.
  intros H. destruct (canonical_header_accepted _ H) as [Hty [info Hh]].
  exists info. split; [exact Hh|].
  cbn [visitLoop]. rewrite Hty, Hh. now destruct body.
Qed.

Lemma canonical_loop_passes_witness :
  canonicalForLoop sampleFor /\
  exists info,
    validateForLoopHeader 1
      (Some (TIntermAggregate 1 EOpDeclaration intTemp EmptyString
         [TIntermBinary 1 EOpInitialize intTemp
            (TIntermSymbol 1 7 "i" intTemp) (TIntermConstantUnion 1 intLiteral)]))
      (Some (TIntermBinary 1 EOpLessThan (mkType EbtBool EvqTemporary true)
         (TIntermSymbol 1 7 "i" intTemp) (TIntermConstantUnion 1 intLiteral)))
      (Some (TIntermUnary 1 EOpPreIncrement intTemp
         (TIntermSymbol 1 7 "i" intTemp)))
    = (Some info, []) /\
    snd (visitLoop (fun _ _ => []) [] sampleFor) = [].
Proof.
  assert (H : canonicalForLoop sampleFor).
  { unfold sampleFor. apply canonical_for.
    - left. reflexivity.
    - constructor.
    - cbn. tauto.
    - constructor.
    - apply step_incdec. cbn. tauto. }
  split; [exact H|].
  exact (canonical_loop_passes (fun _ _ => []) [] _ _ _ _ _ _ H).
Defined.

Lemma acceptsSymbol_spec stack sym :
  acceptsSymbol stack sym = true <->
  qualifier (snd sym) = EvqConstExpr \/ IsLoopIndex (fst sym) stack = true.
Proof.
  unfold acceptsSymbol.
  destruct (qualifier (snd sym)); intuition congruence.
Qed.

Lemma isConstIndexExpr_spec stack index :
  isConstIndexExpr stack index = true <->
  forall sym, In sym (symbolsOf index) ->
    qualifier (snd sym) = EvqConstExpr \/ IsLoopIndex (fst sym) stack = true.
Proof.
  unfold isConstIndexExpr. rewrite isConstIndexExpr_forallb, forallb_forall.
  split; intros H sym Hin; apply acceptsSymbol_spec, H, Hin.
Qed.

Lemma skip_spec shaderType operand :
  Z.eqb shaderType GL_VERTEX_SHADER &&
  match getQualifier operand with EvqUniform => true | _ => false end = true
  <-> shaderType = GL_VERTEX_SHADER /\ getQualifier operand = EvqUniform.
Proof.
  rewrite andb_true_iff, Z.eqb_eq.
  destruct (getQualifier operand); intuition congruence.
Qed.

Lemma validateIndexing_accepts shaderType stack operand index :
  validateIndexing shaderType stack operand index = (true, []) <->
  isScalarInt index = true /\
  ((shaderType = GL_VERTEX_SHADER /\ getQualifier operand = EvqUniform) \/
   forall sym, In sym (symbolsOf index) ->
     qualifier (snd sym) = EvqConstExpr \/ IsLoopIndex (fst sym) stack = true).
Proof.
  rewrite <- isConstIndexExpr_spec, <- skip_spec.
  unfold validateIndexing.
  set (skip := Z.eqb shaderType GL_VERTEX_SHADER &&
               match getQualifier operand with EvqUniform => true | _ => false end).
  destruct (isScalarInt index), skip, (isConstIndexExpr stack index);
    unfold error; cbn; intuition congruence.
Qed.

Lemma validateIndexing_valid shaderType stack operand index :
  fst (validateIndexing shaderType stack operand index) = true <->
  snd (validateIndexing shaderType stack operand index) = [].
Proof.
  unfold validateIndexing.
  set (skip := Z.eqb shaderType GL_VERTEX_SHADER &&
               match getQualifier operand with EvqUniform => true | _ => false end).
  destruct (isScalarInt index), skip, (isConstIndexExpr stack index);
    unfold error; cbn; intuition congruence.
Qed.

(** X27. When [validateIndexing] lets an indexing through: the result is
    [true] exactly when nothing is reported, and that is exactly when
    the index is a scalar integer and either the operand is a uniform of
    a vertex shader or every symbol of the index is a constant or the
    index of an enclosing loop. *)
Theorem indexing_accepted_iff (shaderType : Z) (stack : TLoopStack)
  (operand index : TIntermNode) :
  (fst (validateIndexing shaderType stack operand index) = true <->
   snd (validateIndexing shaderType stack operand index) = []) /\
  (validateIndexing shaderType stack operand index = (true, []) <->
   isScalarInt index = true /\
   ((shaderType = GL_VERTEX_SHADER /\ getQualifier operand = EvqUniform) \/
    forall sym, In sym (symbolsOf index) ->
      qualifier (snd sym) = EvqConstExpr \/ IsLoopIndex (fst sym) stack = true)).
Proof.
  split; [apply validateIndexing_valid|apply validateIndexing_accepts].
Qed.

Lemma IsLoopIndex_app id stack inner :
  IsLoopIndex id (stack ++ inner) = IsLoopIndex id stack || IsLoopIndex id inner.
Proof.
  induction stack as [|i stack IH]; cbn; [reflexivity|].
  destruct (index_id i =? id); [reflexivity|exact IH].
Qed.

(** X28. An indexing that passes at some depth of loops passes at every
    greater depth: loops entered later only add indices that may be
    used. *)
Theorem accepted_indexing_stays_accepted_deeper (shaderType : Z)
  (stack inner : TLoopStack) (operand index : TIntermNode) :
  validateIndexing shaderType stack operand index = (true, []) ->
  validateIndexing shaderType (stack ++ inner) operand index = (true, []).
Proof.
  rewrite !validateIndexing_accepts. intros [Hi [Hs|Hall]].
  - split; [exact Hi|left; exact Hs].
  - split; [exact Hi|right]. intros sym Hin.
    destruct (Hall sym Hin) as [Hq|Hl]; [left; exact Hq|right].
    rewrite IsLoopIndex_app, Hl. reflexivity.
Qed.

Lemma accepted_indexing_stays_accepted_deeper_witness :
  validateIndexing GL_FRAGMENT_SHADER [mkLoopInfo 9] localArray variableIndex
  = (true, []) /\
  validateIndexing GL_FRAGMENT_SHADER ([mkLoopInfo 9] ++ [mkLoopInfo 3])
    localArray variableIndex = (true, []).
Proof.
  split; [reflexivity|].
  apply (accepted_indexing_stays_accepted_deeper GL_FRAGMENT_SHADER
           [mkLoopInfo 9] [mkLoopInfo 3] localArray variableIndex).
  reflexivity.
Defined.

(** The number of messages of each part of the header. *)
Lemma validateForLoopInit_messages line init :
  match validateForLoopInit line init with
  | (Some _, e) => e = []
  | (None, e) => length e = 1%nat
  end.
Proof.
  unfold validateForLoopInit.
  destruct init as [init|]; [|reflexivity].
  destruct init as [| | | | |l op t n seq| |]; try reflexivity.
  destruct op; try reflexivity.
  destruct seq as [|d [|d' seq]]; try reflexivity.
  destruct d as [| | |l1 op1 t1 lhs rhs| | | |]; try reflexivity.
  destruct op1; try reflexivity.
  destruct lhs; try reflexivity.
  destruct (_ && _); [reflexivity|].
  destruct (negb (isConstExpr rhs)); reflexivity.
Qed.

Lemma validateForLoopCond_messages line cond info :
  match validateForLoopCond line cond info with
  | (true, e) =>
    e = [] \/
    exists binLine op ty lhs rhs,
      cond = Some (TIntermBinary binLine op ty lhs rhs) /\
      isRelational op = false /\
      e = error binLine "Invalid relational operator" (TokOperatorString op)
  | (false, e) => (1 <= length e <= 2)%nat
  end.
Proof.
  unfold validateForLoopCond.
  destruct cond as [cond|]; [|cbn; lia].
  destruct cond as [| | |l op t lhs rhs| | | |]; try (cbn; lia).
  destruct lhs; try (cbn; lia).
  destruct (negb (_ =? _)); [cbn; lia|].
  destruct (isRelational op) eqn:Hr;
    destruct (negb (isConstExpr rhs)); cbn; try lia; [left; reflexivity|].
  right. exists l, op, t. eexists. exists rhs. auto.
Qed.

Lemma validateForLoopExpr_messages line expr info :
  match validateForLoopExpr line expr info with
  | (true, e) => e = []
  | (false, e) => length e = 1%nat
  end.
Proof.
  unfold validateForLoopExpr.
  destruct expr as [expr|]; [|reflexivity].
  destruct expr as [| |l op t operand|l op t lhs rhs| | | |]; try reflexivity.
  - destruct operand; try reflexivity.
    destruct (negb (_ =? _)); [reflexivity|].
    destruct (negb (_ || _)); reflexivity.
  - destruct lhs; try reflexivity.
    destruct (negb (_ =? _)); [reflexivity|].
    destruct (negb (_ || _)); [reflexivity|].
    destruct (negb (isConstExpr rhs)); reflexivity.
Qed.

(** X29. What a loop header can put on the sink: never more than two
    messages; at least one when the header is rejected; and when it is
    accepted, nothing, except that a condition whose operator is not a
    comparison is reported as such and accepted all the same. *)
Theorem header_messages (line : TSourceLoc)
  (init cond expr : option TIntermNode) :
  let result := validateForLoopHeader line init cond expr in
  (length (snd result) <= 2)%nat /\
  (fst result = None -> snd result <> []) /\
  (fst result <> None ->
   snd result = [] \/
   exists binLine op ty lhs rhs,
     cond = Some (TIntermBinary binLine op ty lhs rhs) /\
     isRelational op = false /\
     snd result
     = error binLine "Invalid relational operator" (TokOperatorString op)).
Proof.
  cbn zeta. unfold validateForLoopHeader.
  pose proof (validateForLoopInit_messages line init) as Hi.
  destruct (validateForLoopInit line init) as [[id|] e1].
  - subst e1.
    pose proof (validateForLoopCond_messages line cond (mkLoopInfo id)) as Hc.
    destruct (validateForLoopCond line cond (mkLoopInfo id)) as [[|] e2].
    + pose proof (validateForLoopExpr_messages line expr (mkLoopInfo id)) as He.
      destruct (validateForLoopExpr line expr (mkLoopInfo id)) as [[|] e3].
      * subst e3. cbn. rewrite app_nil_r.
        split; [|split; [discriminate|intros _; exact Hc]].
        destruct Hc as [->|(? & ? & ? & ? & ? & _ & _ & ->)]; cbn; lia.
      * cbn. split; [|split; [|congruence]].
        -- rewrite length_app.
           destruct Hc as [->|(? & ? & ? & ? & ? & _ & _ & ->)]; cbn; lia.
        -- intros _ E. apply (f_equal (@length _)) in E.
           rewrite length_app in E. cbn in E. lia.
    + cbn. split; [lia|]. split; [|congruence].
      intros _ E. rewrite E in Hc. cbn in Hc. lia.
  - cbn. split; [lia|]. split; [|congruence].
    intros _ E. rewrite E in Hi. discriminate.
Qed.

(** [for(int i = 0; i + 4; ++i)]: reported, and accepted. *)
Example header_accepted_with_message :
  validateForLoopHeader 1
    (Some (TIntermAggregate 1 EOpDeclaration intTemp EmptyString
       [TIntermBinary 1 EOpInitialize intTemp
          (TIntermSymbol 1 7 "i" intTemp) (TIntermConstantUnion 1 intLiteral)]))
    (Some (TIntermBinary 1 (EOpOtherOperator 0) intTemp
       (TIntermSymbol 1 7 "i" intTemp) (TIntermConstantUnion 1 intLiteral)))
    (Some (TIntermUnary 1 EOpPreIncrement intTemp (TIntermSymbol 1 7 "i" intTemp)))
  = (Some (mkLoopInfo 7),
     [mkError 1 "Invalid relational operator"
        (TokOperatorString (EOpOtherOperator 0))]).
Proof. reflexivity. Qed.

(** *** Function calls in loop bodies *)

Section CallFacts.
Variable paramQualifier : string -> nat -> TQualifier.

Lemma checkArguments_fold stack name pre params valid errs :
  foldl (checkArgument paramQualifier name (pre ++ params)) (valid, errs)
    (loopIndexArguments stack params (length pre))
  = let found :=
      omap (outArgumentError paramQualifier stack name)
        (imap (fun j param => (length pre + j, param)%nat) params) in
    (valid && match found with [] => true | _ => false end, errs ++ found).
Proof.
  revert pre valid errs.
  induction params as [|param rest IH]; intros pre valid errs.
  - cbn. now rewrite andb_true_r, app_nil_r.
  - cbn zeta in *. rewrite imap_cons. cbn [loopIndexArguments omap list_omap].
    assert (Hrest : imap ((fun j param0 => ((length pre + j)%nat, param0)) ∘ S) rest
                    = imap (fun j param0 => ((length (pre ++ [param]) + j)%nat, param0))
                        rest).
    { apply imap_ext. intros j x _. cbn. rewrite length_app. cbn.
      f_equal. lia. }
    rewrite Hrest.
    assert (Hfull : pre ++ param :: rest = (pre ++ [param]) ++ rest)
      by now rewrite <- app_assoc.
    assert (HS : S (length pre) = length (pre ++ [param]))
      by (rewrite length_app; cbn; lia).
    assert (Hlook : (pre ++ param :: rest) !! length pre = Some param)
      by (rewrite lookup_app_r by lia; now rewrite Nat.sub_diag).
    rewrite Nat.add_0_r.
    assert (Ho : outArgumentError paramQualifier stack name (length pre, param)
                 = match param with
                   | TIntermSymbol line id symbol _ =>
                     if IsLoopIndex id stack &&
                        match paramQualifier name (length pre) with
                        | EvqOut | EvqInOut => true
                        | _ => false
                        end
                     then Some (mkError line outArgumentReason (TokText symbol))
                     else None
                   | _ => None
                   end) by reflexivity.
    rewrite Ho. clear Ho.
    destruct param as [l id sym ty| | | | | | |];
      try (rewrite HS, Hfull; apply IH).
    destruct (IsLoopIndex id stack) eqn:Hl; cbn [andb];
      [|rewrite HS, Hfull; apply IH].
    cbn [foldl]. unfold checkArgument at 2. rewrite Hlook. cbn [snd].
    destruct (paramQualifier name (length pre));
      rewrite HS, Hfull, IH; cbn zeta; unfold error;
      rewrite ?andb_false_r, <- ?app_assoc; reflexivity.
Qed.

Lemma loopIndexArguments_outside params i :
  loopIndexArguments [] params i = [].
Proof.
  revert i. induction params as [|param rest IH]; intros i; [reflexivity|].
  cbn. rewrite IH. now destruct param.
Qed.

(** X30. Inside loops, a call is reported once for each argument that is a
    loop index handed to an [out] or [inout] parameter, in the order of
    the arguments, and for nothing else; outside loops it is reported
    nothing about.  The call is valid exactly when nothing is reported. *)
Theorem call_reported_for_loop_index_out_arguments (stack : TLoopStack)
  (line : TSourceLoc) (op : TOperator) (type : TType) (name : string)
  (params : list TIntermNode) :
  let result :=
    validateFunctionCall paramQualifier stack
      (TIntermAggregate line op type name params) in
  snd result
  = omap (outArgumentError paramQualifier stack name) (imap pair params) /\
  (fst result = true <-> snd result = []) /\
  (stack = [] -> result = (true, [])).
Proof.
  cbn zeta. cbn [validateFunctionCall].
  pose proof (checkArguments_fold stack name [] params true []) as H.
  cbn [app length Nat.add andb] in H.
  assert (Hnone : loopIndexArguments stack params 0 = [] ->
                  omap (outArgumentError paramQualifier stack name)
                    (imap pair params) = []).
  { intros E. rewrite E in H. cbn in H.
    injection H as H1 H2. symmetry. exact H2. }
  assert (Hempty : stack = [] -> loopIndexArguments stack params 0 = [])
    by (intros ->; apply loopIndexArguments_outside).
  destruct (withinLoopBody stack) eqn:Hw; cbn [negb].
  - assert (Hne : stack <> []) by (intros ->; discriminate Hw).
    destruct (loopIndexArguments stack params 0) as [|i pIndex] eqn:Hp.
    + rewrite Hnone by reflexivity. cbn.
      split; [reflexivity|]. split; [split; reflexivity|]. intros E. congruence.
    + rewrite H. cbn [fst snd app].
      split; [reflexivity|]. split; [|intros E; congruence].
      destruct (omap _ _); cbn; split; intros; congruence.
  - assert (Hnil : stack = []) by (destruct stack; [reflexivity|discriminate Hw]).
    cbn. rewrite Hnone by (apply Hempty; exact Hnil).
    split; [reflexivity|]. split; [split; reflexivity|intros _; reflexivity].
Qed.
End CallFacts.

(** [f(i, k)] in the body of a loop over [i], with [f]'s first
    parameter an [out] one. *)
Example call_with_index_as_out_argument :
  validateFunctionCall (fun _ i => match i with O => EvqOut | _ => EvqIn end)
    [mkLoopInfo 7] sampleCall
  = (false, [mkError 5 outArgumentReason (TokText "i")]).
Proof. reflexivity. Qed.

End LimitationsFacts.

Module PPInputFacts.
Import PPInput.

(** Two reads of [joinedContinuation]: the backslash and the newline are
    dropped and the line number goes from 1 to 2. *)
Example continuation_across_strings :
  exists r1 r2,
    read joinedContinuation 16 1 = Some r1 /\
    read (after r1) 16 (lineNo r1) = Some r2 /\
    buf r1 ++ buf r2 = cstr "ab" /\ lineNo r2 = 2 /\
    sIndex (mReadLoc (after r2)) = mCount joinedContinuation.
Proof. do 2 eexists. repeat split; vm_compute; reflexivity. Qed.

(** C2 fails on [splitContinuation]. The text is [a], backslash, newline,
    [b]; the two reads hand all of it to the caller, backslash and newline
    included, and the line number stays 1.  After the backslash
    [skipChar] stops on the empty string, whose first character is its
    terminator, not the newline of the string after it. *)
Theorem continuation_lost_at_empty_string :
  sourceText splitContinuation = cstr "a" ++ [backslash; newline] ++ cstr "b" /\
  exists r1 r2,
    read splitContinuation 16 1 = Some r1 /\
    read (after r1) 16 (lineNo r1) = Some r2 /\
    buf r1 = cstr "a" /\ nRead r1 = 1 /\
    buf r2 = [backslash; newline] ++ cstr "b" /\ nRead r2 = 3 /\
    lineNo r2 = 1 /\
    sIndex (mReadLoc (after r2)) = mCount splitContinuation.
Proof.
  split; [reflexivity|].
  do 2 eexists. repeat split; vm_compute; reflexivity.
Qed.

(** *** Inputs without empty strings *)

Lemma spliced_plain pre t :
  noBackslash pre ->
  spliced (pre ++ t) = (pre ++ fst (spliced t), snd (spliced t)).
Proof.
  induction 1 as [|c pre Hc _ IH]; cbn [app].
  - now destruct (spliced t).
  - cbn [spliced]. rewrite Hc, IH. reflexivity.
Qed.

Lemma skipn_nth {A} (d : A) n (l : list A) :
  (n < length l)%nat -> skipn n l = nth n l d :: skipn (S n) l.
Proof.
  revert l. induction n as [|n IH]; intros [|x l] H; cbn in *; try lia; auto.
  apply IH. lia.
Qed.

Lemma concat_skipn_nth {A} n (L : list (list A)) :
  (n < length L)%nat ->
  concat (skipn n L) = nth n L [] ++ concat (skipn (S n) L).
Proof. intros H. now rewrite (skipn_nth [] n L H). Qed.

Lemma skipn_firstn_split {A} n k (l : list A) :
  skipn n l = firstn k (skipn n l) ++ skipn (n + k) l.
Proof.
  rewrite <- (firstn_skipn k (skipn n l)) at 1. f_equal.
  rewrite skipn_skipn. f_equal. lia.
Qed.

(** Reading the well-formedness of the location. *)
Lemma wf_lengthAt this s :
  wellFormed this -> 0 <= s ->
  lengthAt this s = Z.of_nat (length (stringAt this s)).
Proof.
  intros H Hs. unfold lengthAt, stringAt. rewrite (wf_length _ H).
  destruct (Nat.lt_ge_cases (Z.to_nat s) (length (mString this))) as [Hlt|Hge].
  - rewrite (nth_indep _ 0 (Z.of_nat (length (@nil ascii))))
      by (rewrite length_map; exact Hlt).
    now rewrite (map_nth (fun s => Z.of_nat (length s))).
  - rewrite !nth_overflow; auto. now rewrite length_map.
Qed.

Lemma wf_string_nonempty this s :
  wellFormed this -> 0 <= s < mCount this -> 0 < lengthAt this s < 2 ^ 64.
Proof.
  intros H Hs. rewrite (wf_lengthAt _ _ H) by lia.
  rewrite (wf_count _ H) in Hs.
  pose proof (wf_nonempty _ H) as Hne. pose proof (wf_size_t _ H) as Hsz.
  rewrite Forall_forall in Hne, Hsz.
  assert (Hin : In (stringAt this s) (mString this)).
  { unfold stringAt. apply nth_In. lia. }
  apply list_elem_of_In in Hin.
  specialize (Hne _ Hin). specialize (Hsz _ Hin).
  destruct (stringAt this s); [congruence|]. cbn [length] in *. lia.
Qed.

Lemma charAt_nth str c :
  0 <= c -> charAt str c = nth (Z.to_nat c) str NUL.
Proof. intros H. unfold charAt. destruct (Z.ltb_spec c 0); [lia|reflexivity]. Qed.

Lemma remainingText_set_loc this s c :
  remainingText (set_loc this s c)
  = skipn (Z.to_nat c) (stringAt this s) ++
    concat (skipn (S (Z.to_nat s)) (mString this)).
Proof. reflexivity. Qed.

Lemma wf_set_loc this s c :
  wellFormed this -> 0 <= s <= mCount this ->
  (if s <? mCount this then 0 <= c < lengthAt this s else c = 0) ->
  wellFormed (set_loc this s c).
Proof.
  intros H Hs Hc. destruct H. constructor; auto.
Qed.

Lemma this_is_set_loc this :
  this = set_loc this (sIndex (mReadLoc this)) (cIndex (mReadLoc this)).
Proof. destruct this as [? ? ? []]. reflexivity. Qed.

(** On a character: the text to come starts with it. *)
Lemma remainingText_at this :
  wellFormed this -> sIndex (mReadLoc this) < mCount this ->
  remainingText this
  = deref this (mReadLoc this) ::
    remainingText (set_loc this (sIndex (mReadLoc this))
                     (cIndex (mReadLoc this) + 1)).
Proof.
  intros H Hs. pose proof (wf_sIndex _ H) as Hs0. pose proof (wf_cIndex _ H) as Hc.
  apply Z.ltb_lt in Hs. rewrite Hs in Hc. apply Z.ltb_lt in Hs.
  rewrite (wf_lengthAt _ _ H) in Hc by lia.
  rewrite remainingText_set_loc. unfold remainingText, deref.
  fold (stringAt this (sIndex (mReadLoc this))).
  rewrite charAt_nth by lia.
  rewrite (skipn_nth NUL (Z.to_nat (cIndex (mReadLoc this)))) by lia.
  cbn [app]. do 3 f_equal. lia.
Qed.

(** At the very end nothing is to come. *)
Lemma remainingText_end this :
  wellFormed this -> mCount this <= sIndex (mReadLoc this) ->
  remainingText this = [].
Proof.
  intros H Hs. pose proof (wf_sIndex _ H) as Hs0. pose proof (wf_count _ H) as Hn.
  unfold remainingText.
  rewrite nth_overflow by lia. rewrite skipn_nil.
  rewrite skipn_all2 by lia. reflexivity.
Qed.

(** Past the last character of a string the text to come is that of the
    next string. *)
Lemma remainingText_next this s :
  wellFormed this -> 0 <= s < mCount this ->
  remainingText (set_loc this s (lengthAt this s))
  = remainingText (set_loc this (s + 1) 0).
Proof.
  intros H Hs. rewrite !remainingText_set_loc.
  rewrite (wf_lengthAt _ _ H) by lia. rewrite Nat2Z.id.
  rewrite skipn_all. cbn [app skipn Z.to_nat].
  pose proof (wf_count _ H) as Hn.
  replace (Z.to_nat (s + 1)) with (S (Z.to_nat s)) by lia.
  unfold stringAt. replace (Z.to_nat (s + 1)) with (S (Z.to_nat s)) by lia.
  destruct (Nat.lt_ge_cases (S (Z.to_nat s)) (length (mString this))).
  - rewrite (concat_skipn_nth _ _ H0). reflexivity.
  - rewrite nth_overflow by lia.
    rewrite (skipn_all2 (n := S (Z.to_nat s))) by lia.
    rewrite (skipn_all2 (n := S (S (Z.to_nat s)))) by lia. reflexivity.
Qed.

(** [skipChar] on a character steps over it. *)
Lemma skipChar_spec this :
  wellFormed this -> sIndex (mReadLoc this) < mCount this ->
  let this1 := snd (skipChar this) in
  wellFormed this1 /\
  remainingText this = deref this (mReadLoc this) :: remainingText this1 /\
  fst (skipChar this)
  = (if sIndex (mReadLoc this1) <? mCount this1
     then Some (mReadLoc this1) else None).
Proof.
  intros H Hs. cbn zeta. pose proof (wf_sIndex _ H) as Hs0.
  pose proof (wf_cIndex _ H) as Hc.
  apply Z.ltb_lt in Hs. rewrite Hs in Hc. apply Z.ltb_lt in Hs.
  rewrite (remainingText_at _ H Hs).
  unfold skipChar.
  destruct (Z.eqb_spec (cIndex (mReadLoc this) + 1)
              (lengthAt this (sIndex (mReadLoc this)))) as [E|E].
  - (* the last character of the string *)
    rewrite E, (remainingText_next _ _ H) by lia.
    assert (Hwf : wellFormed (set_loc this (sIndex (mReadLoc this) + 1) 0)).
    { apply wf_set_loc; [exact H|lia|].
      destruct (Z.ltb_spec (sIndex (mReadLoc this) + 1) (mCount this)); auto.
      pose proof (wf_string_nonempty this (sIndex (mReadLoc this) + 1) H). lia. }
    cbn [mCount set_loc].
    destruct (Z.leb_spec (mCount this) (sIndex (mReadLoc this) + 1)) as [L|L];
      cbn [fst snd mReadLoc set_loc sIndex mCount].
    + split; [exact Hwf|]. split; [reflexivity|].
      destruct (Z.ltb_spec (sIndex (mReadLoc this) + 1) (mCount this)); [lia|auto].
    + split; [exact Hwf|]. split; [reflexivity|].
      destruct (Z.ltb_spec (sIndex (mReadLoc this) + 1) (mCount this)); [auto|lia].
  - assert (Hwf : wellFormed (set_loc this (sIndex (mReadLoc this))
                                (cIndex (mReadLoc this) + 1))).
    { apply wf_set_loc; [exact H|lia|].
      destruct (Z.ltb_spec (sIndex (mReadLoc this)) (mCount this)); lia. }
    cbn [mCount set_loc].
    destruct (Z.leb_spec (mCount this) (sIndex (mReadLoc this))) as [L|L]; [lia|].
    cbn [fst snd mReadLoc set_loc sIndex mCount].
    split; [exact Hwf|]. split; [reflexivity|].
    destruct (Z.ltb_spec (sIndex (mReadLoc this)) (mCount this)); [auto|lia].
Qed.

Lemma scanBackslash_spec str cIdx nRead n :
  forall i size maxRead,
    0 <= i <= size -> (Z.to_nat (size - i) <= n)%nat ->
    let size' := fst (scanBackslash n str cIdx i size nRead maxRead) in
    let maxRead' := snd (scanBackslash n str cIdx i size nRead maxRead) in
    i <= size' <= size /\
    (forall j, i <= j < size' ->
       Ascii.eqb (charAt str (cIdx + j)) backslash = false) /\
    ((size' = size /\ maxRead' = maxRead) \/
     (size' < size /\ maxRead' = nRead + size')).
Proof.
  induction n as [|n IH]; intros i size maxRead Hi Hn; cbn [scanBackslash].
  - cbn. repeat split; intros; lia.
  - destruct (Z.ltb_spec i size) as [Hlt|Hge].
    + destruct (Ascii.eqb (charAt str (cIdx + i)) backslash) eqn:Hc.
      * (* a backslash at offset [i]: the loop stops *)
        assert (E : scanBackslash n str cIdx (i + 1) i nRead (nRead + i)
                    = (i, nRead + i)).
        { destruct n; cbn [scanBackslash]; auto.
          destruct (Z.ltb_spec (i + 1) i); [lia|reflexivity]. }
        rewrite E. cbn. repeat split; intros; lia.
      * specialize (IH (i + 1) size maxRead ltac:(lia) ltac:(lia)).
        cbn zeta in IH. destruct IH as (H1 & H2 & H3).
        split; [lia|]. split; [|exact H3].
        intros j Hj. destruct (Z.eq_dec j i) as [->|]; [exact Hc|].
        apply H2. lia.
    + cbn. repeat split; intros; lia.
Qed.

Lemma readLoop_exit fuel this buf nRead maxRead maxSize :
  maxRead <= nRead \/ mCount this <= sIndex (mReadLoc this) ->
  readLoop fuel this buf nRead maxRead maxSize = Some (nRead, buf, this).
Proof.
  intros H.
  assert (E : (nRead <? maxRead) && (sIndex (mReadLoc this) <? mCount this) = false).
  { destruct H.
    - destruct (Z.ltb_spec nRead maxRead); [lia|reflexivity].
    - destruct (Z.ltb_spec (sIndex (mReadLoc this)) (mCount this));
        [lia|apply andb_false_r]. }
  destruct fuel; cbn [readLoop]; now rewrite E.
Qed.

Lemma noBackslash_firstn str c k :
  0 <= c -> 0 <= k -> c + k <= Z.of_nat (length str) ->
  (forall j, 0 <= j < k -> Ascii.eqb (charAt str (c + j)) backslash = false) ->
  noBackslash (firstn (Z.to_nat k) (skipn (Z.to_nat c) str)).
Proof.
  intros Hc Hk Hlen H. unfold noBackslash. apply List.Forall_forall.
  intros x Hin. apply (In_nth _ _ NUL) in Hin as (j & Hj & <-).
  rewrite length_firstn, length_skipn in Hj.
  rewrite nth_firstn.
  destruct (Nat.ltb_spec j (Z.to_nat k)) as [Hjk|]; [|lia].
  rewrite nth_skipn.
  specialize (H (Z.of_nat j) ltac:(lia)).
  rewrite charAt_nth in H by lia.
  replace (Z.to_nat (c + Z.of_nat j)) with (Z.to_nat c + j)%nat in H by lia.
  exact H.
Qed.

(** The loop copies text free of backslashes and stops in front of the
    first backslash, at the end of the buffer, or at the end of the input. *)
Lemma readLoop_spec maxSize :
  0 < maxSize ->
  forall fuel this buf nRead maxRead,
    wellFormed this ->
    (Z.to_nat (mCount this - sIndex (mReadLoc this)) < fuel)%nat ->
    maxRead <= nRead \/ (maxRead = maxSize /\ 0 <= nRead) ->
    exists pre this',
      readLoop fuel this buf nRead maxRead maxSize
      = Some (nRead + Z.of_nat (length pre), buf ++ pre, this') /\
      wellFormed this' /\ noBackslash pre /\
      remainingText this = pre ++ remainingText this'.
Proof.
  intros Hmax. induction fuel as [|fuel IH]; intros this buf nRead maxRead Hwf Hfuel Hread;
    [lia|].
  assert (Hstop : maxRead <= nRead \/ mCount this <= sIndex (mReadLoc this) ->
                  exists pre this',
                    readLoop (S fuel) this buf nRead maxRead maxSize
                    = Some (nRead + Z.of_nat (length pre), buf ++ pre, this') /\
                    wellFormed this' /\ noBackslash pre /\
                    remainingText this = pre ++ remainingText this').
  { intros H. exists [], this. rewrite readLoop_exit by exact H.
    rewrite app_nil_r, Z.add_0_r.
    split; [reflexivity|]. split; [exact Hwf|]. split; [constructor|reflexivity]. }
  destruct (Z.le_gt_cases maxRead nRead) as [Hle|Hgt]; [apply Hstop; auto|].
  destruct (Z.le_gt_cases (mCount this) (sIndex (mReadLoc this))) as [Hend|Hs];
    [apply Hstop; auto|].
  clear Hstop. destruct Hread as [|[-> Hn0]]; [lia|].
  (* one pass of the loop *)
  pose proof (wf_sIndex _ Hwf) as Hs0. pose proof (wf_cIndex _ Hwf) as Hc.
  rewrite (proj2 (Z.ltb_lt _ _) Hs) in Hc.
  pose proof (wf_string_nonempty this (sIndex (mReadLoc this)) Hwf ltac:(lia))
    as Hlen.
  pose proof (wf_lengthAt this (sIndex (mReadLoc this)) Hwf ltac:(lia)) as Hl.
  set (s := sIndex (mReadLoc this)) in *. set (c := cIndex (mReadLoc this)) in *.
  set (len := lengthAt this s) in *. set (str := stringAt this s) in *.
  cbn [readLoop]. fold s c.
  destruct (Z.ltb_spec nRead maxSize) as [_|]; [|lia].
  destruct (Z.ltb_spec s (mCount this)) as [_|]; [|lia]. cbn [andb].
  fold len str.
  assert (Esz : size_t (len - c) = len - c).
  { unfold size_t. apply Z.mod_small. lia. }
  rewrite Esz.
  set (size1 := Z.min (len - c) maxSize).
  pose proof (scanBackslash_spec str c nRead (Z.to_nat size1) 0 size1 maxSize
                ltac:(lia) ltac:(lia)) as Hscan.
  cbn zeta in Hscan.
  destruct (scanBackslash (Z.to_nat size1) str c 0 size1 nRead maxSize)
    as [size' maxRead'].
  cbn [fst snd] in Hscan. destruct Hscan as (Hsz & Hfree & Hcase).
  set (pre1 := firstn (Z.to_nat size') (skipn (Z.to_nat c) str)).
  assert (Hpre1 : noBackslash pre1).
  { apply noBackslash_firstn; try lia. intros j Hj. apply Hfree. lia. }
  assert (Hlpre : Z.of_nat (length pre1) = size').
  { subst pre1. rewrite length_firstn, length_skipn. lia. }
  set (this1 := if c + size' =? len then set_loc this (s + 1) 0
                else set_loc this s (c + size')).
  assert (Hwf1 : wellFormed this1).
  { subst this1. destruct (Z.eqb_spec (c + size') len).
    - apply wf_set_loc; [exact Hwf|lia|].
      destruct (Z.ltb_spec (s + 1) (mCount this)); auto.
      pose proof (wf_string_nonempty this (s + 1) Hwf). lia.
    - apply wf_set_loc; [exact Hwf|lia|].
      destruct (Z.ltb_spec s (mCount this)); [fold len; lia|lia]. }
  assert (Htext : remainingText this = pre1 ++ remainingText this1).
  { transitivity (pre1 ++ remainingText (set_loc this s (c + size'))).
    - rewrite (this_is_set_loc this) at 1.
      rewrite !remainingText_set_loc. subst pre1. fold s c str.
      rewrite (skipn_firstn_split (Z.to_nat c) (Z.to_nat size') str) at 1.
      rewrite <- app_assoc. do 3 f_equal. lia.
    - f_equal. subst this1.
      destruct (Z.eqb_spec (c + size') len) as [E|E]; [|reflexivity].
      rewrite E. apply remainingText_next; auto. lia. }
  unfold memcpy. fold pre1. fold this1.
  (* the rest of the loop *)
  assert (Hrest : exists pre2 this',
             readLoop fuel this1 (buf ++ pre1) (nRead + size') maxRead' maxSize
             = Some (nRead + size' + Z.of_nat (length pre2),
                     (buf ++ pre1) ++ pre2, this') /\
             wellFormed this' /\ noBackslash pre2 /\
             remainingText this1 = pre2 ++ remainingText this').
  { destruct (Z.le_gt_cases maxRead' (nRead + size')) as [Hout|Hin].
    - exists [], this1. rewrite readLoop_exit by auto.
      rewrite app_nil_r, Z.add_0_r.
      split; [reflexivity|]. split; [exact Hwf1|].
      split; [constructor|reflexivity].
    - (* no backslash and the string fits the buffer: on to the next one *)
      destruct Hcase as [[-> ->]|[? ->]]; [|lia].
      assert (Elen : size1 = len - c) by lia.
      apply IH; auto.
      + subst this1. rewrite Elen.
        replace (c + (len - c) =? len) with true
          by (symmetry; apply Z.eqb_eq; lia).
        cbn. fold s. lia.
      + right. split; [reflexivity|lia]. }
  destruct Hrest as (pre2 & this' & E & Hwf' & Hpre2 & Ht2).
  exists (pre1 ++ pre2), this'. rewrite E.
  rewrite length_app, Nat2Z.inj_add, Hlpre, app_assoc, Z.add_assoc.
  split; [reflexivity|]. split; [exact Hwf'|]. split.
  - apply Forall_app. split; assumption.
  - rewrite Htext, Ht2. now rewrite app_assoc.
Qed.

Lemma spliced_cons c t1 :
  spliced (c :: t1) =
  if Ascii.eqb c backslash then
    match t1 with
    | [] => ([c], 0)
    | d :: t2 =>
      if Ascii.eqb d newline then (fst (spliced t2), snd (spliced t2) + 1)
      else if Ascii.eqb d carriage_return then
        match t2 with
        | [] => ([], 1)
        | e :: t3 =>
          if Ascii.eqb e newline
          then (fst (spliced t3), snd (spliced t3) + 1)
          else (fst (spliced t2), snd (spliced t2) + 1)
        end
      else (c :: fst (spliced t1), snd (spliced t1))
    end
  else (c :: fst (spliced t1), snd (spliced t1)).
Proof.
  destruct t1 as [|d [|e t3]]; cbn [spliced];
    repeat match goal with
           | |- context [let '(_, _) := ?x in _] => destruct x
           | |- context [if ?b then _ else _] => destruct b
           end; reflexivity.
Qed.

Lemma spliced_count_nonneg t : 0 <= snd (spliced t).
Proof.
  remember (length t) as n eqn:Hn.
  revert t Hn. induction n as [n IH] using lt_wf_ind. intros t ->.
  assert (H : forall u, (length u < length t)%nat -> 0 <= snd (spliced u))
    by (intros u Hu; now apply (IH (length u))).
  destruct t as [|c t1]; [cbn; lia|].
  rewrite spliced_cons.
  pose proof (H t1 ltac:(cbn; lia)).
  destruct (Ascii.eqb c backslash); [|cbn; lia].
  destruct t1 as [|d t2]; [cbn; lia|].
  pose proof (H t2 ltac:(cbn; lia)).
  destruct (Ascii.eqb d newline); [cbn; lia|].
  destruct (Ascii.eqb d carriage_return); [|cbn [snd]; lia].
  destruct t2 as [|e t3]; [cbn; lia|].
  pose proof (H t3 ltac:(cbn; lia)).
  destruct (Ascii.eqb e newline); cbn [snd]; lia.
Qed.


Lemma continue_delivers maxSize this0 lineNo0 this buf0 lineNo :
  0 < maxSize ->
  wellFormed this ->
  buf0 = [] \/ buf0 = [backslash] ->
  fst (spliced (remainingText this0))
  = buf0 ++ fst (spliced (remainingText this)) ->
  lineNo + snd (spliced (remainingText this))
  = lineNo0 + snd (spliced (remainingText this0)) ->
  exists r,
    match readLoop (S (Z.to_nat (mCount this))) this buf0
            (Z.of_nat (length buf0)) maxSize maxSize with
    | Some (n, b, this') => Some (mkReadResult n b lineNo this')
    | None => None
    end = Some r /\
    delivers this0 lineNo0 r.
Proof.
  intros Hmax Hwf Hbuf Hout Hline.
  pose proof (wf_sIndex _ Hwf) as Hs.
  destruct (readLoop_spec maxSize Hmax (S (Z.to_nat (mCount this))) this buf0
              (Z.of_nat (length buf0)) maxSize Hwf ltac:(lia)
              ltac:(right; lia)) as (pre & this' & E & Hwf' & Hpre & Ht).
  rewrite E. eexists. split; [reflexivity|].
  unfold delivers. cbn [after buf PPInput.lineNo nRead].
  rewrite Ht, (spliced_plain pre _ Hpre) in Hout, Hline. cbn [fst snd] in *.
  split; [exact Hwf'|]. split; [|split].
  - rewrite Hout. now rewrite app_assoc.
  - exact Hline.
  - rewrite length_app. lia.
Qed.

(** One call of [read] on an input without empty strings, short of the
    overflow of the line number. *)
Lemma read_delivers this maxSize lineNo :
  wellFormed this -> 0 < maxSize ->
  lineNo + snd (spliced (remainingText this)) <= INT_MAX ->
  exists r, read this maxSize lineNo = Some r /\ delivers this lineNo r.
Proof.
  intros Hwf Hmax Hline. unfold read.
  assert (Hplain : deref this (mReadLoc this) = deref this (mReadLoc this) ->
            exists r,
              match readLoop (S (Z.to_nat (mCount this))) this [] 0 maxSize maxSize with
              | Some (n, b, this') => Some (mkReadResult n b lineNo this')
              | None => None
              end = Some r /\ delivers this lineNo r).
  { intros _.
    apply (continue_delivers maxSize this lineNo this [] lineNo); auto. }
  destruct (Z.ltb_spec (sIndex (mReadLoc this)) (mCount this)) as [Hs|Hs];
    cbn [andb]; [|now apply Hplain].
  destruct (Z.ltb_spec 0 maxSize) as [_|]; [|lia].
  destruct (Ascii.eqb (deref this (mReadLoc this)) backslash) eqn:Hc0;
    [|now apply Hplain].
  clear Hplain.
  (* at a backslash *)
  destruct (skipChar_spec this Hwf Hs) as (Hwf1 & HT & Hptr).
  destruct (skipChar this) as [ptr this1]. cbn [fst snd] in *. subst ptr.
  rewrite HT, spliced_cons, Hc0 in Hline.
  destruct (Z.ltb_spec (sIndex (mReadLoc this1)) (mCount this1)) as [Hs1|Hs1].
  2:{ (* the backslash is the last character *)
    rewrite (remainingText_end _ Hwf1 Hs1) in HT, Hline.
    apply (continue_delivers maxSize this lineNo this1 [backslash] lineNo); auto.
    - rewrite HT, spliced_cons, Hc0, (remainingText_end _ Hwf1 Hs1).
      apply Ascii.eqb_eq in Hc0. now rewrite Hc0.
    - rewrite HT, spliced_cons, Hc0, (remainingText_end _ Hwf1 Hs1).
      reflexivity. }
  destruct (skipChar_spec this1 Hwf1 Hs1) as (Hwf2 & HT1 & Hptr2).
  rewrite HT1 in Hline.
  destruct (Ascii.eqb (deref this1 (mReadLoc this1)) newline) eqn:Hnl.
  { (* backslash, newline *)
    destruct (skipChar this1) as [ptr2 this2]. cbn [fst snd] in *.
    pose proof (spliced_count_nonneg (remainingText this2)) as Hnn.
    cbn [snd] in Hline.
    destruct (Z.eqb_spec lineNo INT_MAX) as [->|_]; [lia|].
    apply (continue_delivers maxSize this lineNo this2 [] (lineNo + 1)); auto.
    - now rewrite HT, spliced_cons, Hc0, HT1, Hnl.
    - rewrite HT, spliced_cons, Hc0, HT1, Hnl. cbn [snd]. lia. }
  destruct (Ascii.eqb (deref this1 (mReadLoc this1)) carriage_return) eqn:Hcr.
  { (* backslash, carriage return *)
    destruct (skipChar this1) as [ptr2 this2]. cbn [fst snd] in *. subst ptr2.
    destruct (Z.ltb_spec (sIndex (mReadLoc this2)) (mCount this2)) as [Hs2|Hs2].
    2:{ rewrite (remainingText_end _ Hwf2 Hs2) in HT1, Hline.
        cbn [snd] in Hline.
        destruct (Z.eqb_spec lineNo INT_MAX) as [->|_]; [lia|].
        apply (continue_delivers maxSize this lineNo this2 [] (lineNo + 1)); auto.
        - rewrite HT, spliced_cons, Hc0, HT1, Hnl, Hcr.
          now rewrite (remainingText_end _ Hwf2 Hs2).
        - rewrite HT, spliced_cons, Hc0, HT1, Hnl, Hcr.
          rewrite (remainingText_end _ Hwf2 Hs2). cbn. lia. }
    destruct (skipChar_spec this2 Hwf2 Hs2) as (Hwf3 & HT2 & _).
    rewrite HT2 in Hline.
    destruct (Ascii.eqb (deref this2 (mReadLoc this2)) newline) eqn:Hnl2.
    - (* ... and newline *)
      pose proof (spliced_count_nonneg (remainingText (snd (skipChar this2)))).
      cbn [snd] in Hline.
      destruct (Z.eqb_spec lineNo INT_MAX) as [->|_]; [lia|].
      apply (continue_delivers maxSize this lineNo (snd (skipChar this2)) []
               (lineNo + 1)); auto.
      + now rewrite HT, spliced_cons, Hc0, HT1, Hnl, Hcr, HT2, Hnl2.
      + rewrite HT, spliced_cons, Hc0, HT1, Hnl, Hcr, HT2, Hnl2. cbn [snd]. lia.
    - rewrite <- HT2 in Hline.
      pose proof (spliced_count_nonneg (remainingText this2)).
      cbn [snd] in Hline.
      destruct (Z.eqb_spec lineNo INT_MAX) as [->|_]; [lia|].
      apply (continue_delivers maxSize this lineNo this2 [] (lineNo + 1)); auto.
      + rewrite HT, spliced_cons, Hc0, HT1, Hnl, Hcr, HT2, Hnl2.
        now rewrite <- HT2.
      + rewrite HT, spliced_cons, Hc0, HT1, Hnl, Hcr, HT2, Hnl2.
        rewrite <- HT2. cbn [snd]. lia. }
  (* a backslash that continues nothing: it is written to the buffer *)
  apply (continue_delivers maxSize this lineNo this1 [backslash] lineNo); auto.
  - rewrite HT, spliced_cons, Hc0, HT1, Hnl, Hcr. cbn [fst].
    apply Ascii.eqb_eq in Hc0. now rewrite Hc0.
  - rewrite HT, spliced_cons, Hc0, HT1, Hnl, Hcr. reflexivity.
Qed.

(** X1. Any sequence of calls of [read] on an input none of whose strings is
    empty: what the calls write, followed by the spliced rest of the text,
    is the spliced text; and the line number has gone up by the number of
    continuations passed. *)
Theorem reads_splice_lines (sizes : list Z) :
  forall (this : Input) (lineNo : Z),
    wellFormed this ->
    Forall (fun maxSize => 0 < maxSize) sizes ->
    lineNo + snd (spliced (remainingText this)) <= INT_MAX ->
    exists out l this',
      readAll sizes this lineNo = Some (out, l, this') /\
      wellFormed this' /\
      out ++ fst (spliced (remainingText this'))
      = fst (spliced (remainingText this)) /\
      l + snd (spliced (remainingText this'))
      = lineNo + snd (spliced (remainingText this)).
Proof.
  induction sizes as [|maxSize sizes IH]; intros this lineNo Hwf Hsz Hline.
  - exists [], lineNo, this. cbn. auto.
  - inversion Hsz as [|? ? Hm Hrest]; subst.
    destruct (read_delivers this maxSize lineNo Hwf Hm Hline)
      as (r & Er & Hwf' & Hout & Hl & _).
    destruct (IH (after r) (PPInput.lineNo r) Hwf' Hrest ltac:(lia))
      as (out & l & this' & Ea & Hwf'' & Hout' & Hl').
    exists (buf r ++ out), l, this'. cbn [readAll]. rewrite Er, Ea.
    split; [reflexivity|]. split; [exact Hwf''|]. split.
    + rewrite <- app_assoc, Hout'. now rewrite Hout.
    + lia.
Qed.

(** [joinedContinuation] is such an input. *)
Lemma joinedContinuation_wellFormed : wellFormed joinedContinuation.
Proof.
  split.
  - reflexivity.
  - reflexivity.
  - repeat constructor; discriminate.
  - repeat constructor.
  - vm_compute. split; discriminate.
  - vm_compute. split; [discriminate|reflexivity].
Qed.

(** The loop of [read] never takes the count past twice the buffer size
    less one. *)
Lemma readLoop_bound maxSize :
  0 < maxSize ->
  forall fuel this buf nRead maxRead n' b' this',
    maxRead <= maxSize \/ maxRead <= nRead ->
    readLoop fuel this buf nRead maxRead maxSize = Some (n', b', this') ->
    nRead <= n' <= Z.max nRead (2 * maxSize - 1).
Proof.
  intros Hmax. induction fuel as [|fuel IH];
    intros this buf nRead maxRead n' b' this' Hread; cbn [readLoop].
  - destruct ((nRead <? maxRead) && _); intros [= <- <- <-]. lia.
  - destruct (Z.ltb_spec nRead maxRead) as [Hlt|Hge]; cbn [andb].
    2:{ intros [= <- <- <-]. lia. }
    destruct (sIndex (mReadLoc this) <? mCount this).
    2:{ intros [= <- <- <-]. lia. }
    set (size1 := Z.min (size_t _) maxSize).
    assert (Hsize1 : 0 <= size1 <= maxSize).
    { subst size1. unfold size_t.
      pose proof (Z.mod_pos_bound
                    (lengthAt this (sIndex (mReadLoc this)) - cIndex (mReadLoc this))
                    (2 ^ 64) ltac:(lia)). lia. }
    pose proof (scanBackslash_spec (stringAt this (sIndex (mReadLoc this)))
                  (cIndex (mReadLoc this)) nRead (Z.to_nat size1) 0 size1 maxRead
                  ltac:(lia) ltac:(lia)) as Hscan.
    cbn zeta in Hscan.
    destruct (scanBackslash _ _ _ _ _ _ _) as [size' maxRead'].
    cbn [fst snd] in Hscan. destruct Hscan as (Hsz & _ & Hcase).
    intros E. apply IH in E; [lia|].
    destruct Hcase as [[-> ->]|[_ ->]]; lia.
Qed.

(** What [read] does before its loop: it gives up at an overflowing
    continuation, or enters the loop with nothing or a backslash written. *)
Lemma read_cases this maxSize lineNo :
  wellFormed this -> 0 < maxSize ->
  (exists thisK,
     wellFormed thisK /\ lineNo = INT_MAX /\
     read this maxSize lineNo = Some (mkReadResult 0 [] lineNo thisK)) \/
  (exists thisK buf0 lineNo',
     wellFormed thisK /\ (buf0 = [] \/ buf0 = [backslash]) /\
     read this maxSize lineNo =
     match readLoop (S (Z.to_nat (mCount thisK))) thisK buf0
             (Z.of_nat (length buf0)) maxSize maxSize with
     | Some (n, b, this') => Some (mkReadResult n b lineNo' this')
     | None => None
     end).
Proof.
  intros Hwf Hmax. unfold read.
  assert (Hplain : forall (thisK : Input) (buf0 : list ascii) (lineNo' : Z),
            wellFormed thisK -> buf0 = [] \/ buf0 = [backslash] ->
            forall x,
            x = match readLoop (S (Z.to_nat (mCount thisK))) thisK buf0
                        (Z.of_nat (length buf0)) maxSize maxSize with
                | Some (n, b, this') => Some (mkReadResult n b lineNo' this')
                | None => None
                end ->
            (exists thisK,
               wellFormed thisK /\ lineNo = INT_MAX /\
               x = Some (mkReadResult 0 [] lineNo thisK)) \/
            (exists thisK buf0 lineNo',
               wellFormed thisK /\ (buf0 = [] \/ buf0 = [backslash]) /\
               x = match readLoop (S (Z.to_nat (mCount thisK))) thisK buf0
                           (Z.of_nat (length buf0)) maxSize maxSize with
                   | Some (n, b, this') => Some (mkReadResult n b lineNo' this')
                   | None => None
                   end)).
  { intros thisK buf0 lineNo' H1 H2 x ->. right. exists thisK, buf0, lineNo'. auto. }
  assert (Hover : forall thisK, wellFormed thisK -> lineNo = INT_MAX ->
            (exists thisK',
               wellFormed thisK' /\ lineNo = INT_MAX /\
               Some (mkReadResult 0 [] lineNo thisK)
               = Some (mkReadResult 0 [] lineNo thisK')) \/
            (exists thisK' buf0 lineNo',
               wellFormed thisK' /\ (buf0 = [] \/ buf0 = [backslash]) /\
               Some (mkReadResult 0 [] lineNo thisK) =
               match readLoop (S (Z.to_nat (mCount thisK'))) thisK' buf0
                           (Z.of_nat (length buf0)) maxSize maxSize with
                   | Some (n, b, this') => Some (mkReadResult n b lineNo' this')
                   | None => None
                   end)).
  { intros thisK H1 H2. left. exists thisK. auto. }
  destruct (Z.ltb_spec (sIndex (mReadLoc this)) (mCount this)) as [Hs|Hs];
    cbn [andb]; [|eapply (Hplain this []); eauto].
  destruct (Z.ltb_spec 0 maxSize) as [_|]; [|lia].
  destruct (Ascii.eqb (deref this (mReadLoc this)) backslash);
    [|eapply (Hplain this []); eauto].
  destruct (skipChar_spec this Hwf Hs) as (Hwf1 & _ & Hptr).
  destruct (skipChar this) as [ptr this1]. cbn [fst snd] in *. subst ptr.
  destruct (Z.ltb_spec (sIndex (mReadLoc this1)) (mCount this1)) as [Hs1|Hs1];
    [|eapply (Hplain this1 [backslash]); eauto].
  destruct (skipChar_spec this1 Hwf1 Hs1) as (Hwf2 & _ & Hptr2).
  destruct (Ascii.eqb (deref this1 (mReadLoc this1)) newline).
  { destruct (skipChar this1) as [ptr2 this2]. cbn [fst snd] in *.
    destruct (Z.eqb_spec lineNo INT_MAX) as [E|_];
      [apply Hover; auto | eapply (Hplain this2 []); eauto]. }
  destruct (Ascii.eqb (deref this1 (mReadLoc this1)) carriage_return);
    [|eapply (Hplain this1 [backslash]); eauto].
  destruct (skipChar this1) as [ptr2 this2]. cbn [fst snd] in *. subst ptr2.
  set (this3 := match (if sIndex (mReadLoc this2) <? mCount this2
                       then Some (mReadLoc this2) else None) with
                | Some p2 => if Ascii.eqb (deref this2 p2) newline
                             then snd (skipChar this2) else this2
                | None => this2
                end).
  assert (Hwf3 : wellFormed this3).
  { subst this3.
    destruct (Z.ltb_spec (sIndex (mReadLoc this2)) (mCount this2)) as [Hs2|Hs2];
      [|exact Hwf2].
    destruct (Ascii.eqb (deref this2 (mReadLoc this2)) newline); [|exact Hwf2].
    apply (skipChar_spec this2 Hwf2 Hs2). }
  destruct (Z.eqb_spec lineNo INT_MAX) as [E|_];
    [apply Hover; auto | eapply (Hplain this3 []); eauto].
Qed.

(** X2. One call of [read] hands out at most [2 * maxSize - 1] characters: the
    loop is entered with fewer than [maxSize] characters written and each
    pass copies up to [maxSize] more.  The count returned is the number of
    characters written. *)
Theorem read_writes_less_than_twice_maxSize (this : Input) (maxSize lineNo : Z) :
  wellFormed this -> 0 < maxSize ->
  exists r, read this maxSize lineNo = Some r /\
            wellFormed (after r) /\
            nRead r = Z.of_nat (length (buf r)) /\
            0 <= nRead r <= 2 * maxSize - 1.
Proof.
  intros Hwf Hmax.
  destruct (read_cases this maxSize lineNo Hwf Hmax)
    as [(thisK & HwfK & _ & ->)|(thisK & buf0 & lineNo' & HwfK & Hbuf & ->)].
  - eexists. split; [reflexivity|]. cbn [after nRead buf length].
    split; [exact HwfK|]. split; lia.
  - pose proof (wf_sIndex _ HwfK) as Hs.
    destruct (readLoop_spec maxSize Hmax (S (Z.to_nat (mCount thisK))) thisK buf0
                (Z.of_nat (length buf0)) maxSize HwfK ltac:(lia)
                ltac:(right; lia)) as (pre & this' & E & Hwf' & _ & _).
    pose proof (readLoop_bound maxSize Hmax _ _ _ _ _ _ _ _
                  (or_introl (Z.le_refl maxSize)) E) as Hb.
    rewrite E. eexists. split; [reflexivity|].
    cbn [after nRead buf]. split; [exact Hwf'|]. split.
    + rewrite length_app. lia.
    + destruct Hbuf as [-> | ->]; cbn [length] in *; lia.
Qed.

Lemma scanBackslash_plain str cIdx nRead n :
  forall i size maxRead,
    (forall j, i <= j < size ->
       Ascii.eqb (charAt str (cIdx + j)) backslash = false) ->
    scanBackslash n str cIdx i size nRead maxRead = (size, maxRead).
Proof.
  induction n as [|n IH]; intros i size maxRead H; cbn [scanBackslash]; auto.
  destruct (Z.ltb_spec i size) as [Hlt|]; [|reflexivity].
  rewrite (H i) by lia. apply IH. intros j Hj. apply H. lia.
Qed.

Lemma charAt_repeat_a n i :
  Ascii.eqb (charAt (repeat "a"%char n) i) backslash = false.
Proof.
  unfold charAt. destruct (i <? 0); [reflexivity|].
  destruct (Nat.lt_ge_cases (Z.to_nat i) n) as [H|H].
  - now rewrite nth_repeat_lt.
  - rewrite nth_overflow; [reflexivity|]. now rewrite repeat_length.
Qed.

(** One pass of the loop over the rest of a string that holds no
    backslash and fits the buffer: it is copied and the next string is
    current. *)
Lemma readLoop_pass_plain fuel this buf nRead maxRead maxSize :
  nRead < maxRead -> sIndex (mReadLoc this) < mCount this ->
  0 <= lengthAt this (sIndex (mReadLoc this)) - cIndex (mReadLoc this) <= maxSize ->
  lengthAt this (sIndex (mReadLoc this)) - cIndex (mReadLoc this) < 2 ^ 64 ->
  (forall j, Ascii.eqb (charAt (stringAt this (sIndex (mReadLoc this)))
                          (cIndex (mReadLoc this) + j)) backslash = false) ->
  readLoop (S fuel) this buf nRead maxRead maxSize
  = readLoop fuel (set_loc this (sIndex (mReadLoc this) + 1) 0)
      (memcpy buf (stringAt this (sIndex (mReadLoc this))) (cIndex (mReadLoc this))
         (lengthAt this (sIndex (mReadLoc this)) - cIndex (mReadLoc this)))
      (nRead + (lengthAt this (sIndex (mReadLoc this)) - cIndex (mReadLoc this)))
      maxRead maxSize.
Proof.
  intros Hn Hs Hlen Hbig Hplain. cbn [readLoop].
  destruct (Z.ltb_spec nRead maxRead) as [_|]; [|lia].
  destruct (Z.ltb_spec (sIndex (mReadLoc this)) (mCount this)) as [_|]; [|lia].
  cbn [andb].
  replace (size_t (lengthAt this (sIndex (mReadLoc this)) - cIndex (mReadLoc this)))
    with (lengthAt this (sIndex (mReadLoc this)) - cIndex (mReadLoc this))
    by (unfold size_t; rewrite Z.mod_small; lia).
  rewrite Z.min_l by lia.
  rewrite scanBackslash_plain by (intros; apply Hplain).
  replace (cIndex (mReadLoc this) +
           (lengthAt this (sIndex (mReadLoc this)) - cIndex (mReadLoc this)) =?
           lengthAt this (sIndex (mReadLoc this))) with true
    by (symmetry; apply Z.eqb_eq; lia).
  reflexivity.
Qed.

Lemma twoPlainStrings_stored maxSize :
  1 <= maxSize ->
  twoPlainStrings maxSize
  = mkInput 2
      [repeat "a"%char (Z.to_nat (maxSize - 1));
       repeat "a"%char (Z.to_nat maxSize)]
      [maxSize - 1; maxSize] (mkLocation 0 0).
Proof.
  intros H. unfold twoPlainStrings, Input_ctor.
  change (Z.to_nat 2) with 2%nat. cbn [seq map nth].
  destruct (Z.ltb_spec (maxSize - 1) 0); [lia|].
  destruct (Z.ltb_spec maxSize 0); [lia|]. reflexivity.
Qed.

(** X3. The buffer size is no bound on what one call writes: on two strings of
    [maxSize - 1] and [maxSize] plain characters the first call writes them
    all. *)
Theorem read_overruns_maxSize (maxSize : Z) :
  2 <= maxSize -> maxSize < 2 ^ 64 ->
  wellFormed (twoPlainStrings maxSize) /\
  exists r, read (twoPlainStrings maxSize) maxSize 1 = Some r /\
            nRead r = 2 * maxSize - 1 /\
            Z.of_nat (length (buf r)) = 2 * maxSize - 1.
Proof.
  intros Hmax Hbig. rewrite twoPlainStrings_stored by lia.
  set (this := mkInput _ _ _ _).
  assert (Hwf : wellFormed this).
  { subst this. split.
    - reflexivity.
    - cbn. rewrite !repeat_length. repeat f_equal; lia.
    - repeat constructor.
      + destruct (Z.to_nat (maxSize - 1)) eqn:E; [lia|discriminate].
      + destruct (Z.to_nat maxSize) eqn:E; [lia|discriminate].
    - repeat constructor; rewrite repeat_length; lia.
    - cbn [mReadLoc sIndex mCount]. lia.
    - cbn [mReadLoc sIndex cIndex mCount].
      change (0 <? 2) with true. cbv iota.
      unfold lengthAt. change (Z.to_nat 0) with 0%nat.
      cbn [mLength nth]. lia. }
  split; [exact Hwf|]. clear Hwf. subst this.
  unfold read. cbn [mReadLoc sIndex cIndex mCount].
  change (0 <? 2) with true. cbn [andb].
  destruct (Z.ltb_spec 0 maxSize) as [_|]; [|lia].
  unfold deref, stringAt.
  cbn [mReadLoc sIndex cIndex mString].
  change (Z.to_nat 0) with 0%nat. cbn [nth].
  rewrite charAt_repeat_a.
  change (Z.to_nat 2) with 2%nat.
  (* first pass: the first string *)
  rewrite readLoop_pass_plain; cycle 1.
  { lia. }
  { cbn. lia. }
  { unfold lengthAt. cbn [mReadLoc sIndex cIndex mLength].
    change (Z.to_nat 0) with 0%nat. cbn [nth]. lia. }
  { unfold lengthAt. cbn [mReadLoc sIndex cIndex mLength].
    change (Z.to_nat 0) with 0%nat. cbn [nth]. lia. }
  { intros j. unfold stringAt.
    cbn [mReadLoc sIndex cIndex mString].
    change (Z.to_nat 0) with 0%nat. cbn [nth]. apply charAt_repeat_a. }
  (* second pass: the second string *)
  rewrite readLoop_pass_plain; cycle 1.
  { unfold lengthAt. cbn [mReadLoc sIndex cIndex mLength].
    change (Z.to_nat 0) with 0%nat. cbn [nth]. lia. }
  { cbn. lia. }
  { unfold lengthAt. cbn [set_loc mReadLoc sIndex cIndex mLength].
    change (Z.to_nat (0 + 1)) with 1%nat. cbn [nth]. lia. }
  { unfold lengthAt. cbn [set_loc mReadLoc sIndex cIndex mLength].
    change (Z.to_nat (0 + 1)) with 1%nat. cbn [nth]. lia. }
  { intros j. unfold stringAt.
    cbn [set_loc mReadLoc sIndex cIndex mString].
    change (Z.to_nat (0 + 1)) with 1%nat. cbn [nth]. apply charAt_repeat_a. }
  (* the loop ends *)
  rewrite readLoop_exit; cycle 1.
  { right. cbn. lia. }
  eexists. split; [reflexivity|].
  cbn [nRead buf]. unfold lengthAt, stringAt, memcpy.
  cbn [set_loc mReadLoc sIndex cIndex mLength mString].
  change (Z.to_nat 0) with 0%nat. change (Z.to_nat (0 + 1)) with 1%nat.
  cbn [nth app skipn]. split; [lia|].
  rewrite length_app, !length_firstn, !length_skipn, !repeat_length. lia.
Qed.

Lemma read_writes_less_than_twice_maxSize_witness :
  exists r, read joinedContinuation 16 1 = Some r /\
            wellFormed (after r) /\
            nRead r = Z.of_nat (length (buf r)) /\
            0 <= nRead r <= 2 * 16 - 1.
Proof.
  apply read_writes_less_than_twice_maxSize;
    [exact joinedContinuation_wellFormed | lia].
Defined.

Lemma read_overruns_maxSize_witness :
  (2 <= 4 /\ 4 < 2 ^ 64) /\
  exists r, read (twoPlainStrings 4) 4 1 = Some r /\ nRead r = 7.
Proof.
  split; [split; [lia|reflexivity]|].
  destruct (read_overruns_maxSize 4 ltac:(lia) ltac:(reflexivity))
    as (_ & r & E & Hn & _).
  exists r. split; [exact E|exact Hn].
Defined.

Lemma remainingText_nonempty this c t :
  wellFormed this -> remainingText this = c :: t ->
  sIndex (mReadLoc this) < mCount this /\ deref this (mReadLoc this) = c.
Proof.
  intros Hwf E.
  destruct (Z.lt_ge_cases (sIndex (mReadLoc this)) (mCount this)) as [Hs|Hs].
  - split; [exact Hs|]. rewrite (remainingText_at _ Hwf Hs) in E. congruence.
  - rewrite (remainingText_end _ Hwf) in E by lia. discriminate.
Qed.

(** X4. A continuation directly followed by a backslash: the call passes the
    continuation and stops in front of the backslash, so it returns no
    character although text remains. *)
Theorem read_returns_zero_before_the_end (this : Input) (maxSize lineNo : Z)
  (rest : list ascii) :
  wellFormed this -> 0 < maxSize -> lineNo <> INT_MAX ->
  remainingText this = backslash :: newline :: backslash :: rest ->
  exists r, read this maxSize lineNo = Some r /\
            nRead r = 0 /\ buf r = [] /\ PPInput.lineNo r = lineNo + 1 /\
            remainingText (after r) = backslash :: rest.
Proof.
  intros Hwf Hmax Hline Htext.
  destruct (remainingText_nonempty _ _ _ Hwf Htext) as [Hs Hc].
  destruct (skipChar_spec this Hwf Hs) as (Hwf1 & HT & Hptr).
  rewrite Htext, Hc in HT. injection HT as HT. symmetry in HT.
  destruct (remainingText_nonempty _ _ _ Hwf1 HT) as [Hs1 Hc1].
  destruct (skipChar_spec _ Hwf1 Hs1) as (Hwf2 & HT1 & _).
  rewrite HT, Hc1 in HT1. injection HT1 as HT1. symmetry in HT1.
  unfold read.
  destruct (Z.ltb_spec (sIndex (mReadLoc this)) (mCount this)) as [_|]; [|lia].
  destruct (Z.ltb_spec 0 maxSize) as [_|]; [|lia]. cbn [andb].
  rewrite Hc. change (Ascii.eqb backslash backslash) with true. cbv iota.
  destruct (skipChar this) as [ptr this1]. cbn [fst snd] in *. subst ptr.
  destruct (Z.ltb_spec (sIndex (mReadLoc this1)) (mCount this1)) as [_|]; [|lia].
  rewrite Hc1. change (Ascii.eqb newline newline) with true. cbv iota.
  destruct (skipChar this1) as [ptr2 this2]. cbn [fst snd] in *.
  destruct (Z.eqb_spec lineNo INT_MAX) as [|_]; [contradiction|].
  pose proof (wf_sIndex _ Hwf2) as Hs2.
  destruct (readLoop_spec maxSize Hmax (S (Z.to_nat (mCount this2))) this2 []
              0 maxSize Hwf2 ltac:(lia) ltac:(right; lia))
    as (pre & this' & E & Hwf' & Hpre & Ht).
  rewrite E. eexists. split; [reflexivity|]. cbn [nRead buf PPInput.lineNo after].
  assert (pre = []) as ->.
  { destruct pre as [|c pre]; [reflexivity|].
    rewrite HT1 in Ht. cbn [app] in Ht. injection Ht as <- _.
    inversion Hpre as [|? ? Hb _]. discriminate Hb. }
  cbn [length app] in *. rewrite <- Ht. auto.
Qed.

Lemma read_returns_zero_before_the_end_witness :
  exists r,
    read (Input_ctor 1 [[backslash; newline; backslash; newline; "b"%char]] None)
      8 1 = Some r /\
    nRead r = 0 /\ buf r = [] /\ PPInput.lineNo r = 2 /\
    remainingText (after r) = [backslash; newline; "b"%char].
Proof.
  apply (read_returns_zero_before_the_end
           (Input_ctor 1 [[backslash; newline; backslash; newline; "b"%char]] None)
           8 1 [newline; "b"%char]).
  - split.
    + reflexivity.
    + reflexivity.
    + repeat constructor; discriminate.
    + repeat constructor.
    + vm_compute. split; discriminate.
    + vm_compute. split; [discriminate|reflexivity].
  - lia.
  - discriminate.
  - reflexivity.
Defined.

(** *** The assertion of [skipChar] and the overflow of the line number *)

Lemma wellFormed_skipChar_asserted this :
  wellFormed this -> sIndex (mReadLoc this) < mCount this ->
  skipChar_asserted this = true.
Proof.
  intros H Hs. pose proof (wf_cIndex _ H) as Hc.
  apply Z.ltb_lt in Hs. rewrite Hs in Hc.
  unfold skipChar_asserted. apply Z.ltb_lt. lia.
Qed.

(** On a well-formed input no call of [skipChar] from [read] fails its
    assertion. *)
Lemma wellFormed_read_asserted this maxSize :
  wellFormed this -> read_asserted this maxSize = true.
Proof.
  intros Hwf. unfold read_asserted.
  destruct (Z.ltb_spec (sIndex (mReadLoc this)) (mCount this)) as [Hs|];
    [|reflexivity].
  destruct (0 <? maxSize); [|reflexivity]. cbn [andb].
  destruct (Ascii.eqb (deref this (mReadLoc this)) backslash); [|reflexivity].
  rewrite (wellFormed_skipChar_asserted _ Hwf Hs). cbn [andb].
  destruct (skipChar_spec this Hwf Hs) as (Hwf1 & _ & Hptr).
  destruct (skipChar this) as [ptr this1]. cbn [fst snd] in *.
  destruct (Z.ltb_spec (sIndex (mReadLoc this1)) (mCount this1)) as [Hs1|];
    subst ptr; [|reflexivity].
  rewrite (wellFormed_skipChar_asserted _ Hwf1 Hs1).
  destruct (Ascii.eqb (deref this1 (mReadLoc this1)) newline); [reflexivity|].
  destruct (Ascii.eqb (deref this1 (mReadLoc this1)) carriage_return);
    [|reflexivity].
  cbn [andb].
  destruct (skipChar_spec this1 Hwf1 Hs1) as (Hwf2 & _ & Hptr2).
  destruct (skipChar this1) as [ptr2 this2]. cbn [fst snd] in *.
  destruct (Z.ltb_spec (sIndex (mReadLoc this2)) (mCount this2)) as [Hs2|];
    subst ptr2; [|reflexivity].
  rewrite (wellFormed_skipChar_asserted _ Hwf2 Hs2).
  now destruct (Ascii.eqb (deref this2 (mReadLoc this2)) newline).
Qed.

(** X6. On a well-formed input whose text starts with a continuation, a
    backslash followed by a newline or by a carriage return, a call of
    [read] with the line number at [INT_MAX] fails no assertion of
    [skipChar], returns no byte and leaves the line number alone. *)
Theorem read_overflow_returns_zero (this : Input) (maxSize : Z) (c : ascii)
  (rest : list ascii) :
  wellFormed this -> 0 < maxSize ->
  remainingText this = backslash :: c :: rest ->
  c = newline \/ c = carriage_return ->
  read_asserted this maxSize = true /\
  exists r, read this maxSize INT_MAX = Some r /\
            nRead r = 0 /\ buf r = [] /\ lineNo r = INT_MAX.
Proof.
  intros Hwf Hmax Htext Hc.
  split; [apply wellFormed_read_asserted; exact Hwf|].
  destruct (remainingText_nonempty _ _ _ Hwf Htext) as [Hs Hb].
  destruct (skipChar_spec this Hwf Hs) as (Hwf1 & HT & Hptr).
  rewrite Htext, Hb in HT. injection HT as HT. symmetry in HT.
  destruct (remainingText_nonempty _ _ _ Hwf1 HT) as [Hs1 Hc1].
  unfold read.
  destruct (Z.ltb_spec (sIndex (mReadLoc this)) (mCount this)) as [_|]; [|lia].
  destruct (Z.ltb_spec 0 maxSize) as [_|]; [|lia]. cbn [andb].
  rewrite Hb. change (Ascii.eqb backslash backslash) with true. cbv iota.
  destruct (skipChar this) as [ptr this1]. cbn [fst snd] in *. subst ptr.
  destruct (Z.ltb_spec (sIndex (mReadLoc this1)) (mCount this1)) as [_|]; [|lia].
  rewrite Hc1.
  change (INT_MAX =? INT_MAX) with true.
  destruct Hc as [-> | ->].
  - change (Ascii.eqb newline newline) with true. cbv iota.
    destruct (skipChar this1) as [c2 this2].
    eexists. split; [reflexivity|]. auto.
  - change (Ascii.eqb carriage_return newline) with false.
    change (Ascii.eqb carriage_return carriage_return) with true. cbv iota.
    destruct (skipChar this1) as [c2 this2].
    eexists. split; [reflexivity|]. auto.
Qed.

Lemma read_overflow_returns_zero_witness :
  read_asserted (Input_ctor 1 [[backslash; newline; "b"%char]] None) 16 = true /\
  exists r,
    read (Input_ctor 1 [[backslash; newline; "b"%char]] None) 16 INT_MAX = Some r /\
    nRead r = 0 /\ buf r = [] /\ PPInput.lineNo r = INT_MAX.
Proof.
  apply (read_overflow_returns_zero
           (Input_ctor 1 [[backslash; newline; "b"%char]] None) 16
           newline ["b"%char]).
  - split.
    + reflexivity.
    + reflexivity.
    + repeat constructor; discriminate.
    + repeat constructor.
    + vm_compute. split; discriminate.
    + vm_compute. split; [discriminate|reflexivity].
  - lia.
  - reflexivity.
  - left. reflexivity.
Defined.

Lemma strlen_length (s : list ascii) :
  Forall (fun c => c <> NUL) s -> strlen s = Z.of_nat (length s).
Proof.
  induction 1 as [|c s Hc _ IH]; [reflexivity|].
  cbn [strlen length]. destruct (Ascii.eqb_spec c NUL); [contradiction|]. lia.
Qed.

(** X5. The constructor, given NUL-terminated strings none of which is empty
    (a null [length] array, or negative entries) or the strings with their
    lengths, builds an input that is well formed, with the read location
    at the start. *)
Theorem Input_ctor_wellFormed (string : list (list ascii))
  (length : option (list Z)) :
  Forall (fun s => s <> [] /\ Forall (fun c => c <> NUL) s /\
                   Z.of_nat (List.length s) < 2 ^ 64) string ->
  match length with
  | None => True
  | Some l => forall i, (i < List.length string)%nat ->
                nth i l (-1) < 0 \/
                nth i l (-1) = Z.of_nat (List.length (nth i string []))
  end ->
  let this := Input_ctor (Z.of_nat (List.length string)) string length in
  wellFormed this /\ mReadLoc this = mkLocation 0 0 /\
  remainingText this = concat string.
Proof.
  intros Hstr Hlen this.
  assert (Hl : mLength this = map (fun s => Z.of_nat (List.length s)) string).
  { subst this. unfold Input_ctor. cbn [mLength]. rewrite Nat2Z.id.
    apply nth_ext with (d := 0) (d' := 0).
    - now rewrite !length_map, length_seq.
    - intros i Hi. rewrite length_map, length_seq in Hi.
      rewrite (nth_indep _ 0 ((fun i => if (match length with
                                            | Some l => nth i l (-1)
                                            | None => -1 end) <? 0
                                        then strlen (nth i string [])
                                        else match length with
                                             | Some l => nth i l (-1)
                                             | None => -1 end) 0%nat))
        by (now rewrite length_map, length_seq).
      rewrite (map_nth (fun i => if (match length with
                                     | Some l => nth i l (-1)
                                     | None => -1 end) <? 0
                                 then strlen (nth i string [])
                                 else match length with
                                      | Some l => nth i l (-1)
                                      | None => -1 end)).
      rewrite seq_nth by exact Hi. cbn [Nat.add].
      rewrite (nth_indep _ 0 (Z.of_nat (List.length (@nil ascii))))
        by (now rewrite length_map).
      rewrite (map_nth (fun s => Z.of_nat (List.length s))).
      assert (Hs : strlen (nth i string []) = Z.of_nat (List.length (nth i string []))).
      { apply strlen_length. rewrite List.Forall_forall in Hstr.
        apply Hstr. now apply nth_In. }
      destruct length as [l|].
      + destruct (Hlen i Hi) as [Hneg|Heq].
        * destruct (Z.ltb_spec (nth i l (-1)) 0); [exact Hs|lia].
        * destruct (Z.ltb_spec (nth i l (-1)) 0); [exact Hs|exact Heq].
      + exact Hs. }
  assert (Hwf : wellFormed this).
  { split.
    - reflexivity.
    - exact Hl.
    - eapply Forall_impl; [exact Hstr|]. cbn. tauto.
    - eapply Forall_impl; [exact Hstr|]. cbn. tauto.
    - cbn. lia.
    - cbn [this Input_ctor mReadLoc sIndex cIndex mCount].
      destruct (Z.ltb_spec 0 (Z.of_nat (List.length string))) as [Hpos|];
        [|reflexivity].
      unfold lengthAt. rewrite Hl. change (Z.to_nat 0) with 0%nat.
      destruct string as [|s string']; [cbn in Hpos; lia|].
      cbn [map nth]. inversion Hstr as [|? ? (Hne & _) _]; subst.
      destruct s; [contradiction|]. cbn [List.length]. lia. }
  split; [exact Hwf|]. split; [reflexivity|].
  unfold remainingText. cbn [this Input_ctor mReadLoc sIndex cIndex mString].
  change (Z.to_nat 0) with 0%nat. cbn [skipn].
  destruct string; reflexivity.
Qed.

Lemma Input_ctor_wellFormed_witness :
  wellFormed (Input_ctor 2 [cstr "a" ++ [backslash]; newline :: cstr "b"]
                (Some [-1; 2])) /\
  remainingText (Input_ctor 2 [cstr "a" ++ [backslash]; newline :: cstr "b"]
                   (Some [-1; 2]))
  = cstr "a" ++ [backslash; newline] ++ cstr "b".
Proof.
  destruct (Input_ctor_wellFormed
              [cstr "a" ++ [backslash]; newline :: cstr "b"] (Some [-1; 2]))
    as (Hwf & _ & Ht).
  - repeat constructor; try discriminate.
  - intros i Hi.
    destruct i as [|[|i]]; cbn in Hi |- *;
      [left; lia | right; reflexivity | lia].
  - split; [exact Hwf|exact Ht].
Defined.

(** The theorem at [joinedContinuation], read in two calls. *)
Lemma reads_splice_lines_witness :
  exists out l this',
    readAll [16; 16] joinedContinuation 1 = Some (out, l, this') /\
    wellFormed this' /\
    out ++ fst (spliced (remainingText this'))
    = fst (spliced (remainingText joinedContinuation)) /\
    l + snd (spliced (remainingText this'))
    = 1 + snd (spliced (remainingText joinedContinuation)).
Proof.
  apply reads_splice_lines.
  - exact joinedContinuation_wellFormed.
  - repeat constructor.
  - vm_compute. discriminate.
Defined.


End PPInputFacts.

Module DirectiveFacts.
Import Directive.

(** *** Unfolding helpers *)

Lemma isType_true t ty : isType t ty = true <-> type t = ty.
Proof. unfold isType. apply bool_decide_eq_true. Qed.

Lemma isType_false t ty : isType t ty = false <-> type t <> ty.
Proof. unfold isType. apply bool_decide_eq_false. Qed.

Lemma lexToken_cons p tok rest :
  input (mTokenizer p) = tok :: rest ->
  lexToken p = (tok, set_input rest p).
Proof. unfold lexToken, Tokenizer_lex. now intros ->. Qed.

Lemma skipUntilEOD_keeps token p :
  let p' := snd (skipUntilEOD token p) in
  mMacroSet p' = mMacroSet p /\ mDiagnostics p' = mDiagnostics p /\
  mDirectiveHandler p' = mDirectiveHandler p /\
  mConditionalStack p' = mConditionalStack p /\
  mShaderVersion p' = mShaderVersion p /\
  expressionParses p' = expressionParses p /\
  mPastFirstStatement p' = mPastFirstStatement p.
Proof.
  unfold skipUntilEOD.
  destruct (skipTokens token (input (mTokenizer p)) (eofLocation (mTokenizer p))).
  cbn. auto 10.
Qed.

(** *** [#undef] *)

(** C6. For [#undef name] with [name] in the macro table: a predefined
    entry is reported as such and the table is left alone; otherwise an
    entry under expansion (expansion count above zero) is reported as
    undefined while invoked and the table is left alone; otherwise the
    entry is erased, and the table then has no entry of that name. *)
Theorem undef_of_present_macro (token : Token) (p : DirectiveParser)
  (nameTok : Token) (rest : list Token) (m : Macro) :
  input (mTokenizer p) = nameTok :: rest ->
  type nameTok = IDENTIFIER ->
  mMacroSet p !! text nameTok = Some m ->
  let p' := snd (parseUndef token p) in
  (predefined m = true ->
     mMacroSet p' = mMacroSet p /\
     mDiagnostics p' = mDiagnostics p ++
       [mkDiag PP_MACRO_PREDEFINED_UNDEFINED (location nameTok) (text nameTok)]) /\
  (predefined m = false -> 0 < expansionCount m ->
     mMacroSet p' = mMacroSet p /\
     mDiagnostics p' = mDiagnostics p ++
       [mkDiag PP_MACRO_UNDEFINED_WHILE_INVOKED (location nameTok) (text nameTok)]) /\
  (predefined m = false -> expansionCount m <= 0 ->
     mMacroSet p' = delete (text nameTok) (mMacroSet p) /\
     mMacroSet p' !! text nameTok = None).
Proof.
  intros Hin Hty Hm. cbn zeta. unfold parseUndef.
  rewrite (lexToken_cons _ _ _ Hin).
  apply isType_true in Hty. rewrite Hty. cbn [negb].
  change (mMacroSet (set_input rest p)) with (mMacroSet p). rewrite Hm.
  split; [|split].
  - intros ->. cbn. auto.
  - intros -> Hc. apply Z.ltb_lt in Hc. rewrite Hc. cbn. auto.
  - intros -> Hc. apply Z.ltb_ge in Hc. rewrite Hc.
    match goal with |- context [lexToken ?q] => destruct (lexToken q) as [t q'] eqn:E end.
    assert (Eq : mMacroSet q' = delete (text nameTok) (mMacroSet p)).
    { unfold lexToken in E. destruct (Tokenizer_lex _) in E.
      injection E as <- <-. reflexivity. }
    destruct (negb (isEOD t)).
    + match goal with |- context [skipUntilEOD ?a ?b] =>
        destruct (skipUntilEOD_keeps a b) as (-> & _) end.
      cbn. rewrite Eq. split; auto. apply lookup_delete_eq.
    + cbn. rewrite Eq. split; auto. apply lookup_delete_eq.
Qed.

Lemma undef_of_present_macro_witness :
  input (mTokenizer undefSample) = [ident "FOO" 3; endOfLine 3] /\
  mMacroSet (snd (parseUndef (ident "undef" 3) undefSample)) !! "FOO" = None.
Proof.
  split; [reflexivity|].
  apply (undef_of_present_macro (ident "undef" 3) undefSample (ident "FOO" 3)
           [endOfLine 3] (mkMacro false kTypeObj "FOO" [] [] 0));
    try reflexivity; cbn; lia.
Defined.

(** *** [#define] *)

Lemma existsb_eqb_In x l : existsb (String.eqb x) l = true <-> In x l.
Proof.
  rewrite existsb_exists. split.
  - intros (y & Hin & E). apply String.eqb_eq in E. now subst.
  - intros H. exists x. split; auto. apply String.eqb_refl.
Qed.

Lemma collectParameters_repeats seen toks dup eof :
  repeatsParameter seen toks dup ->
  exists rest, collectParameters toks eof seen = ParametersDuplicate dup rest.
Proof.
  induction 1 as [seen dup rest Hty Hin | seen tok comma rest dup Hty Hnin Hc _ IH].
  - exists rest. cbn. apply isType_true in Hty. rewrite Hty. cbn.
    apply existsb_eqb_In in Hin. now rewrite Hin.
  - destruct IH as [rest' IH]. exists rest'. cbn.
    apply isType_true in Hty. rewrite Hty. cbn.
    assert (E : existsb (String.eqb (text tok)) seen = false).
    { apply not_true_is_false. intros H. now apply existsb_eqb_In in H. }
    rewrite E. unfold isChar. apply isType_true in Hc. rewrite Hc. exact IH.
Qed.

(** C5, as stated, fails: for [#define GL_A(x,x) x] the name is refused as
    reserved before the parameters are read, and that is the only
    diagnostic. *)
Lemma reserved_name_reported_first : ~ duplicateAlwaysReported.
Proof.
  intros H.
  destruct (H (ident "define" 1) reservedDuplicateDefine
              (spaced (ident "GL_A" 1)) (ident "x" 1)) as (d & Hin & Hid).
  - exists (punct "(" 1), [ident "x" 1; punct "," 1; ident "x" 1; punct ")" 1;
                           spaced (ident "x" 1); endOfLine 1].
    repeat split.
    apply repeats_later; try reflexivity.
    + intros [].
    + apply repeats_here; [reflexivity | now left].
  - vm_compute in Hin. destruct Hin as [<-|[]]. discriminate.
Qed.

(** C5, amended. When the parameter list of a function-like [#define]
    repeats a name the macro table is left as it was; and if the macro name
    is neither predefined nor reserved (prefix [GL_]), the last diagnostic
    reported is [PP_MACRO_DUPLICATE_PARAMETER_NAMES] at the repeated
    parameter. *)
Theorem duplicate_parameter_not_registered (token : Token) (p : DirectiveParser)
  (nameTok dup : Token) :
  definesWithRepeatedParameter p nameTok dup ->
  let p' := snd (parseDefine token p) in
  mMacroSet p' = mMacroSet p /\
  (isMacroPredefined (text nameTok) (mMacroSet p) = false ->
   isMacroNameReserved (text nameTok) = false ->
   exists before,
     mDiagnostics p' = before ++
       [mkDiag PP_MACRO_DUPLICATE_PARAMETER_NAMES (location dup) (text dup)]).
Proof.
  intros (lparen & toks & Hin & Hty & Hlp & Hsp & Hrep). cbn zeta.
  unfold parseDefine. rewrite (lexToken_cons _ _ _ Hin).
  apply isType_true in Hty. rewrite Hty. cbn [negb].
  change (mMacroSet (set_input (lparen :: toks) p)) with (mMacroSet p).
  destruct (isMacroPredefined (text nameTok) (mMacroSet p)) eqn:Hpre.
  { cbn. split; auto. discriminate. }
  destruct (isMacroNameReserved (text nameTok)) eqn:Hres.
  { cbn. split; auto. discriminate. }
  match goal with |- context [lexToken ?q] =>
    assert (E : lexToken q = (lparen, set_input toks q))
      by (apply lexToken_cons; destruct (hasDoubleUnderscores _); reflexivity);
    rewrite E; clear E
  end.
  unfold isChar. apply isType_true in Hlp. rewrite Hlp, Hsp. cbn [negb andb].
  match goal with |- context [collectParameters ?l ?e []] =>
    destruct (collectParameters_repeats [] toks dup e Hrep) as [rest' Hc];
    replace l with toks by (destruct (hasDoubleUnderscores _); reflexivity);
    rewrite Hc
  end.
  cbn [snd]. split.
  - destruct (hasDoubleUnderscores _); reflexivity.
  - intros _ _. eexists. unfold reportToken, report. cbn. reflexivity.
Qed.

Lemma duplicate_parameter_not_registered_witness :
  definesWithRepeatedParameter duplicateDefine (spaced (ident "A" 1)) (ident "x" 1) /\
  mMacroSet (snd (parseDefine (ident "define" 1) duplicateDefine))
  = mMacroSet duplicateDefine.
Proof.
  assert (H : definesWithRepeatedParameter duplicateDefine
                (spaced (ident "A" 1)) (ident "x" 1)).
  { exists (punct "(" 1), [ident "x" 1; punct "," 1; ident "x" 1; punct ")" 1;
                           spaced (ident "x" 1); endOfLine 1].
    repeat split.
    apply repeats_later; try reflexivity.
    - intros [].
    - apply repeats_here; [reflexivity | now left]. }
  split; [exact H|].
  apply (duplicate_parameter_not_registered (ident "define" 1) duplicateDefine
           (spaced (ident "A" 1)) (ident "x" 1) H).
Defined.

(** The boundary scenario of the specification: [#define A(x,x) x] yields
    the diagnostic on the second [x], and [A] is not registered. *)
Example define_A_x_x :
  let p' := snd (parseDefine (ident "define" 1) duplicateDefine) in
  mDiagnostics p' = [mkDiag PP_MACRO_DUPLICATE_PARAMETER_NAMES (mkLoc 0 1) "x"] /\
  mMacroSet p' !! "A" = None.
Proof. split; reflexivity. Qed.

(** *** [#version] *)

Lemma versionLoop_unfold ext token rest eof state valid version diags :
  versionLoop ext token rest eof state valid version diags =
  if valid && negb (isEOD token) then
    let '(state, valid, version, diags) :=
      versionStep ext token state valid version diags in
    match rest with
    | [] => (eofToken eof, [], state, valid, version, diags)
    | t :: rest' => versionLoop ext t rest' eof state valid version diags
    end
  else (token, rest, state, valid, version, diags).
Proof.
  unfold isEOD. rewrite negb_orb, andb_assoc. destruct rest; reflexivity.
Qed.

Lemma versionLoop_invalid ext token rest eof state version diags :
  versionLoop ext token rest eof state false version diags
  = (token, rest, state, false, version, diags).
Proof. now rewrite versionLoop_unfold. Qed.

Lemma versionLoop_eod ext token rest eof state valid version diags :
  isEOD token = true ->
  versionLoop ext token rest eof state valid version diags
  = (token, rest, state, valid, version, diags).
Proof. intros H. rewrite versionLoop_unfold, H. now rewrite andb_false_r. Qed.

Lemma eofToken_isEOD eof : isEOD (eofToken eof) = true.
Proof. reflexivity. Qed.

(** What the loop of [parseVersion] leaves behind. *)
Lemma versionLoop_result ext token rest eof :
  let '(eod, rest', state, valid, version, diags) :=
    versionLoop ext token rest eof VERSION_NUMBER true 0 [] in
  (valid = false /\ diags <> []) \/
  (valid = true /\ diags = [] /\ isEOD eod = true /\
   ((state = VERSION_NUMBER \/ state = VERSION_PROFILE) \/
    (state = VERSION_ENDLINE /\ type token = CONST_INT /\
     Token_iValue ext token = Some version /\
     ((version < 300 /\ endsDirective rest eof eod) \/
      (300 <= version /\
       exists es tail', rest = es :: tail' /\
         type es = IDENTIFIER /\ text es = "es" /\
         endsDirective tail' eof eod))))).
Proof.
  rewrite versionLoop_unfold. cbn [andb].
  destruct (isEOD token) eqn:Heod; cbn [negb].
  { right. auto 10. }
  unfold versionStep.
  destruct (isType token CONST_INT) eqn:Hty; cbn [negb].
  2:{ destruct rest; [|rewrite versionLoop_invalid]; left; split; auto;
      discriminate. }
  apply isType_true in Hty.
  destruct (Token_iValue ext token) as [v|] eqn:Hv.
  2:{ destruct rest; [|rewrite versionLoop_invalid]; left; split; auto;
      discriminate. }
  destruct (v <? 300) eqn:Hlt.
  - (* below 300: the line must end here *)
    apply Z.ltb_lt in Hlt.
    destruct rest as [|t1 rest1].
    { right. repeat split; auto. right. repeat split; auto.
      left. repeat split; auto. }
    rewrite versionLoop_unfold. cbn [andb].
    destruct (isEOD t1) eqn:H1; cbn [negb].
    { right. repeat split; auto. right. repeat split; auto.
      left. repeat split; auto. }
    cbn. destruct rest1; [|rewrite versionLoop_invalid]; left; split; auto;
      discriminate.
  - (* 300 and above: [es] must follow *)
    apply Z.ltb_ge in Hlt.
    destruct rest as [|t1 rest1].
    { right. repeat split; auto. }
    rewrite versionLoop_unfold. cbn [andb].
    destruct (isEOD t1) eqn:H1; cbn [negb].
    { right. repeat split; auto. }
    cbn [versionStep].
    destruct (negb (isType t1 IDENTIFIER) || negb (String.eqb (text t1) "es"))
      eqn:Hes.
    { destruct rest1; [|rewrite versionLoop_invalid]; left; split; auto;
        discriminate. }
    apply orb_false_elim in Hes as [Hid Htx].
    apply negb_false_iff in Hid, Htx.
    apply isType_true in Hid. apply String.eqb_eq in Htx.
    destruct rest1 as [|t2 rest2].
    { right. repeat split; auto. right. repeat split; auto.
      right. split; auto. exists t1, []. repeat split; auto. }
    rewrite versionLoop_unfold. cbn [andb].
    destruct (isEOD t2) eqn:H2; cbn [negb].
    { right. repeat split; auto. right. repeat split; auto.
      right. split; auto. exists t1, (t2 :: rest2). repeat split; auto. }
    cbn. destruct rest2; [|rewrite versionLoop_invalid]; left; split; auto;
      discriminate.
Qed.

Lemma skipUntilEOD_diags token p :
  mDiagnostics (snd (skipUntilEOD token p)) = mDiagnostics p.
Proof. apply skipUntilEOD_keeps. Qed.

(** C4. [parseVersion] either reports at least one diagnostic and leaves
    the handler, the shader version and the macro table alone, or reports
    nothing and hands the version to the handler; the latter only for a
    directive that comes before every other statement and consists of a
    number, followed by the identifier [es] when the number is 300 or
    more, the line then ending on line 1.  A directive that is not the
    first statement gets [PP_VERSION_NOT_FIRST_STATEMENT] and nothing
    else happens. *)
Theorem version_directive_checked (ext : Externals) (token : Token)
  (p : DirectiveParser) :
  let eod := fst (parseVersion ext token p) in
  let p' := snd (parseVersion ext token p) in
  (mPastFirstStatement p = true ->
   mDiagnostics p' = mDiagnostics p ++
     [mkDiag PP_VERSION_NOT_FIRST_STATEMENT (location token) (text token)]) /\
  (((exists d ds, mDiagnostics p' = mDiagnostics p ++ d :: ds) /\
    mDirectiveHandler p' = mDirectiveHandler p /\
    mShaderVersion p' = mShaderVersion p /\
    mMacroSet p' = mMacroSet p)
   \/
   (exists N,
      mDiagnostics p' = mDiagnostics p /\
      mDirectiveHandler p' = mDirectiveHandler p ++ [handleVersion (location eod) N] /\
      mPastFirstStatement p = false /\
      wellFormedVersion ext (input (mTokenizer p)) (eofOf p) N eod)).
Proof.
  cbn zeta. unfold parseVersion.
  destruct (mPastFirstStatement p) eqn:Hpast.
  { match goal with |- context [skipUntilEOD ?a ?b] =>
      pose proof (skipUntilEOD_keeps a b) as (Em & Ed & Eh & _ & Ev & _) end.
    split.
    - intros _. rewrite Ed. reflexivity.
    - left. rewrite Ed, Eh, Ev, Em. cbn. repeat split; auto.
      do 2 eexists. reflexivity. }
  split; [discriminate|].
  unfold lexToken, Tokenizer_lex.
  destruct (input (mTokenizer p)) as [|first rest] eqn:Hin.
  - (* nothing follows [#version] *)
    cbn [set_tokenizer mTokenizer input eofOf eofLocation]. rewrite Hin.
    rewrite versionLoop_eod by reflexivity.
    left. cbn. rewrite ?app_nil_r. repeat split; auto. do 2 eexists. reflexivity.
  - cbn [set_tokenizer mTokenizer input eofOf eofLocation].
    pose proof (versionLoop_result ext first rest (eofLocation (mTokenizer p)))
      as Hloop.
    destruct (versionLoop ext first rest (eofLocation (mTokenizer p))
                VERSION_NUMBER true 0 [])
      as [[[[[eod rest'] state] valid] version] diags].
    destruct Hloop as [[-> Hd] | (-> & -> & Heod & Hst)].
    + (* the loop found the directive invalid *)
      left. cbn. repeat split; auto.
      destruct diags as [|d ds]; [congruence|]. now exists d, ds.
    + cbn [andb]. destruct Hst as [[-> | ->] | (-> & Hty & Hv & Hform)].
      * left. cbn. rewrite ?app_nil_r. repeat split; auto. do 2 eexists. reflexivity.
      * left. cbn. rewrite ?app_nil_r. repeat split; auto. do 2 eexists. reflexivity.
      * cbn [isEndline negb andb].
        destruct ((300 <=? version) && (1 <? line (location eod))) eqn:Hline.
        { left. cbn. rewrite ?app_nil_r. repeat split; auto. do 2 eexists. reflexivity. }
        right. exists version. cbn. rewrite app_nil_r.
        repeat split; auto.
        exists first, rest. repeat split; auto.
        destruct Hform as [[Hlt He] | (Hge & es & tail' & -> & Hes1 & Hes2 & He)].
        { left. split; auto. }
        right. split; auto. exists es, tail'. repeat split; auto; try apply He.
        apply andb_false_iff in Hline as [H|H].
        -- apply Z.leb_gt in H. lia.
        -- apply Z.ltb_ge in H. exact H.
Qed.

(** [#version 300 es] on line 1 is handed to the handler; on line 2 it is
    refused, as is [#version 300] without a profile and [#version 300 core]. *)
Example version_300_es_line_1 :
  let p' := snd (parseVersion sampleExternals (ident "version" 1)
                   (parserOn [number "300" 1; spaced (ident "es" 1); endOfLine 1] 2)) in
  mDiagnostics p' = [] /\ mDirectiveHandler p' = [handleVersion (mkLoc 0 1) 300] /\
  mShaderVersion p' = 300.
Proof. vm_compute. auto. Qed.

Example version_300_es_line_2 :
  let p' := snd (parseVersion sampleExternals (ident "version" 2)
                   (parserOn [number "300" 2; spaced (ident "es" 2); endOfLine 2] 3)) in
  mDiagnostics p' = [mkDiag PP_VERSION_NOT_FIRST_LINE_ESSL3 (mkLoc 0 2) EmptyString] /\
  mDirectiveHandler p' = [].
Proof. vm_compute. auto. Qed.

Example version_300_no_profile :
  let p' := snd (parseVersion sampleExternals (ident "version" 1)
                   (parserOn [number "300" 1; endOfLine 1] 2)) in
  mDiagnostics p' = [mkDiag PP_INVALID_VERSION_DIRECTIVE (mkLoc 0 1) EmptyString] /\
  mDirectiveHandler p' = [].
Proof. vm_compute. auto. Qed.

Example version_300_core :
  let p' := snd (parseVersion sampleExternals (ident "version" 1)
                   (parserOn [number "300" 1; spaced (ident "core" 1); endOfLine 1] 2)) in
  mDiagnostics p' = [mkDiag PP_INVALID_VERSION_DIRECTIVE (mkLoc 0 1) "core"] /\
  mDirectiveHandler p' = [].
Proof. vm_compute. auto. Qed.

(** *** [#elif] *)

Lemma parseExpressionIf_stack ext token p :
  mConditionalStack (snd (parseExpressionIf ext token p)) = mConditionalStack p.
Proof.
  unfold parseExpressionIf.
  destruct (negb (isEOD _)); [|reflexivity].
  match goal with |- context [skipUntilEOD ?a ?b] =>
    pose proof (skipUntilEOD_keeps a b) as (_ & _ & _ & Es & _);
    destruct (skipUntilEOD a b) end.
  cbn in *. exact Es.
Qed.

Lemma parseExpressionIfdef_stack token p :
  mConditionalStack (snd (parseExpressionIfdef token p)) = mConditionalStack p.
Proof.
  unfold parseExpressionIfdef, lexToken.
  destruct (Tokenizer_lex (mTokenizer p)) as [t tk].
  destruct (negb (isType t IDENTIFIER)).
  - match goal with |- context [skipUntilEOD ?a ?b] =>
      pose proof (skipUntilEOD_keeps a b) as (_ & _ & _ & Es & _);
      destruct (skipUntilEOD a b) end.
    cbn in *. exact Es.
  - cbn [set_tokenizer mTokenizer].
    destruct (Tokenizer_lex tk) as [t2 tk2].
    destruct (negb (isEOD t2)); [|reflexivity].
    match goal with |- context [skipUntilEOD ?a ?b] =>
      pose proof (skipUntilEOD_keeps a b) as (_ & _ & _ & Es & _);
      destruct (skipUntilEOD a b) end.
    cbn in *. exact Es.
Qed.

Lemma groupEvaluatedTrue_taken ext p0 : groupEvaluatedTrue ext p0 -> groupTaken p0.
Proof.
  intros (b & below & Hst & Hv & [(token & p & ->) | (token & p & b' & below' & Hp & Hv' & ->)]).
  - exists b, below. split; [exact Hst|]. split; [exact Hv|].
    revert Hst. unfold parseConditionalIf.
    destruct (skipping p).
    + destruct (skipUntilEOD token p). cbn. intros [= <- <-]. discriminate.
    + destruct (getDirective token);
        repeat match goal with
               | |- context [match ?x with pair _ _ => _ end] => destruct x
               end;
        cbn; intros [= <- <-]; (split; [reflexivity|discriminate]).
  - exists b, below. split; [exact Hst|]. split; [exact Hv|].
    revert Hst. unfold parseElif. rewrite Hp.
    destruct (skipBlock b') eqn:Hsb.
    { pose proof (skipUntilEOD_keeps token p) as (_ & _ & _ & Es & _).
      cbn in Es. rewrite Es, Hp. intros [= <- <-]. congruence. }
    destruct (foundElseGroup b') eqn:Hfe.
    { match goal with |- context [skipUntilEOD ?a ?b] =>
        pose proof (skipUntilEOD_keeps a b) as (_ & _ & _ & Es & _) end.
      cbn in Es. rewrite Es, Hp. intros [= <- <-]. congruence. }
    rewrite Hv'.
    pose proof (parseExpressionIf_stack ext token p) as Es.
    destruct (parseExpressionIf ext token p) as [[e t'] p'].
    cbn in Es. rewrite Es, Hp. cbn. intros [= <- <-]. cbn.
    split; [exact Hsb|]. intros; congruence.
Qed.

Lemma parseElif_taken ext token p :
  groupTaken p ->
  let p' := snd (parseElif ext token p) in
  groupTaken p' /\
  expressionParses p' = expressionParses p /\
  exists b below, mConditionalStack p' = b :: below /\ skipGroup b = true.
Proof.
  intros (b & below & Hst & Hv & Hsb & Hel). cbn zeta.
  unfold groupTaken, parseElif. rewrite Hst, Hsb.
  destruct (foundElseGroup b) eqn:Hfe.
  - match goal with |- context [skipUntilEOD ?a ?b] =>
      pose proof (skipUntilEOD_keeps a b) as (_ & _ & _ & Es & _ & Ee & _) end.
    cbn in Es, Ee. rewrite Es, Ee, Hst. split; [|split; [reflexivity|]].
    + exists b, below. rewrite Hfe. auto.
    + exists b, below. auto.
  - rewrite Hv.
    match goal with |- context [skipUntilEOD ?a ?b] =>
      pose proof (skipUntilEOD_keeps a b) as (_ & _ & _ & Es & _ & Ee & _) end.
    cbn in Es, Ee. rewrite Es, Ee. split; [|split; [reflexivity|]].
    + eexists _, below. split; [reflexivity|]. cbn. auto.
    + eexists _, below. split; [reflexivity|]. reflexivity.
Qed.

Lemma parseElse_taken token p :
  groupTaken p -> groupTaken (snd (parseElse token p)).
Proof.
  intros (b & below & Hst & Hv & Hsb & Hel).
  unfold parseElse. rewrite Hst, Hsb.
  destruct (foundElseGroup b) eqn:Hfe.
  - match goal with |- context [skipUntilEOD ?a ?b] =>
      pose proof (skipUntilEOD_keeps a b) as (_ & _ & _ & Es & _) end.
    cbn in Es. unfold groupTaken. rewrite Es, Hst.
    exists b, below. rewrite Hfe. auto.
  - unfold lexToken. cbn [set_stack mTokenizer].
    destruct (Tokenizer_lex (mTokenizer p)) as [t tk].
    destruct (negb (isEOD t)).
    + match goal with |- context [skipUntilEOD ?a ?b] =>
        pose proof (skipUntilEOD_keeps a b) as (_ & _ & _ & Es & _) end.
      cbn in Es. unfold groupTaken. rewrite Es.
      eexists _, below. split; [reflexivity|]. cbn. auto.
    + eexists _, below. split; [reflexivity|]. cbn. auto.
Qed.

Lemma sameBlockStep_taken ext p p' :
  sameBlockStep ext p p' -> groupTaken p -> groupTaken p'.
Proof.
  intros [token q | token q | q q' Hs] H.
  - now apply parseElif_taken.
  - now apply parseElse_taken.
  - unfold groupTaken. now rewrite Hs.
Qed.

Lemma sameBlockRun_taken ext p p' :
  rtc (sameBlockStep ext) p p' -> groupTaken p -> groupTaken p'.
Proof.
  induction 1 as [|p q r Hstep _ IH]; auto.
  intros H. apply IH. now apply (sameBlockStep_taken ext p).
Qed.

(** C7. Once a group of a conditional block has evaluated true, every
    later [#elif] of that block, whatever else was processed in between
    while the block stayed on top of the stack, leaves [skipGroup] set and
    calls the expression parser not once.  More generally no [#elif] whose
    block has [foundValidGroup] or [skipBlock] set calls the expression
    parser, and under [skipBlock] the directive is skipped silently: the
    block and the diagnostics are as before. *)
Theorem elif_after_true_group_not_evaluated (ext : Externals) (token : Token)
  (p : DirectiveParser) :
  let p' := snd (parseElif ext token p) in
  (forall p0, groupEvaluatedTrue ext p0 -> rtc (sameBlockStep ext) p0 p ->
     expressionParses p' = expressionParses p /\
     exists b below, mConditionalStack p' = b :: below /\ skipGroup b = true) /\
  (forall b below, mConditionalStack p = b :: below ->
     foundValidGroup b = true \/ skipBlock b = true ->
     expressionParses p' = expressionParses p) /\
  (forall b below, mConditionalStack p = b :: below -> skipBlock b = true ->
     mConditionalStack p' = mConditionalStack p /\
     mDiagnostics p' = mDiagnostics p).
Proof.
  cbn zeta. split; [|split].
  - intros p0 H0 Hrun.
    apply groupEvaluatedTrue_taken in H0.
    apply (sameBlockRun_taken ext p0 p Hrun) in H0.
    now destruct (parseElif_taken ext token p H0) as (_ & He & Hb).
  - intros b below Hst H. unfold parseElif. rewrite Hst.
    destruct (skipBlock b) eqn:Hsb.
    { apply skipUntilEOD_keeps. }
    destruct (foundElseGroup b).
    { match goal with |- context [skipUntilEOD ?a ?b] =>
        pose proof (skipUntilEOD_keeps a b) as (_ & _ & _ & _ & _ & Ee & _) end.
      exact Ee. }
    destruct H as [-> | H]; [|discriminate].
    match goal with |- context [skipUntilEOD ?a ?b] =>
      pose proof (skipUntilEOD_keeps a b) as (_ & _ & _ & _ & _ & Ee & _) end.
    exact Ee.
  - intros b below Hst Hsb. unfold parseElif. rewrite Hst, Hsb.
    pose proof (skipUntilEOD_keeps token p) as (_ & Ed & _ & Es & _).
    cbn in Ed, Es. rewrite Hst in Es. auto.
Qed.

(** [#if 1] opens a block with a true group; the [#elif 1] that follows is
    not evaluated and the group after it is skipped. *)
Example elif_after_if_1 :
  let p0 := snd (parseConditionalIf sampleExternals (ident "if" 1)
                   (parserOn [number "1" 1; endOfLine 1; number "1" 2; endOfLine 2] 3)) in
  let p1 := snd (parseElif sampleExternals (ident "elif" 2) p0) in
  groupEvaluatedTrue sampleExternals p0 /\
  expressionParses p0 = 1%nat /\ expressionParses p1 = 1%nat /\
  skipping p1 = true.
Proof.
  cbn zeta. split; [|vm_compute; auto].
  eexists _, _. split; [reflexivity|]. split; [reflexivity|].
  left. eexists _, _. reflexivity.
Qed.

(** After [#if 0] and [#else] no condition of the block was true; an
    [#elif] there is reported as misplaced, not evaluated, and the group it
    is in (the [#else] group) goes on being processed. *)
Example elif_after_else_of_false_if :
  let p0 := snd (parseConditionalIf sampleExternals (ident "if" 1)
                   (parserOn [number "0" 1; endOfLine 1; endOfLine 2;
                              number "1" 3; endOfLine 3] 4)) in
  let p1 := snd (parseElse (ident "else" 2) p0) in
  let p2 := snd (parseElif sampleExternals (ident "elif" 3) p1) in
  expressionParses p1 = 1%nat /\ expressionParses p2 = 1%nat /\
  skipping p2 = false /\
  mDiagnostics p2 = [mkDiag PP_CONDITIONAL_ELIF_AFTER_ELSE (mkLoc 0 3) "elif"].
Proof. vm_compute. auto. Qed.

(** *** End of input inside a conditional block *)

Lemma lexToken_remaining p :
  (remaining (snd (lexToken p)) <= remaining p)%nat.
Proof.
  unfold lexToken, Tokenizer_lex, remaining.
  destruct (input (mTokenizer p)) eqn:E; cbn; rewrite ?E; cbn; lia.
Qed.

Lemma lexToken_progress p :
  type (fst (lexToken p)) <> LAST ->
  (remaining (snd (lexToken p)) < remaining p)%nat.
Proof.
  unfold lexToken, Tokenizer_lex, remaining.
  destruct (input (mTokenizer p)) eqn:E; cbn; [congruence|lia].
Qed.

Lemma skipTokens_length token rest eof :
  (length (snd (skipTokens token rest eof)) <= length rest)%nat.
Proof.
  revert token. induction rest as [|t rest IH]; intros token; cbn.
  - destruct (isEOD token); cbn; lia.
  - destruct (isEOD token); cbn; [lia|]. specialize (IH t). lia.
Qed.

Lemma skipUntilEOD_remaining token p :
  (remaining (snd (skipUntilEOD token p)) <= remaining p)%nat.
Proof.
  unfold skipUntilEOD, remaining.
  pose proof (skipTokens_length token (input (mTokenizer p))
                (eofLocation (mTokenizer p))).
  destruct (skipTokens _ _ _). cbn in *. lia.
Qed.

Lemma collectParameters_length n rest eof params :
  (length rest <= n)%nat ->
  match collectParameters rest eof params with
  | ParametersDone _ rest' _ | ParametersDuplicate _ rest' =>
      (length rest' <= length rest)%nat
  end.
Proof.
  revert rest params. induction n as [|n IH]; intros rest params Hn.
  - destruct rest; cbn in *; [lia|lia].
  - destruct rest as [|t1 rest1]; cbn; [lia|].
    destruct (negb (isType t1 IDENTIFIER)); [cbn; lia|].
    destruct (existsb _ _); [cbn; lia|].
    destruct rest1 as [|t2 rest2]; [cbn; lia|].
    destruct (isChar t2 ","); [|cbn; lia].
    specialize (IH rest2 (params ++ [text t1])).
    cbn in Hn. destruct (collectParameters rest2 eof _);
      cbn in *; specialize (IH ltac:(lia)); lia.
Qed.

Lemma collectReplacements_length token rest eof acc :
  (length (snd (fst (collectReplacements token rest eof acc))) <= length rest)%nat.
Proof.
  revert token acc. induction rest as [|t rest IH]; intros token acc; cbn.
  - destruct (_ || _); cbn; lia.
  - destruct (_ || _); cbn; [lia|]. specialize (IH t (acc ++ [setLocation (mkLoc 0 0) token])). lia.
Qed.

Lemma collectMessage_length token rest eof acc :
  (length (snd (fst (collectMessage token rest eof acc))) <= length rest)%nat.
Proof.
  revert token acc. induction rest as [|t rest IH]; intros token acc; cbn.
  - destruct (_ || _); cbn; lia.
  - destruct (_ || _); cbn; [lia|]. specialize (IH t (acc ++ printToken token)%string). lia.
Qed.


Lemma pragmaLoop_length token rest eof state valid name value :
  (length (snd (fst (fst (fst (fst
     (pragmaLoop token rest eof state valid name value)))))) <= length rest)%nat.
Proof.
  revert token state valid name value.
  induction rest as [|t rest IH]; intros token state valid name value; cbn.
  - destruct (_ || _); cbn; [lia|].
    repeat match goal with |- context [if ?b then _ else _] => destruct b end;
      cbn; lia.
  - destruct (_ || _); cbn; [lia|].
    repeat match goal with |- context [if ?b then _ else _] => destruct b end;
      cbn;
      match goal with |- context [pragmaLoop t rest eof ?s ?v ?n ?w] =>
        specialize (IH t s v n w) end; lia.
Qed.

Lemma extensionLoop_length token rest eof state valid name behavior diags :
  (length (snd (fst (fst (fst (fst (fst
     (extensionLoop token rest eof state valid name behavior diags)))))))
   <= length rest)%nat.
Proof.
  revert token state valid name behavior diags.
  induction rest as [|t rest IH];
    intros token state valid name behavior diags; cbn.
  - destruct (_ || _); cbn; [lia|].
    repeat match goal with |- context [if ?b then _ else _] => destruct b end;
      cbn; lia.
  - destruct (_ || _); cbn; [lia|].
    repeat match goal with |- context [if ?b then _ else _] => destruct b end;
      cbn;
      match goal with |- context [extensionLoop t rest eof ?s ?v ?n ?w ?d] =>
        specialize (IH t s v n w d) end; lia.
Qed.

Lemma versionLoop_length ext token rest eof state valid version diags :
  (length (snd (fst (fst (fst (fst
     (versionLoop ext token rest eof state valid version diags))))))
   <= length rest)%nat.
Proof.
  revert token state valid version diags.
  induction rest as [|t rest IH]; intros token state valid version diags;
    rewrite versionLoop_unfold.
  - destruct (_ && _); cbn; [|lia].
    destruct (versionStep _ _ _ _ _ _) as [[[? ?] ?] ?]. cbn. lia.
  - destruct (_ && _); cbn; [|lia].
    destruct (versionStep _ _ _ _ _ _) as [[[s v] ver] d].
    specialize (IH t s v ver d). cbn in *. lia.
Qed.

Ltac bound_calls :=
  repeat match goal with
         | |- context [lexToken ?q] =>
           pose proof (lexToken_remaining q); destruct (lexToken q)
         | |- context [skipUntilEOD ?t ?q] =>
           pose proof (skipUntilEOD_remaining t q); destruct (skipUntilEOD t q)
         | |- context [if ?b then _ else _] => destruct b
         | |- context [match ?x with _ => _ end] => destruct x
         end;
  unfold remaining in *; cbn in *; try lia.

Lemma finishDefine_remaining macroName kind params token p :
  (remaining (snd (finishDefine macroName kind params token p)) <= remaining p)%nat.
Proof.
  unfold finishDefine.
  pose proof (collectReplacements_length token (input (mTokenizer p)) (eofOf p) []).
  destruct (collectReplacements _ _ _ _) as [[t r] repl].
  bound_calls.
Qed.

Lemma parseDefine_remaining token p :
  (remaining (snd (parseDefine token p)) <= remaining p)%nat.
Proof.
  unfold parseDefine.
  pose proof (lexToken_remaining p). destruct (lexToken p) as [t1 p1].
  destruct (negb (isType t1 IDENTIFIER)); [bound_calls|].
  destruct (isMacroPredefined _ _); [bound_calls|].
  destruct (isMacroNameReserved _); [bound_calls|].
  set (p2 := if hasDoubleUnderscores (text t1) then _ else _).
  assert (remaining p2 = remaining p1)
    by (subst p2; destruct (hasDoubleUnderscores _); reflexivity).
  pose proof (lexToken_remaining p2). destruct (lexToken p2) as [t2 p3].
  destruct (_ && _).
  - pose proof (collectParameters_length (length (input (mTokenizer p3)))
                  (input (mTokenizer p3)) (eofOf p3) [] ltac:(lia)) as Hc.
    destruct (collectParameters _ _ _) as [t3 r3 ps|t3 r3].
    + destruct (negb (isChar t3 ")")).
      * unfold remaining in *; cbn in *; lia.
      * match goal with |- context [lexToken ?q] =>
          pose proof (lexToken_remaining q); destruct (lexToken q) as [t4 p4] end.
        pose proof (finishDefine_remaining (text t1) kTypeFunc ps t4 p4).
        unfold remaining in *; cbn in *; lia.
    + unfold remaining in *; cbn in *; lia.
  - pose proof (finishDefine_remaining (text t1) kTypeObj [] t2 p3).
    unfold remaining in *; cbn in *; lia.
Qed.

Lemma parseUndef_remaining token p :
  (remaining (snd (parseUndef token p)) <= remaining p)%nat.
Proof. unfold parseUndef. bound_calls. Qed.

Section Consuming.
Variable ext : Externals.
Hypothesis Hext : consuming ext.

Lemma parseExpressionIf_remaining token p :
  (remaining (snd (parseExpressionIf ext token p)) <= remaining p)%nat.
Proof.
  unfold parseExpressionIf.
  match goal with |- context [ExpressionParser_parse ext ?a ?b ?c ?d ?e ?f ?g ?h] =>
    pose proof (proj2 Hext a b c d e f g h);
    destruct (ExpressionParser_parse ext a b c d e f g h) end.
  bound_calls.
Qed.

Lemma parseExpressionIfdef_remaining token p :
  (remaining (snd (parseExpressionIfdef token p)) <= remaining p)%nat.
Proof. unfold parseExpressionIfdef. bound_calls. Qed.

Lemma parseConditionalIf_remaining token p :
  (remaining (snd (parseConditionalIf ext token p)) <= remaining p)%nat.
Proof.
  unfold parseConditionalIf.
  pose proof (parseExpressionIf_remaining token p).
  pose proof (parseExpressionIfdef_remaining token p).
  destruct (skipping p).
  { pose proof (skipUntilEOD_remaining token p).
    destruct (skipUntilEOD token p). unfold remaining in *; cbn in *; lia. }
  destruct (parseExpressionIf ext token p) as [[? ?] ?].
  destruct (parseExpressionIfdef token p) as [[? ?] ?].
  destruct (getDirective token); unfold remaining in *; cbn in *; lia.
Qed.

Lemma parseElse_remaining token p :
  (remaining (snd (parseElse token p)) <= remaining p)%nat.
Proof. unfold parseElse. bound_calls. Qed.

Lemma parseElif_remaining token p :
  (remaining (snd (parseElif ext token p)) <= remaining p)%nat.
Proof.
  unfold parseElif.
  pose proof (parseExpressionIf_remaining token p).
  destruct (parseExpressionIf ext token p) as [[? ?] ?].
  bound_calls.
Qed.

Lemma parseEndif_remaining token p :
  (remaining (snd (parseEndif token p)) <= remaining p)%nat.
Proof. unfold parseEndif. bound_calls. Qed.

Lemma parseError_remaining token p :
  (remaining (snd (parseError token p)) <= remaining p)%nat.
Proof.
  unfold parseError.
  pose proof (lexToken_remaining p). destruct (lexToken p) as [t1 p1].
  pose proof (collectMessage_length t1 (input (mTokenizer p1)) (eofOf p1) EmptyString).
  destruct (collectMessage _ _ _ _) as [[? ?] ?].
  unfold remaining in *; cbn in *; lia.
Qed.

Lemma parsePragma_remaining token p :
  (remaining (snd (parsePragma token p)) <= remaining p)%nat.
Proof.
  unfold parsePragma.
  pose proof (lexToken_remaining p). destruct (lexToken p) as [t1 p1].
  set (r := if String.eqb (text t1) "STDGL" then lexToken p1 else (t1, p1)).
  assert (remaining (snd r) <= remaining p1)%nat.
  { subst r. destruct (String.eqb _ _); [apply lexToken_remaining|cbn; lia]. }
  destruct r as [t2 p2].
  pose proof (pragmaLoop_length t2 (input (mTokenizer p2)) (eofOf p2) 0 true EmptyString EmptyString).
  destruct (pragmaLoop _ _ _ _ _ _ _) as [[[[[? ?] ?] ?] ?] ?].
  bound_calls.
Qed.

Lemma parseExtension_remaining token p :
  (remaining (snd (parseExtension token p)) <= remaining p)%nat.
Proof.
  unfold parseExtension.
  pose proof (lexToken_remaining p). destruct (lexToken p) as [t1 p1].
  pose proof (extensionLoop_length t1 (input (mTokenizer p1)) (eofOf p1)
                0 true EmptyString EmptyString []).
  destruct (extensionLoop _ _ _ _ _ _ _ _) as [[[[[[? ?] ?] ?] ?] ?] ?].
  bound_calls.
Qed.

Lemma parseVersion_remaining token p :
  (remaining (snd (parseVersion ext token p)) <= remaining p)%nat.
Proof.
  unfold parseVersion.
  destruct (mPastFirstStatement p); [bound_calls|].
  pose proof (lexToken_remaining p). destruct (lexToken p) as [t1 p1].
  pose proof (versionLoop_length ext t1 (input (mTokenizer p1)) (eofOf p1)
                VERSION_NUMBER true 0 []).
  destruct (versionLoop _ _ _ _ _ _ _ _) as [[[[[? ?] ?] ?] ?] ?].
  bound_calls.
Qed.

Lemma parseLineExpression_remaining id token result valid p :
  (remaining (snd (parseLineExpression ext id token result valid p))
   <= remaining p)%nat.
Proof.
  unfold parseLineExpression.
  match goal with |- context [ExpressionParser_parse ext ?a ?b ?c ?d ?e ?f ?g ?h] =>
    pose proof (proj2 Hext a b c d e f g h);
    destruct (ExpressionParser_parse ext a b c d e f g h) end.
  unfold remaining in *; cbn in *; lia.
Qed.

Lemma parseLine_remaining token p :
  (remaining (snd (parseLine ext token p)) <= remaining p)%nat.
Proof.
  unfold parseLine.
  pose proof (proj1 Hext (mMacroSet p) (input (mTokenizer p)) (eofOf p)).
  destruct (MacroExpander_lex ext _ _ _) as [[t1 r1] d1].
  destruct (isEOD t1).
  { unfold remaining in *; cbn in *; lia. }
  match goal with |- context [parseLineExpression ext ?a ?b ?c ?d ?q] =>
    pose proof (parseLineExpression_remaining a b c d q);
    destruct (parseLineExpression ext a b c d q) as [[[l1 v1] t2] p2] end.
  destruct (negb (isEOD t2) && v1).
  - match goal with |- context [parseLineExpression ext ?a ?b ?c ?d ?q] =>
      pose proof (parseLineExpression_remaining a b c d q);
      destruct (parseLineExpression ext a b c d q) as [[[f1 v2] t3] p3] end.
    bound_calls.
  - bound_calls.
Qed.

Lemma parseDirective_remaining token p :
  (remaining (snd (parseDirective ext token p)) <= remaining p)%nat.
Proof.
  unfold parseDirective.
  pose proof (lexToken_remaining p). destruct (lexToken p) as [t1 p1].
  destruct (isEOD t1); [cbn in *; lia|].
  destruct (skipping p1 && _).
  { pose proof (skipUntilEOD_remaining t1 p1). cbn in *. lia. }
  assert (Hd : forall q,
             q = match getDirective t1 with
                 | DIRECTIVE_NONE =>
                   skipUntilEOD t1 (reportToken PP_DIRECTIVE_INVALID_NAME t1 p1)
                 | DIRECTIVE_DEFINE => parseDefine t1 p1
                 | DIRECTIVE_UNDEF => parseUndef t1 p1
                 | DIRECTIVE_IF | DIRECTIVE_IFDEF | DIRECTIVE_IFNDEF =>
                   parseConditionalIf ext t1 p1
                 | DIRECTIVE_ELSE => parseElse t1 p1
                 | DIRECTIVE_ELIF => parseElif ext t1 p1
                 | DIRECTIVE_ENDIF => parseEndif t1 p1
                 | DIRECTIVE_ERROR => parseError t1 p1
                 | DIRECTIVE_PRAGMA => parsePragma t1 p1
                 | DIRECTIVE_EXTENSION => parseExtension t1 p1
                 | DIRECTIVE_VERSION => parseVersion ext t1 p1
                 | DIRECTIVE_LINE => parseLine ext t1 p1
                 end -> (remaining (snd q) <= remaining p1)%nat).
  { intros q ->. destruct (getDirective t1);
      auto using parseDefine_remaining, parseUndef_remaining,
        parseConditionalIf_remaining, parseElse_remaining, parseElif_remaining,
        parseEndif_remaining, parseError_remaining, parsePragma_remaining,
        parseExtension_remaining, parseVersion_remaining, parseLine_remaining.
    pose proof (skipUntilEOD_remaining t1
                  (reportToken PP_DIRECTIVE_INVALID_NAME t1 p1)).
    unfold remaining in *; cbn in *; lia. }
  specialize (Hd _ eq_refl).
  destruct (match getDirective t1 with DIRECTIVE_NONE => _ | _ => _ end)
    as [t2 p2].
  pose proof (skipUntilEOD_remaining t2 p2).
  destruct (skipUntilEOD t2 p2) as [t3 p3].
  destruct (isType t3 LAST); unfold remaining in *; cbn in *; lia.
Qed.

End Consuming.


Section Lex.
Variable ext : Externals.
Hypothesis Hext : consuming ext.

(** A pass of the loop that is not left by [break] uses up a token. *)
Lemma lexPass_progress p :
  fst (fst (lexPass ext p)) = false ->
  (remaining (snd (lexPass ext p)) < remaining p)%nat.
Proof.
  unfold lexPass.
  pose proof (lexToken_remaining p) as Hle.
  pose proof (lexToken_progress p) as Hlt.
  destruct (lexToken p) as [t1 p1]. cbn [fst snd] in Hle, Hlt.
  destruct (isType t1 PP_HASH) eqn:Hh.
  - apply isType_true in Hh.
    assert (remaining p1 < remaining p)%nat by (apply Hlt; congruence).
    pose proof (parseDirective_remaining ext Hext t1 p1) as Hd.
    destruct (parseDirective ext t1 p1) as [t2 p2]. cbn [snd] in Hd.
    destruct (isType t2 LAST).
    + destruct (mConditionalStack _); cbn; discriminate.
    + intros _. unfold remaining in *. cbn in *. lia.
  - destruct (isType t1 LAST) eqn:Hl.
    + destruct (negb (isEOD t1));
        rewrite Hl; destruct (mConditionalStack _); cbn; discriminate.
    + apply isType_false in Hl. specialize (Hlt Hl).
      destruct (negb (isEOD t1)); rewrite (proj2 (isType_false _ _) Hl);
        intros _; unfold remaining in *; cbn in *; lia.
Qed.

(** What a pass left by [break] has done. *)
Lemma lexPass_break p :
  fst (fst (lexPass ext p)) = true ->
  let token := snd (fst (lexPass ext p)) in
  let p' := snd (lexPass ext p) in
  type token = LAST /\
  forall block below, mConditionalStack p' = block :: below ->
    mDiagnostics p' = removelast (mDiagnostics p') ++
      [mkDiag PP_CONDITIONAL_UNTERMINATED (blockLocation block) (blockType block)].
Proof.
  unfold lexPass.
  destruct (lexToken p) as [t1 p1].
  match goal with |- context [if isType t1 PP_HASH then ?a else ?b] =>
    destruct (if isType t1 PP_HASH then a else b) as [t2 p2] end.
  destruct (isType t2 LAST) eqn:Hl; [|discriminate].
  apply isType_true in Hl.
  destruct (mConditionalStack p2) as [|b bs] eqn:Hs; cbn; intros _.
  - split; [exact Hl|]. intros block below. rewrite Hs. discriminate.
  - split; [exact Hl|]. intros block below. rewrite Hs. intros [= <- <-].
    now rewrite removelast_last.
Qed.

Lemma lexPass_at_end p :
  input (mTokenizer p) = [] -> fst (fst (lexPass ext p)) = true.
Proof.
  intros H. unfold lexPass, lexToken, Tokenizer_lex. rewrite H.
  change (isType (eofToken (eofLocation (mTokenizer p))) PP_HASH) with false.
  change (isEOD (eofToken (eofLocation (mTokenizer p)))) with true.
  change (isType (eofToken (eofLocation (mTokenizer p))) LAST) with true.
  cbn [negb]. destruct (mConditionalStack _); reflexivity.
Qed.

Lemma lexPass_flag p :
  fst (fst (lexPass ext p)) = isType (snd (fst (lexPass ext p))) LAST.
Proof.
  unfold lexPass.
  destruct (lexToken p) as [t1 p1].
  match goal with |- context [if isType t1 PP_HASH then ?a else ?b] =>
    destruct (if isType t1 PP_HASH then a else b) as [t2 p2] end.
  destruct (isType t2 LAST) eqn:Hl; [|cbn; now rewrite Hl].
  destruct (mConditionalStack p2); cbn; now rewrite Hl.
Qed.

Lemma lex_returns n p :
  (remaining p < n)%nat ->
  exists token p',
    lex ext n p = Some (token, p') /\
    (input (mTokenizer p) = [] -> type token = LAST) /\
    (type token = LAST ->
     forall block below, mConditionalStack p' = block :: below ->
       exists before,
         mDiagnostics p' = before ++
           [mkDiag PP_CONDITIONAL_UNTERMINATED (blockLocation block)
              (blockType block)]).
Proof.
  revert p. induction n as [|n IH]; intros p Hn; [lia|].
  cbn [lex].
  pose proof (lexPass_progress p) as Hprog.
  pose proof (lexPass_break p) as Hbrk.
  pose proof (lexPass_at_end p) as Hend.
  pose proof (lexPass_flag p) as Hflag.
  destruct (lexPass ext p) as [[broke token] p1]. cbn [fst snd] in *.
  destruct broke.
  - destruct (Hbrk eq_refl) as [Hl Hd].
    exists token, (set_pastFirstStatement true p1).
    split; [reflexivity|]. split; [auto|].
    intros _ block below Hs. eexists. apply (Hd block below Hs).
  - specialize (Hprog eq_refl).
    destruct (skipping p1 || isChar token newline) eqn:Hloop.
    + destruct (IH p1 ltac:(lia)) as (tok & p' & E & _ & Hd).
      exists tok, p'. split; [exact E|]. split; [|exact Hd].
      intros Hi. specialize (Hend Hi). discriminate.
    + exists token, (set_pastFirstStatement true p1).
      split; [reflexivity|]. split.
      * intros Hi. specialize (Hend Hi). discriminate.
      * intros Hl. apply isType_true in Hl. congruence.
Qed.
End Lex.


Lemma sample_consuming : consuming sampleExternals.
Proof.
  split.
  - intros m rest eof. destruct rest; cbn; lia.
  - intros wd m rest eof token preset settings valid. cbn.
    unfold sample_parse.
    destruct preset.
    + destruct (sample_iValue token); [destruct rest|]; cbn; lia.
    + destruct rest as [|t rest]; cbn.
      * destruct (sample_iValue (eofToken eof)); cbn; lia.
      * destruct (sample_iValue t); [destruct rest|]; cbn; lia.
Qed.

(** C10. [lex] always returns a token (the loop ends: one unit of fuel
    per token still to come, plus one, is enough).  At the end of the
    input the token returned is the end-of-input token; and whenever
    that token is returned while a conditional block is open, the last
    diagnostic reported is [PP_CONDITIONAL_UNTERMINATED] with the location
    and the directive name of the block on top of the stack, the one
    opened last. *)
Theorem unterminated_conditional_reported (ext : Externals)
  (p : DirectiveParser) :
  consuming ext ->
  exists token p',
    lex ext (S (remaining p)) p = Some (token, p') /\
    (input (mTokenizer p) = [] -> type token = LAST) /\
    (type token = LAST ->
     forall block below, mConditionalStack p' = block :: below ->
       exists before,
         mDiagnostics p' = before ++
           [mkDiag PP_CONDITIONAL_UNTERMINATED (blockLocation block)
              (blockType block)]).
Proof. intros Hext. apply lex_returns; [exact Hext|lia]. Qed.

Lemma unterminated_conditional_reported_witness :
  consuming sampleExternals /\
  exists token p',
    lex sampleExternals (S (remaining unterminatedIf)) unterminatedIf
    = Some (token, p') /\
    (input (mTokenizer unterminatedIf) = [] -> type token = LAST) /\
    (type token = LAST ->
     forall block below, mConditionalStack p' = block :: below ->
       exists before,
         mDiagnostics p' = before ++
           [mkDiag PP_CONDITIONAL_UNTERMINATED (blockLocation block)
              (blockType block)]).
Proof.
  split; [exact sample_consuming|].
  apply (unterminated_conditional_reported sampleExternals unterminatedIf).
  exact sample_consuming.
Defined.


(** [#if 1], a newline, [x], and the input ends: the first call returns
    [x], the second the end-of-input token, with the diagnostic for the
    [if] of line 1. *)
Example unterminated_if_run :
  match lex sampleExternals 6 unterminatedIf with
  | Some (t1, p1) =>
    t1 = ident "x" 2 /\
    match lex sampleExternals 1 p1 with
    | Some (t2, p2) =>
      t2 = eofToken (mkLoc 0 3) /\
      mDiagnostics p2 = [mkDiag PP_CONDITIONAL_UNTERMINATED (mkLoc 0 1) "if"]
    | None => False
    end
  | None => False
  end.
Proof. vm_compute. auto. Qed.

(** *** What [#define] and [#undef] do to the macro table *)

(** [parseDefine] leaves the table alone or adds one entry under a name
    that had none; the entry is neither predefined nor under expansion. *)
Lemma parseDefine_macroSet token p :
  let p' := snd (parseDefine token p) in
  mMacroSet p' = mMacroSet p \/
  exists macro,
    mMacroSet p !! name macro = None /\
    predefined macro = false /\ expansionCount macro = 0 /\
    mMacroSet p' = <[name macro := macro]> (mMacroSet p).
Proof.
  cbn zeta.
  assert (Hfin : forall macroName kind params token p,
            let p' := snd (finishDefine macroName kind params token p) in
            mMacroSet p' = mMacroSet p \/
            exists macro,
              mMacroSet p !! name macro = None /\
              predefined macro = false /\ expansionCount macro = 0 /\
              mMacroSet p' = <[name macro := macro]> (mMacroSet p)).
  { intros macroName kind params tok q. cbn zeta. unfold finishDefine.
    destruct (collectReplacements _ _ _ _) as [[t r] repl].
    cbn [set_input set_tokenizer mMacroSet].
    destruct (mMacroSet q !! macroName) eqn:Hm.
    - destruct (negb (Macro_equals _ _)); cbn; auto.
    - right. eexists (mkMacro false kind macroName params _ 0).
      cbn. split; [exact Hm|]. auto. }
  unfold parseDefine, lexToken.
  destruct (Tokenizer_lex (mTokenizer p)) as [t1 tk1].
  destruct (negb (isType t1 IDENTIFIER)); [cbn; auto|].
  cbn [set_tokenizer mMacroSet].
  destruct (isMacroPredefined _ _); [cbn; auto|].
  destruct (isMacroNameReserved _); [cbn; auto|].
  set (p2 := if hasDoubleUnderscores (text t1) then _ else _).
  assert (E2 : mMacroSet p2 = mMacroSet p)
    by (subst p2; destruct (hasDoubleUnderscores _); reflexivity).
  destruct (Tokenizer_lex (mTokenizer p2)) as [t2 tk2].
  destruct (_ && _).
  - destruct (collectParameters _ _ _) as [t3 r3 ps|t3 r3].
    + destruct (negb (isChar t3 ")")); [cbn; auto|].
      cbn [set_input set_tokenizer mTokenizer].
      destruct (Tokenizer_lex _) as [t4 tk4].
      match goal with |- context [finishDefine ?a ?b ?c ?d ?e] =>
        destruct (Hfin a b c d e) as [E|(macro & H1 & H2 & H3 & E)] end.
      * left. rewrite E. exact E2.
      * right. exists macro. cbn in H1, E. rewrite E2 in H1, E. auto.
    + cbn. auto.
  - match goal with |- context [finishDefine ?a ?b ?c ?d ?e] =>
      destruct (Hfin a b c d e) as [E|(macro & H1 & H2 & H3 & E)] end.
    + left. rewrite E. exact E2.
    + right. exists macro. cbn in H1, E. rewrite E2 in H1, E. auto.
Qed.

(** X19. [#define] never changes a macro that is already in the table: a
    definition that differs is refused, one that is the same is dropped,
    and a predefined macro is refused before its definition is read. *)
Theorem define_keeps_existing_macros (token : Token) (p : DirectiveParser)
  (n : string) (m : Macro) :
  mMacroSet p !! n = Some m ->
  mMacroSet (snd (parseDefine token p)) !! n = Some m.
Proof.
  intros Hn.
  destruct (parseDefine_macroSet token p) as [E|(macro & H1 & _ & _ & E)].
  - now rewrite E.
  - rewrite E. rewrite lookup_insert_ne; [exact Hn|]. congruence.
Qed.

Lemma define_keeps_existing_macros_witness :
  mMacroSet (snd (parseDefine (ident "define" 1)
                    (set_input [spaced (ident "FOO" 1); number "1" 1; endOfLine 1]
                       undefSample))) !! "FOO"
  = Some (mkMacro false kTypeObj "FOO" [] [] 0).
Proof.
  apply (define_keeps_existing_macros (ident "define" 1)
           (set_input [spaced (ident "FOO" 1); number "1" 1; endOfLine 1]
              undefSample) "FOO").
  reflexivity.
Defined.

(** What [parseUndef] does to the table when the name is there, is not
    predefined and is not under expansion. *)
Lemma parseUndef_erases token p nameTok rest m :
  input (mTokenizer p) = nameTok :: rest ->
  type nameTok = IDENTIFIER ->
  mMacroSet p !! text nameTok = Some m ->
  predefined m = false -> expansionCount m <= 0 ->
  mMacroSet (snd (parseUndef token p)) = delete (text nameTok) (mMacroSet p).
Proof.
  intros Hin Hty Hm Hp He. unfold parseUndef.
  rewrite (lexToken_cons _ _ _ Hin).
  rewrite (proj2 (isType_true _ _) Hty). cbn [negb].
  cbn [set_input set_tokenizer mMacroSet]. rewrite Hm, Hp.
  destruct (Z.ltb_spec 0 (expansionCount m)); [lia|].
  unfold lexToken. cbn [set_macroSet mTokenizer].
  destruct (Tokenizer_lex _) as [t2 tk2].
  destruct (negb (isEOD t2)); [|reflexivity].
  match goal with |- context [skipUntilEOD ?a ?b] =>
    pose proof (skipUntilEOD_keeps a b) as (Em & _);
    destruct (skipUntilEOD a b) end.
  cbn in *. exact Em.
Qed.

(** X20. A macro that [#define] has just registered is taken out again by
    [#undef]: the table is then what it was before the definition. *)
Theorem undef_undoes_define (token token' : Token) (p p2 : DirectiveParser)
  (nameTok : Token) (rest : list Token) :
  mMacroSet p !! text nameTok = None ->
  is_Some (mMacroSet (snd (parseDefine token p)) !! text nameTok) ->
  mMacroSet p2 = mMacroSet (snd (parseDefine token p)) ->
  input (mTokenizer p2) = nameTok :: rest ->
  type nameTok = IDENTIFIER ->
  mMacroSet (snd (parseUndef token' p2)) = mMacroSet p.
Proof.
  intros Hnone [m Hm] E2 Hin Hty.
  destruct (parseDefine_macroSet token p) as [E|(macro & H1 & Hp & He & E)].
  - rewrite E in Hm. congruence.
  - rewrite E in Hm, E2.
    destruct (decide (name macro = text nameTok)) as [En|Hne].
    + rewrite En in *. rewrite lookup_insert_eq in Hm. injection Hm as <-.
      rewrite (parseUndef_erases token' p2 nameTok rest macro Hin Hty);
        [| rewrite E2; apply lookup_insert_eq | exact Hp | lia].
      rewrite E2. rewrite delete_insert_eq. now apply delete_id.
    + rewrite lookup_insert_ne in Hm by exact Hne. congruence.
Qed.

Lemma undef_undoes_define_witness :
  let p := parserOn [spaced (ident "A" 1); spaced (number "1" 1); endOfLine 1] 2 in
  let p1 := snd (parseDefine (ident "define" 1) p) in
  mMacroSet p1 !! "A"
  = Some (mkMacro false kTypeObj "A" [] [mkToken CONST_INT false (mkLoc 0 0) "1"] 0) /\
  mMacroSet (snd (parseUndef (ident "undef" 2)
                    (set_input [spaced (ident "A" 2); endOfLine 2] p1)))
  = mMacroSet p.
Proof.
  split; [reflexivity|].
  apply (undef_undoes_define (ident "define" 1) (ident "undef" 2) _ _
           (spaced (ident "A" 2)) [endOfLine 2]).
  - reflexivity.
  - eexists. reflexivity.
  - reflexivity.
  - reflexivity.
  - reflexivity.
Defined.

(** *** The conditional stack *)

Lemma lexToken_stack p :
  mConditionalStack (snd (lexToken p)) = mConditionalStack p.
Proof. unfold lexToken. now destruct (Tokenizer_lex (mTokenizer p)). Qed.

Ltac stack_calls :=
  repeat match goal with
         | |- context [lexToken ?q] =>
           pose proof (lexToken_stack q); destruct (lexToken q)
         | |- context [skipUntilEOD ?t ?q] =>
           pose proof (skipUntilEOD_keeps t q) as (_ & _ & _ & ? & _);
           destruct (skipUntilEOD t q)
         | |- context [if ?b then _ else _] => destruct b
         | |- context [match ?x with _ => _ end] => destruct x
         end;
  cbn in *; try congruence.

Lemma finishDefine_stack macroName kind params token p :
  mConditionalStack (snd (finishDefine macroName kind params token p))
  = mConditionalStack p.
Proof.
  unfold finishDefine.
  destruct (collectReplacements _ _ _ _) as [[t r] repl]. stack_calls.
Qed.

Lemma parseDefine_stack token p :
  mConditionalStack (snd (parseDefine token p)) = mConditionalStack p.
Proof.
  unfold parseDefine.
  pose proof (lexToken_stack p). destruct (lexToken p) as [t1 p1].
  destruct (negb (isType t1 IDENTIFIER)); [stack_calls|].
  destruct (isMacroPredefined _ _); [stack_calls|].
  destruct (isMacroNameReserved _); [stack_calls|].
  set (p2 := if hasDoubleUnderscores (text t1) then _ else _).
  assert (mConditionalStack p2 = mConditionalStack p1)
    by (subst p2; destruct (hasDoubleUnderscores _); reflexivity).
  pose proof (lexToken_stack p2). destruct (lexToken p2) as [t2 p3].
  destruct (_ && _).
  - destruct (collectParameters _ _ _) as [t3 r3 ps|t3 r3].
    + destruct (negb (isChar t3 ")")); [cbn in *; congruence|].
      match goal with |- context [lexToken ?q] =>
        pose proof (lexToken_stack q); destruct (lexToken q) as [t4 p4] end.
      rewrite finishDefine_stack. cbn in *. congruence.
    + cbn in *. congruence.
  - rewrite finishDefine_stack. cbn in *. congruence.
Qed.

Lemma parseUndef_stack token p :
  mConditionalStack (snd (parseUndef token p)) = mConditionalStack p.
Proof. unfold parseUndef. stack_calls. Qed.

Lemma parseError_stack token p :
  mConditionalStack (snd (parseError token p)) = mConditionalStack p.
Proof.
  unfold parseError.
  pose proof (lexToken_stack p). destruct (lexToken p) as [t1 p1].
  destruct (collectMessage _ _ _ _) as [[t r] msg]. cbn in *. congruence.
Qed.

Lemma parsePragma_stack token p :
  mConditionalStack (snd (parsePragma token p)) = mConditionalStack p.
Proof.
  unfold parsePragma.
  pose proof (lexToken_stack p). destruct (lexToken p) as [t1 p1].
  destruct (String.eqb (text t1) "STDGL").
  - pose proof (lexToken_stack p1). destruct (lexToken p1) as [t2 p2].
    destruct (pragmaLoop _ _ _ _ _ _ _) as [[[[[t r] st] v] n] val].
    stack_calls.
  - destruct (pragmaLoop _ _ _ _ _ _ _) as [[[[[t r] st] v] n] val].
    stack_calls.
Qed.

Lemma parseExtension_stack token p :
  mConditionalStack (snd (parseExtension token p)) = mConditionalStack p.
Proof.
  unfold parseExtension.
  pose proof (lexToken_stack p). destruct (lexToken p) as [t1 p1].
  destruct (extensionLoop _ _ _ _ _ _ _ _) as [[[[[[t r] st] v] n] b] d].
  stack_calls.
Qed.

Lemma parseVersion_stack ext token p :
  mConditionalStack (snd (parseVersion ext token p)) = mConditionalStack p.
Proof.
  unfold parseVersion.
  destruct (mPastFirstStatement p); [stack_calls|].
  pose proof (lexToken_stack p). destruct (lexToken p) as [t1 p1].
  destruct (versionLoop _ _ _ _ _ _ _ _) as [[[[[t r] st] v] ver] d].
  stack_calls.
Qed.

Lemma parseLineExpression_stack ext id token result valid p :
  mConditionalStack (snd (parseLineExpression ext id token result valid p))
  = mConditionalStack p.
Proof. reflexivity. Qed.

Lemma parseLine_stack ext token p :
  mConditionalStack (snd (parseLine ext token p)) = mConditionalStack p.
Proof.
  unfold parseLine.
  destruct (MacroExpander_lex ext _ _ _) as [[t1 r1] d1].
  destruct (isEOD t1); [reflexivity|].
  match goal with |- context [parseLineExpression ?e ?i ?t ?r ?v ?q] =>
    pose proof (parseLineExpression_stack e i t r v q);
    destruct (parseLineExpression e i t r v q) as [[[l1 v1] t2] p2] end.
  destruct (negb (isEOD t2) && v1).
  - match goal with |- context [parseLineExpression ?e ?i ?t ?r ?v ?q] =>
      pose proof (parseLineExpression_stack e i t r v q);
      destruct (parseLineExpression e i t r v q) as [[[l3 v3] t3] p3] end.
    stack_calls.
  - stack_calls.
Qed.

(** X21. What the directive after [#] does to the stack of conditional blocks:
    [#if], [#ifdef] and [#ifndef] always push one block (skipped as a
    whole when the directive sits in a skipped group), [#endif] pops
    one, [#else] and [#elif] rewrite at most the block on top, and no
    other directive touches the stack. *)
Theorem directives_keep_the_stack_in_step (ext : Externals) (token : Token)
  (p : DirectiveParser) :
  let tok := fst (lexToken p) in
  let s := mConditionalStack p in
  let s' := mConditionalStack (snd (parseDirective ext token p)) in
  match getDirective tok with
  | DIRECTIVE_IF | DIRECTIVE_IFDEF | DIRECTIVE_IFNDEF =>
    exists b, s' = b :: s /\ skipBlock b = skipping p /\
              blockType b = text tok /\ blockLocation b = location tok /\
              foundElseGroup b = false
  | DIRECTIVE_ENDIF => s' = tail s
  | DIRECTIVE_ELSE | DIRECTIVE_ELIF =>
    s' = s \/
    exists b b' below,
      s = b :: below /\ s' = b' :: below /\ skipBlock b = false /\
      skipBlock b' = false /\ blockType b' = blockType b /\
      blockLocation b' = blockLocation b
  | _ => s' = s
  end.
Proof.
  cbn zeta. unfold parseDirective.
  pose proof (lexToken_stack p) as H1. destruct (lexToken p) as [t1 p1].
  cbn [fst snd] in *.
  assert (Hskip : skipping p1 = skipping p) by (unfold skipping; now rewrite H1).
  assert (Hend : forall (r : Token * DirectiveParser),
             mConditionalStack
               (snd (let '(token, p) := r in
                     let '(token, p) := skipUntilEOD token p in
                     if isType token LAST
                     then (token, reportToken PP_EOF_IN_DIRECTIVE token p)
                     else (token, p)))
             = mConditionalStack (snd r)).
  { intros [t q]. stack_calls. }
  destruct (isEOD t1) eqn:Heod.
  { (* the null directive *)
    assert (getDirective t1 = DIRECTIVE_NONE) as ->.
    { unfold getDirective, isEOD, isChar, isType in *.
      destruct (bool_decide_reflect (type t1 = IDENTIFIER)) as [E|]; [|reflexivity].
      rewrite E in Heod. discriminate. }
    cbn. exact H1. }
  destruct (skipping p1 && negb (isConditionalDirective (getDirective t1)))
    eqn:Hsk.
  { (* an ordinary directive in a skipped group *)
    apply andb_true_iff in Hsk as [_ Hc].
    pose proof (skipUntilEOD_keeps t1 p1) as (_ & _ & _ & Es & _).
    destruct (skipUntilEOD t1 p1). cbn in *.
    destruct (getDirective t1); try discriminate Hc; congruence. }
  destruct (getDirective t1) eqn:Hd; rewrite Hend.
  - pose proof (skipUntilEOD_keeps t1 (reportToken PP_DIRECTIVE_INVALID_NAME t1 p1))
      as (_ & _ & _ & Es & _).
    destruct (skipUntilEOD _ _). cbn in *. congruence.
  - rewrite parseDefine_stack. exact H1.
  - rewrite parseUndef_stack. exact H1.
  - (* if *)
    unfold parseConditionalIf. rewrite Hskip.
    destruct (skipping p).
    + pose proof (skipUntilEOD_keeps t1 p1) as (_ & _ & _ & Es & _).
      destruct (skipUntilEOD t1 p1). cbn in *.
      eexists. split; [rewrite Es, H1; reflexivity|]. cbn. auto.
    + rewrite Hd. pose proof (parseExpressionIf_stack ext t1 p1) as Es.
      destruct (parseExpressionIf ext t1 p1) as [[e t2] p2]. cbn in *.
      eexists. split; [rewrite Es, H1; reflexivity|]. cbn. auto.
  - (* ifdef *)
    unfold parseConditionalIf. rewrite Hskip.
    destruct (skipping p).
    + pose proof (skipUntilEOD_keeps t1 p1) as (_ & _ & _ & Es & _).
      destruct (skipUntilEOD t1 p1). cbn in *.
      eexists. split; [rewrite Es, H1; reflexivity|]. cbn. auto.
    + rewrite Hd. pose proof (parseExpressionIfdef_stack t1 p1) as Es.
      destruct (parseExpressionIfdef t1 p1) as [[e t2] p2]. cbn in *.
      eexists. split; [rewrite Es, H1; reflexivity|]. cbn. auto.
  - (* ifndef *)
    unfold parseConditionalIf. rewrite Hskip.
    destruct (skipping p).
    + pose proof (skipUntilEOD_keeps t1 p1) as (_ & _ & _ & Es & _).
      destruct (skipUntilEOD t1 p1). cbn in *.
      eexists. split; [rewrite Es, H1; reflexivity|]. cbn. auto.
    + rewrite Hd. pose proof (parseExpressionIfdef_stack t1 p1) as Es.
      destruct (parseExpressionIfdef t1 p1) as [[e t2] p2]. cbn in *.
      eexists. split; [rewrite Es, H1; reflexivity|]. cbn. auto.
  - (* else *)
    unfold parseElse. rewrite H1.
    destruct (mConditionalStack p) as [|b below] eqn:Hs.
    + left. stack_calls.
    + destruct (skipBlock b) eqn:Hsb; [left; stack_calls|].
      destruct (foundElseGroup b); [left; stack_calls|].
      right. exists b.
      exists (mkBlock (blockType b) (blockLocation b) false
                (foundValidGroup b) true true).
      exists below.
      split; [reflexivity|]. split; [|cbn; auto].
      stack_calls.
  - (* elif *)
    unfold parseElif. rewrite H1.
    destruct (mConditionalStack p) as [|b below] eqn:Hs.
    + left. stack_calls.
    + destruct (skipBlock b) eqn:Hsb; [left; stack_calls|].
      destruct (foundElseGroup b); [left; stack_calls|].
      destruct (foundValidGroup b).
      * right. exists b.
        exists (mkBlock (blockType b) (blockLocation b) false true false true).
        exists below.
        split; [reflexivity|]. split; [|cbn; auto].
        stack_calls.
      * pose proof (parseExpressionIf_stack ext t1 p1) as Es.
        destruct (parseExpressionIf ext t1 p1) as [[e t2] p2]. cbn in *.
        rewrite Es, H1.
        right. exists b. eexists. exists below.
        split; [reflexivity|]. split; [reflexivity|]. cbn. auto.
  - (* endif *)
    unfold parseEndif. rewrite H1.
    destruct (mConditionalStack p) as [|b below] eqn:Hs; stack_calls.
  - rewrite parseError_stack. exact H1.
  - rewrite parsePragma_stack. exact H1.
  - rewrite parseExtension_stack. exact H1.
  - rewrite parseVersion_stack. exact H1.
  - rewrite parseLine_stack. exact H1.
Qed.

Lemma parseElse_skipping token p b below :
  mConditionalStack p = b :: below ->
  skipping (snd (parseElse token p))
  = skipBlock b || (if foundElseGroup b then skipGroup b else foundValidGroup b).
Proof.
  intros Hs. unfold parseElse. rewrite Hs.
  destruct (skipBlock b) eqn:Hsb.
  - pose proof (skipUntilEOD_keeps token p) as (_ & _ & _ & Es & _).
    destruct (skipUntilEOD token p) as [t1 p1]. cbn in *.
    unfold skipping. now rewrite Es, Hs, Hsb.
  - destruct (foundElseGroup b) eqn:He.
    + match goal with |- context [skipUntilEOD ?t ?q] =>
        pose proof (skipUntilEOD_keeps t q) as (_ & _ & _ & Es & _);
        destruct (skipUntilEOD t q) as [t1 p1] end.
      cbn in *. unfold skipping. now rewrite Es, Hs, Hsb.
    + match goal with |- context [lexToken ?q] =>
        pose proof (lexToken_stack q) as E1; destruct (lexToken q) as [t1 p1] end.
      cbn in E1.
      destruct (negb (isEOD t1)).
      * match goal with |- context [skipUntilEOD ?t ?q] =>
          pose proof (skipUntilEOD_keeps t q) as (_ & _ & _ & Es & _);
          destruct (skipUntilEOD t q) as [t2 p2] end.
        cbn in *. unfold skipping. now rewrite Es, E1.
      * cbn. unfold skipping. now rewrite E1.
Qed.

(** X22. The group after [#else] is read exactly when the enclosing group is
    read and the group after the [#if], [#ifdef] or [#ifndef] that
    opened the block was not. *)
Theorem else_group_complements_if_group (ext : Externals)
  (token token' : Token) (p p2 : DirectiveParser) :
  mConditionalStack p2
  = mConditionalStack (snd (parseConditionalIf ext token p)) ->
  skipping (snd (parseElse token' p2))
  = skipping p || negb (skipping (snd (parseConditionalIf ext token p))).
Proof.
  intros Hs. revert Hs. unfold parseConditionalIf.
  destruct (skipping p) eqn:Hsk.
  - destruct (skipUntilEOD token p) as [t1 p1]. cbn. intros Hs.
    now rewrite (parseElse_skipping _ _ _ _ Hs).
  - match goal with |- context [push_back _ _] => idtac end.
    destruct (match getDirective token with
              | DIRECTIVE_IF => _ | DIRECTIVE_IFDEF => _
              | DIRECTIVE_IFNDEF => _ | _ => _ end) as [[e t1] p1].
    cbn. intros Hs. rewrite (parseElse_skipping _ _ _ _ Hs). cbn.
    unfold skipping. cbn. reflexivity.
Qed.

Lemma else_group_complements_if_group_witness :
  let p := parserOn [number "0" 1; endOfLine 1; ident "x" 2; endOfLine 2] 3 in
  let p2 := snd (parseConditionalIf sampleExternals (ident "if" 1) p) in
  mConditionalStack p2
  = mConditionalStack (snd (parseConditionalIf sampleExternals (ident "if" 1) p))
  /\ skipping p2 = true
  /\ skipping (snd (parseElse (ident "else" 3) p2)) = false.
Proof.
  cbv zeta. split; [reflexivity|]. split; [vm_compute; reflexivity|].
  rewrite (else_group_complements_if_group sampleExternals (ident "if" 1)
             (ident "else" 3) _ _ eq_refl).
  vm_compute. reflexivity.
Defined.

(** *** What [lex] hands out *)

Lemma skipTokens_isEOD token rest eof :
  isEOD (fst (skipTokens token rest eof)) = true.
Proof.
  revert token. induction rest as [|t rest IH]; intros token; cbn.
  - destruct (isEOD token) eqn:E; [exact E|reflexivity].
  - destruct (isEOD token) eqn:E; [exact E|apply IH].
Qed.

Lemma skipUntilEOD_isEOD token p : isEOD (fst (skipUntilEOD token p)) = true.
Proof.
  unfold skipUntilEOD.
  pose proof (skipTokens_isEOD token (input (mTokenizer p))
                (eofLocation (mTokenizer p))) as H.
  now destruct (skipTokens _ _ _).
Qed.

Lemma parseDirective_isEOD ext token p :
  isEOD (fst (parseDirective ext token p)) = true.
Proof.
  unfold parseDirective.
  destruct (lexToken p) as [t1 p1].
  destruct (isEOD t1) eqn:E; [exact E|].
  destruct (skipping p1 && _); [apply skipUntilEOD_isEOD|].
  match goal with |- context [let '(a, b) := ?r in _] =>
    destruct r as [t2 p2] end.
  pose proof (skipUntilEOD_isEOD t2 p2) as H.
  destruct (skipUntilEOD t2 p2) as [t3 p3].
  now destruct (isType t3 LAST).
Qed.

Lemma isEOD_cases t :
  isEOD t = true <-> type t = CHAR newline \/ type t = LAST.
Proof.
  unfold isEOD, isChar. rewrite orb_true_iff, !isType_true. reflexivity.
Qed.

Lemma lexPass_token ext p :
  let token := snd (fst (lexPass ext p)) in
  let p' := snd (lexPass ext p) in
  type token <> PP_HASH /\
  (isEOD token = false -> mSeenNonPreprocessorToken p' = true).
Proof.
  unfold lexPass.
  destruct (lexToken p) as [t1 p1].
  destruct (isType t1 PP_HASH) eqn:Hh.
  - pose proof (parseDirective_isEOD ext t1 p1) as He.
    destruct (parseDirective ext t1 p1) as [t2 p2]. cbn [fst] in He.
    assert (type t2 <> PP_HASH).
    { apply isEOD_cases in He as [E|E]; rewrite E; discriminate. }
    destruct (isType t2 LAST); [destruct (mConditionalStack _)|];
      cbn; (split; [assumption|congruence]).
  - apply isType_false in Hh.
    destruct (isEOD t1) eqn:He; cbn [negb];
      (destruct (isType t1 LAST); [destruct (mConditionalStack _)|]);
      cbn; (split; [assumption|congruence]).
Qed.

Lemma lex_hands_out n ext p :
  consuming ext ->
  (remaining p < n)%nat ->
  exists token p',
    lex ext n p = Some (token, p') /\
    mPastFirstStatement p' = true /\
    type token <> CHAR newline /\ type token <> PP_HASH /\
    (type token <> LAST ->
     skipping p' = false /\ mSeenNonPreprocessorToken p' = true).
Proof.
  intros Hext. revert p. induction n as [|n IH]; intros p Hn; [lia|].
  cbn [lex].
  pose proof (lexPass_progress ext Hext p) as Hprog.
  pose proof (lexPass_flag ext p) as Hflag.
  pose proof (lexPass_token ext p) as [Hh Hseen].
  destruct (lexPass ext p) as [[broke token] p1]. cbn [fst snd] in *.
  destruct broke.
  - symmetry in Hflag. apply isType_true in Hflag.
    exists token, (set_pastFirstStatement true p1).
    split; [reflexivity|]. split; [reflexivity|].
    split; [rewrite Hflag; discriminate|]. split; [exact Hh|].
    intros Hl. contradiction.
  - specialize (Hprog eq_refl).
    destruct (skipping p1 || isChar token newline) eqn:Hloop.
    + apply IH. lia.
    + apply orb_false_iff in Hloop as [Hsk Hnl].
      exists token, (set_pastFirstStatement true p1).
      split; [reflexivity|]. split; [reflexivity|].
      split; [apply isType_false; exact Hnl|]. split; [exact Hh|].
      intros _. split; [exact Hsk|].
      cbn. apply Hseen. unfold isEOD. rewrite Hnl. cbn. now rewrite <- Hflag.
Qed.

(** X23. [lex] returns after at most one pass per token still to come, and
    what it returns is never a newline or a [#]: a directive is consumed
    whole.  A token other than the end of the input is handed out only
    outside skipped groups, and marks the parser as having seen a token
    that is not the preprocessor's; every call leaves the parser past
    its first statement. *)
Theorem lex_hands_out_program_tokens (ext : Externals) (p : DirectiveParser) :
  consuming ext ->
  exists token p',
    lex ext (S (remaining p)) p = Some (token, p') /\
    mPastFirstStatement p' = true /\
    type token <> CHAR newline /\ type token <> PP_HASH /\
    (type token <> LAST ->
     skipping p' = false /\ mSeenNonPreprocessorToken p' = true).
Proof. intros Hext. apply lex_hands_out; [exact Hext|lia]. Qed.

Lemma lex_hands_out_program_tokens_witness :
  consuming sampleExternals /\
  exists token p',
    lex sampleExternals (S (remaining unterminatedIf)) unterminatedIf
    = Some (token, p') /\
    mPastFirstStatement p' = true /\
    type token <> CHAR newline /\ type token <> PP_HASH /\
    (type token <> LAST ->
     skipping p' = false /\ mSeenNonPreprocessorToken p' = true).
Proof.
  split; [exact sample_consuming|].
  apply (lex_hands_out_program_tokens sampleExternals unterminatedIf).
  exact sample_consuming.
Defined.

(** *** [#extension] *)

Lemma extensionLoop_oneError token rest eof state valid name behavior diags :
  oneError valid diags ->
  let '(_, _, _, valid', _, _, diags') :=
    extensionLoop token rest eof state valid name behavior diags in
  oneError valid' diags'.
Proof.
  revert token state valid name behavior diags.
  induction rest as [|t rest IH]; intros token state valid name behavior diags H;
    cbn [extensionLoop];
    (destruct (isChar token newline || isType token LAST); [exact H|]).
  - destruct (state =? 0); [|destruct (state =? 1); [|destruct (state =? 2)]];
      destruct valid; cbn [andb]; try destruct (isType token IDENTIFIER);
      try destruct (isChar token ":"); cbn; unfold oneError in H; subst;
      try reflexivity; try exact H; eexists; split; try reflexivity; discriminate.
  - destruct (state =? 0); [|destruct (state =? 1); [|destruct (state =? 2)]];
      destruct valid; cbn [andb]; try destruct (isType token IDENTIFIER);
      try destruct (isChar token ":"); cbn [negb];
      apply IH; unfold oneError in *; subst;
      try reflexivity; try exact H; eexists; split; try reflexivity; discriminate.
Qed.

(** X24. An [#extension] directive reaches the directive handler only when
    nothing is wrong with it.  Either exactly one error is reported, the
    first one met, and the handler is not called; or the handler is
    called once, and the only diagnostic there can be is the warning that
    the directive follows program text, given below version 300 (from
    version 300 on that is an error). *)
Theorem extension_handled_only_without_error (token : Token)
  (p : DirectiveParser) :
  let p' := snd (parseExtension token p) in
  (mDirectiveHandler p' = mDirectiveHandler p /\
   exists d, mDiagnostics p' = mDiagnostics p ++ [d] /\
             diagId d <> PP_NON_PP_TOKEN_BEFORE_EXTENSION_ESSL1)
  \/
  (exists tok name behavior,
     mDirectiveHandler p'
     = mDirectiveHandler p ++ [handleExtension (location tok) name behavior] /\
     mDiagnostics p'
     = mDiagnostics p ++
       (if mSeenNonPreprocessorToken p
        then [mkDiag PP_NON_PP_TOKEN_BEFORE_EXTENSION_ESSL1 (location tok)
                (text tok)]
        else []) /\
     (mSeenNonPreprocessorToken p = true -> mShaderVersion p < 300)).
Proof.
  cbn zeta. unfold parseExtension, lexToken.
  destruct (Tokenizer_lex (mTokenizer p)) as [t1 tk1].
  match goal with |- context [extensionLoop ?a ?b ?c ?d ?e ?f ?g ?h] =>
    pose proof (extensionLoop_oneError a b c d e f g h eq_refl) as Hinv;
    destruct (extensionLoop a b c d e f g h)
      as [[[[[[t r] st] v] n] b'] ds] end.
  cbn [set_tokenizer set_input reportAll mSeenNonPreprocessorToken
       mShaderVersion mTokenizer] in *.
  destruct v; cbn [andb].
  - unfold oneError in Hinv. subst ds.
    destruct (negb (st =? 3)).
    + left. cbn. rewrite app_nil_r. split; [reflexivity|].
      eexists. split; [reflexivity|]. discriminate.
    + cbn [andb].
      change (mSeenNonPreprocessorToken
                (reportAll [] (set_input r (set_tokenizer tk1 p))))
        with (mSeenNonPreprocessorToken p).
      change (mShaderVersion (reportAll [] (set_input r (set_tokenizer tk1 p))))
        with (mShaderVersion p).
      destruct (mSeenNonPreprocessorToken p) eqn:Hseen.
      * destruct (300 <=? mShaderVersion p) eqn:Hv.
        -- left. cbn. rewrite app_nil_r. split; [reflexivity|].
           eexists. split; [reflexivity|]. discriminate.
        -- right. exists t, n, b'. cbn. rewrite app_nil_r.
           split; [reflexivity|]. split; [reflexivity|].
           intros _. apply Z.leb_gt. exact Hv.
      * right. exists t, n, b'. cbn.
        split; [reflexivity|]. split; [reflexivity|]. discriminate.
  - destruct Hinv as (d & -> & Hd). left. cbn.
    split; [reflexivity|]. exists d. split; [reflexivity|exact Hd].
Qed.

(** *** [#pragma] *)

Lemma pragmaLoop_eod token rest eof state valid name value :
  isEOD token = true ->
  pragmaLoop token rest eof state valid name value
  = (token, rest, state, valid, name, value).
Proof.
  intros H. unfold isEOD in H. destruct rest; cbn [pragmaLoop]; now rewrite H.
Qed.

Lemma pragmaLoop_step token next rest eof state valid name value :
  isEOD token = false ->
  pragmaLoop token (next :: rest) eof state valid name value
  = pragmaLoop next rest eof (state + 1)
      (if state =? 0 then valid && isType token IDENTIFIER
       else if state =? 1 then valid && isChar token "("
       else if state =? 2 then valid && isType token IDENTIFIER
       else if state =? 3 then valid && isChar token ")"
       else false)
      (if state =? 0 then text token else name)
      (if state =? 0 then value
       else if state =? 1 then value
       else if state =? 2 then text token
       else value).
Proof.
  intros H. unfold isEOD in H. cbn [pragmaLoop]. rewrite H.
  destruct (state =? 0); [reflexivity|].
  destruct (state =? 1); [reflexivity|].
  destruct (state =? 2); [reflexivity|].
  destruct (state =? 3); reflexivity.
Qed.

(** Past the name, the loop only counts and checks. *)
Lemma pragmaLoop_state body e rest eof :
  isEOD e = true ->
  forall token state valid name value,
    1 <= state ->
    isEOD token = false -> Forall (fun t => isEOD t = false) body ->
    exists valid' value',
      pragmaLoop token (body ++ e :: rest) eof state valid name value
      = (e, rest, state + 1 + Z.of_nat (length body), valid', name, value').
Proof.
  intros He. induction body as [|b body IH];
    intros token state valid name value Hs Ht Hb.
  - cbn [app]. rewrite pragmaLoop_step by exact Ht.
    rewrite pragmaLoop_eod by exact He.
    assert ((state =? 0) = false) as -> by (apply Z.eqb_neq; lia).
    do 2 eexists. cbn [length]. rewrite Z.add_0_r. reflexivity.
  - cbn [app]. rewrite pragmaLoop_step by exact Ht.
    assert ((state =? 0) = false) as -> by (apply Z.eqb_neq; lia).
    inversion Hb as [|? ? Hb1 Hb2]; subst.
    edestruct (IH b (state + 1)) as (v' & val' & E);
      [lia|exact Hb1|exact Hb2|].
    assert (Hz : state + 1 + 1 + Z.of_nat (length body)
                 = state + 1 + Z.of_nat (length (b :: body)))
      by (cbn [length]; lia).
    rewrite E, Hz. exists v', val'. reflexivity.
Qed.

Lemma set_input_reads l p :
  input (mTokenizer (set_input l p)) = l /\ eofOf (set_input l p) = eofOf p.
Proof. split; reflexivity. Qed.

(** What the parser does with the line of a [#pragma], once an optional
    leading [STDGL] is set aside. *)
Lemma parsePragma_line (p : DirectiveParser) (stdgl : bool) body e rest :
  input (mTokenizer p) = body ++ e :: rest ->
  Forall (fun t => isEOD t = false) body -> isEOD e = true ->
  (let '(token, p) := lexToken p in
   let '(token, rest, state, valid, name, value) :=
     pragmaLoop token (input (mTokenizer p)) (eofOf p) 0 true
       EmptyString EmptyString in
   let p := set_input rest p in
   let valid := valid && ((state =? 0) || (state =? 1) || (state =? 4)) in
   if negb valid
   then (token, report PP_UNRECOGNIZED_PRAGMA (location token) name p)
   else if 0 <? state
   then (token, callHandler (handlePragma (location token) name value stdgl) p)
   else (token, p))
  = (e, let q := set_input rest p in
        let unrecognized n :=
          report PP_UNRECOGNIZED_PRAGMA (location e) (text n) q in
        match body with
        | [] => q
        | [n] =>
          if isType n IDENTIFIER
          then callHandler
                 (handlePragma (location e) (text n) EmptyString stdgl) q
          else unrecognized n
        | [n; l; v; r] =>
          if isType n IDENTIFIER && isChar l "(" &&
             isType v IDENTIFIER && isChar r ")"
          then callHandler
                 (handlePragma (location e) (text n) (text v) stdgl) q
          else unrecognized n
        | n :: _ => unrecognized n
        end).
Proof.
  intros Hin Hb He. cbn zeta.
  destruct body as [|n body].
  { rewrite (lexToken_cons p e rest Hin).
    rewrite pragmaLoop_eod by exact He. reflexivity. }
  rewrite (lexToken_cons p n (body ++ e :: rest) Hin).
  destruct (set_input_reads (body ++ e :: rest) p) as [-> ->].
  inversion Hb as [|? ? Hn Hb']; subst.
  destruct body as [|l body].
  { cbn [app]. rewrite pragmaLoop_step by exact Hn.
    rewrite pragmaLoop_eod by exact He. cbn.
    destruct (isType n IDENTIFIER); reflexivity. }
  inversion Hb' as [|? ? Hl Hb'']; subst.
  assert (Hgen : forall k, k <> 2%nat -> length body = k ->
            (let '(token, rest0, state, valid, name, value) :=
               pragmaLoop n ((l :: body) ++ e :: rest) (eofOf p) 0 true
                 EmptyString EmptyString in
             let p1 := set_input rest0 (set_input ((l :: body) ++ e :: rest) p) in
             let valid0 := valid && ((state =? 0) || (state =? 1) || (state =? 4)) in
             if negb valid0
             then (token, report PP_UNRECOGNIZED_PRAGMA (location token) name p1)
             else if 0 <? state
             then (token,
                   callHandler (handlePragma (location token) name value stdgl) p1)
             else (token, p1))
            = (e, report PP_UNRECOGNIZED_PRAGMA (location e) (text n)
                    (set_input rest p))).
  { intros k Hk Hlen. cbn [app]. rewrite pragmaLoop_step by exact Hn.
    change (0 =? 0) with true. cbv iota.
    destruct (pragmaLoop_state body e rest (eofOf p) He l (0 + 1)
                (true && isType n IDENTIFIER) (text n) EmptyString
                ltac:(lia) Hl Hb'') as (v' & val' & ->).
    assert (E0 : (0 + 1 + 1 + Z.of_nat (length body) =? 0) = false) by (apply Z.eqb_neq; lia).
    assert (E1 : (0 + 1 + 1 + Z.of_nat (length body) =? 1) = false) by (apply Z.eqb_neq; lia).
    assert (E4 : (0 + 1 + 1 + Z.of_nat (length body) =? 4) = false)
      by (apply Z.eqb_neq; lia).
    rewrite E0, E1, E4, andb_false_r. reflexivity. }
  destruct body as [|v body]; [exact (Hgen 0%nat ltac:(lia) eq_refl)|].
  destruct body as [|r body]; [exact (Hgen 1%nat ltac:(lia) eq_refl)|].
  destruct body as [|x body];
    [|exact (Hgen (S (S (S (length body)))) ltac:(lia) eq_refl)].
  clear Hgen.
  inversion Hb'' as [|? ? Hv Hb3]; subst.
  inversion Hb3 as [|? ? Hr _]; subst.
  cbn [app]. rewrite !pragmaLoop_step by assumption.
  rewrite pragmaLoop_eod by exact He. cbn.
  destruct (isType n IDENTIFIER), (isChar l "("), (isType v IDENTIFIER),
    (isChar r ")"); reflexivity.
Qed.

(** X25. The directive handler hears of a pragma exactly when it reads
    [name] or [name(value)], after an optional [STDGL]: it is then given
    the name, the value (empty when there is none) and whether [STDGL]
    came first.  An empty pragma is passed over in silence; any other
    line is reported once as an unrecognized pragma, under the text of
    its first token, and the handler is not called.  In every case the
    line is read up to its end. *)
Theorem pragma_notifies_for_name_and_value (token : Token)
  (p : DirectiveParser) (stdgl : bool) (s : Token) (body : list Token)
  (e : Token) (rest : list Token) :
  input (mTokenizer p) = (if stdgl then [s] else []) ++ body ++ e :: rest ->
  (if stdgl then text s = "STDGL"%string
   else text (hd e body) <> "STDGL"%string) ->
  Forall (fun t => isEOD t = false) body -> isEOD e = true ->
  parsePragma token p
  = (e, let q := set_input rest p in
        let unrecognized n :=
          report PP_UNRECOGNIZED_PRAGMA (location e) (text n) q in
        match body with
        | [] => q
        | [n] =>
          if isType n IDENTIFIER
          then callHandler
                 (handlePragma (location e) (text n) EmptyString stdgl) q
          else unrecognized n
        | [n; l; v; r] =>
          if isType n IDENTIFIER && isChar l "(" &&
             isType v IDENTIFIER && isChar r ")"
          then callHandler
                 (handlePragma (location e) (text n) (text v) stdgl) q
          else unrecognized n
        | n :: _ => unrecognized n
        end).
Proof.
  intros Hin Hs Hb He. unfold parsePragma.
  destruct stdgl.
  - cbn [app] in Hin. rewrite (lexToken_cons p s _ Hin).
    apply String.eqb_eq in Hs. rewrite Hs.
    exact (parsePragma_line (set_input (body ++ e :: rest) p) true
             body e rest eq_refl Hb He).
  - cbn [app] in Hin.
    pose proof (parsePragma_line p false body e rest Hin Hb He) as H.
    assert (Ht : fst (lexToken p) = hd e body).
    { destruct body; cbn [app] in Hin;
        now rewrite (lexToken_cons p _ _ Hin). }
    destruct (lexToken p) as [t1 p1]. cbn [fst] in Ht. subst t1.
    apply String.eqb_neq in Hs. rewrite Hs. exact H.
Qed.

Lemma pragma_notifies_for_name_and_value_witness :
  parsePragma (ident "pragma" 1)
    (parserOn [spaced (ident "STDGL" 1); spaced (ident "invariant" 1);
               punct "(" 1; ident "all" 1; punct ")" 1; endOfLine 1;
               ident "x" 2] 3)
  = (endOfLine 1,
     callHandler (handlePragma (mkLoc 0 1) "invariant" "all" true)
       (set_input [ident "x" 2]
          (parserOn [spaced (ident "STDGL" 1); spaced (ident "invariant" 1);
                     punct "(" 1; ident "all" 1; punct ")" 1; endOfLine 1;
                     ident "x" 2] 3))).
Proof.
  apply (pragma_notifies_for_name_and_value (ident "pragma" 1) _ true
           (spaced (ident "STDGL" 1))
           [spaced (ident "invariant" 1); punct "(" 1; ident "all" 1;
            punct ")" 1] (endOfLine 1) [ident "x" 2]).
  - reflexivity.
  - reflexivity.
  - repeat constructor.
  - reflexivity.
Defined.

End DirectiveFacts.
